(** * ViranumPro: the order lifecycle engine

    A shallow embedding of the three parts of the bot that carry its
    logic, and the properties proved about them:

    - [Watcher]: [_poll_order_updates] of [app/main.py], the per-order
      polling loop (SMS dedup, status-change detection, terminal statuses,
      backoff schedule);
    - [TTLCache]: the class [TTLCache] of [app/main.py] and the lookup that
      [on_prices] performs through it;
    - [FiveSim]: [FiveSimClient._request] and [FiveSimClient.buy_activation]
      of [app/services/fivesim.py], and the purchase call of [buy_maxprice]
      in [app/main.py];
    - [ClientLifetime]: the creation and closing of the client's
      [httpx.AsyncClient] ([__init__], [__aenter__], [aclose], the lazy
      creation in [_request]);
    - [Webhook]: [telegram_webhook]; [OrderButtons]: [_order_keyboard] and
      [on_order_action]; [BuyFlow]: [on_buy] and the handlers of
      [BuyStates]; [Listing]: [_flatten_product_prices], all of
      [app/main.py].

    Conventions.  Python values that the code only inspects through
    [is None], truthiness, [str()] and set membership are modelled by
    [pyval].  Awaited calls are modelled by their results, supplied by the
    environment: the watcher reads a list of poll outcomes, the HTTP client
    an attempt-indexed oracle.  Everything the code does to the outside
    (polls, chat messages, sleeps, HTTP attempts) is recorded in a trace.
    [bot.send_message] and [asyncio.sleep] are taken to return; clock
    readings and durations are integers (seconds for the watcher and the
    cache, milliseconds for the client's retry pauses).  Exceptions that
    the code itself can raise are outcomes of the model: the failed
    [assert] and the [OverflowError] of the retry pause in [_request], and
    the exception that ends the watcher on an answer it cannot read
    ([watch]). *)

From Stdlib Require Import ZArith String List Lia.
From stdpp Require Import base decidable countable gmap strings list pretty.

Local Open Scope Z_scope.

(** ** Python values *)

(** The JSON scalars that reach the code as [status], [id], [code], [text]
    and [date].  JSON floats and containers in these positions are left
    out. *)
Inductive pyval :=
  | PyNone
  | PyBool (b : bool)
  | PyInt (z : Z)
  | PyStr (s : string).

(** [bool(v)], as taken by [if v:] and [v or ...]. *)
Definition truthy (v : pyval) : bool :=
  match v with
  | PyNone => false
  | PyBool b => b
  | PyInt z => negb (z =? 0)
  | PyStr s => negb (String.eqb s EmptyString)
  end.

(** [str(v)]. *)
Definition py_str (v : pyval) : string :=
  match v with
  | PyNone => "None"
  | PyBool true => "True"
  | PyBool false => "False"
  | PyInt z => pretty z
  | PyStr s => s
  end.

(** [text[:limit]] with the default [limit = 4000]; strings are byte
    strings here, which agrees with Python on ASCII text. *)
Definition _format_text (text : string) : string := substring 0 4000 text.

(** [sep.join(parts)]. *)
Definition join (sep : string) (parts : list string) : string :=
  String.concat sep parts.

(** [starts_with p s]: [s.startswith(p)]; used to read traces. *)
Fixpoint starts_with (p s : string) : bool :=
  match p with
  | EmptyString => true
  | String a p' =>
      match s with
      | EmptyString => false
      | String b s' => if Ascii.eqb a b then starts_with p' s' else false
      end
  end.

(** ** The order watcher: [_poll_order_updates] *)

Module Watcher.

(** Members of [seen_sms_ids].  Python compares set members with [==],
    under which [True == 1] and [False == 0]; the fallback key is the [int]
    returned by [hash]. *)
Inductive sms_key :=
  | KInt (z : Z)
  | KStr (s : string).

#[global] Instance sms_key_eq_dec : EqDecision sms_key.
Proof. solve_decision. Defined.

#[global] Instance sms_key_countable : Countable sms_key.
Proof.
  refine (inj_countable'
            (λ k, match k with KInt z => inl z | KStr s => inr s end)
            (λ x, match x with inl z => KInt z | inr s => KStr s end) _).
  by intros [].
Defined.

(** One entry of [data["sms"]]; a field holds [PyNone] when [s.get(...)]
    finds nothing. *)
Record Sms := {
  sms_id : pyval;
  sms_code : pyval;
  sms_text : pyval;
  sms_date : pyval;
}.

(** The decoded body of a successful [order_check] when it has the shape
    the loop expects: an object whose ["sms"], if any, is a list of
    objects. [resp_sms] is [None] when ["sms"] is missing, [null] or
    another false value. The other bodies are those of [raw_body] below,
    on which the loop raises. *)
Record Response := {
  resp_status : pyval;
  resp_sms : option (list Sms);
}.

(** What one [await order_check(...)] gives: [Some data] for a body of
    the expected shape, or [None] when it raised. *)
Abbreviation poll_result := (option Response).

(** What the loop does to the outside world. *)
Inductive event :=
  | EvPoll (ok : bool)       (* order_check was awaited; did it return? *)
  | EvSend (text : string)   (* bot.send_message(chat_id, text) *)
  | EvSleep (secs : Z).      (* asyncio.sleep(secs) *)

#[global] Instance event_eq_dec : EqDecision event.
Proof. solve_decision. Defined.

(** The locals that live across iterations. *)
Record WatcherState := {
  backoff : list Z;
  seen_sms_ids : gset sms_key;
  last_status : option string;
}.

Definition initial_backoff : list Z := [2; 4; 8; 15; 30].

Definition init : WatcherState :=
  {| backoff := initial_backoff; seen_sms_ids := ∅; last_status := None |}.

(** [status in {"FINISHED", "CANCELED", "TIMEOUT", "BANNED"}] *)
Definition terminal_statuses : list string :=
  ["FINISHED"; "CANCELED"; "TIMEOUT"; "BANNED"]%string.

Definition is_terminal (status : string) : bool :=
  bool_decide (status ∈ terminal_statuses).

Section WithHash.

(** [hash((txt, date))]: Python's tuple hash, salted per process for
    strings, so it stays a parameter. *)
Variable py_hash : pyval → pyval → Z.

(** The [sid] of an entry: its ["id"], or the fallback fingerprint. *)
Definition sms_sid (s : Sms) : sms_key :=
  match sms_id s with
  | PyNone => KInt (py_hash (sms_text s) (sms_date s))
  | PyBool b => KInt (if b then 1 else 0)
  | PyInt z => KInt z
  | PyStr x => KStr x
  end.

(** The [for s in sms_list] loop: the updated [seen_sms_ids] and
    [new_codes]. *)
Fixpoint scan_sms (seen : gset sms_key) (sms_list : list Sms)
  : gset sms_key * list string :=
  match sms_list with
  | [] => (seen, [])
  | s :: rest =>
      let sid := sms_sid s in
      let code := sms_code s in
      if decide (sid ∈ seen) then scan_sms seen rest
      else
        let '(seen', codes) := scan_sms ({[sid]} ∪ seen) rest in
        (seen', if truthy code then py_str code :: codes else codes)
  end.

Definition codes_message (new_codes : list string) : string :=
  _format_text ("New code(s) received: " +:+ join ", " new_codes).

Definition status_message (status : string) : string :=
  _format_text ("Order status: " +:+ status).

(** [if new_codes: await bot.send_message(...)] *)
Definition codes_events (new_codes : list string) : list event :=
  match new_codes with
  | [] => []
  | _ => [EvSend (codes_message new_codes)]
  end.

(** [if status != last_status: ... await bot.send_message(...)] *)
Definition status_events (last : option string) (status : string)
  : list event :=
  if bool_decide (Some status ≠ last) then [EvSend (status_message status)]
  else [].

(** [delay = backoff[0] if backoff else 30] *)
Definition next_delay (b : list Z) : Z :=
  match b with
  | d :: _ => d
  | [] => 30
  end.

(** [if len(backoff) > 1: backoff.pop(0)] *)
Definition advance (b : list Z) : list Z :=
  if bool_decide (1 < length b)%nat then tail b else b.

(** One pass through the body of [while True]: the new state, what was
    done, and whether the loop reached [break]. *)
Definition iteration (st : WatcherState) (p : poll_result)
  : WatcherState * list event * bool :=
  match p with
  | None => (st, [EvPoll false; EvSleep 5], false)
  | Some data =>
      let status := py_str (resp_status data) in
      let sms_list := default [] (resp_sms data) in
      let '(seen, new_codes) := scan_sms (seen_sms_ids st) sms_list in
      let ev_codes := codes_events new_codes in
      let ev_status := status_events (last_status st) status in
      let last :=
        if bool_decide (Some status ≠ last_status st) then Some status
        else last_status st in
      if is_terminal status then
        ({| backoff := backoff st; seen_sms_ids := seen; last_status := last |},
         EvPoll true :: ev_codes ++ ev_status, true)
      else
        ({| backoff := advance (backoff st); seen_sms_ids := seen;
            last_status := last |},
         EvPoll true :: ev_codes ++ ev_status ++ [EvSleep (next_delay (backoff st))],
         false)
  end.

(** A run of the loop against the outcomes of its successive polls, all
    of the expected shape; [watch] below runs it against any answer. *)
Record Run := {
  trace : list event;
  finished : bool;               (* the loop left through [break] *)
  unread : list poll_result;     (* outcomes never asked for *)
  final : WatcherState;
}.

(** The [while True] loop from the state [st], against the outcomes of
    its successive polls; with no outcome left the loop is waiting for its
    next poll. *)
Fixpoint poll_loop (st : WatcherState) (polls : list poll_result) : Run :=
  match polls with
  | [] => {| trace := []; finished := false; unread := []; final := st |}
  | p :: rest =>
      let '(st', evs, stop) := iteration st p in
      if stop then
        {| trace := evs; finished := true; unread := rest; final := st' |}
      else
        let r := poll_loop st' rest in
        {| trace := evs ++ trace r; finished := finished r;
           unread := unread r; final := final r |}
  end.

(** [_poll_order_updates(bot, order_id, chat_id)]: the loop, entered with
    the initial values of its locals. *)
Definition _poll_order_updates (polls : list poll_result) : Run :=
  poll_loop init polls.

(** *** Reading a run *)

(** Ghost copy of [scan_sms]: every code that enters [new_codes], paired
    with the [sid] that let it in. *)
Fixpoint scan_tagged (seen : gset sms_key) (sms_list : list Sms)
  : list (sms_key * string) :=
  match sms_list with
  | [] => []
  | s :: rest =>
      let sid := sms_sid s in
      let code := sms_code s in
      if decide (sid ∈ seen) then scan_tagged seen rest
      else
        (if truthy code then [(sid, py_str code)] else [])
          ++ scan_tagged ({[sid]} ∪ seen) rest
  end.

Definition batch_of (st : WatcherState) (p : poll_result)
  : list (sms_key * string) :=
  match p with
  | None => []
  | Some data => scan_tagged (seen_sms_ids st) (default [] (resp_sms data))
  end.

(** The tagged [new_codes] of each iteration of a run, in order. *)
Fixpoint code_batches (st : WatcherState) (polls : list poll_result)
  : list (list (sms_key * string)) :=
  match polls with
  | [] => []
  | p :: rest =>
      let '(st', _, stop) := iteration st p in
      batch_of st p :: (if stop then [] else code_batches st' rest)
  end.

(** All notified codes of a run with their [sid]s. *)
Definition notified (st : WatcherState) (polls : list poll_result)
  : list (sms_key * string) :=
  concat (code_batches st polls).

End WithHash.

(** The chat messages of a trace, in order. *)
Fixpoint sent (tr : list event) : list string :=
  match tr with
  | [] => []
  | EvSend text :: tr' => text :: sent tr'
  | _ :: tr' => sent tr'
  end.

Definition is_status_text (text : string) : bool :=
  starts_with "Order status: " text.

Definition is_codes_text (text : string) : bool :=
  starts_with "New code(s) received: " text.

Definition status_notifications (tr : list event) : list string :=
  List.filter is_status_text (sent tr).

Definition code_notifications (tr : list event) : list string :=
  List.filter is_codes_text (sent tr).

(** Number of [order_check] calls in a trace. *)
Fixpoint polls_made (tr : list event) : nat :=
  match tr with
  | [] => 0
  | EvPoll _ :: tr' => S (polls_made tr')
  | _ :: tr' => polls_made tr'
  end.

(** Number of [order_check] calls that returned. *)
Fixpoint polls_ok (tr : list event) : nat :=
  match tr with
  | [] => 0
  | EvPoll true :: tr' => S (polls_ok tr')
  | _ :: tr' => polls_ok tr'
  end.

(** The sleeps taken in iterations whose poll succeeded; [after_ok] tells
    whether the latest poll before [tr] succeeded. *)
Fixpoint delays_after (after_ok : bool) (tr : list event) : list Z :=
  match tr with
  | [] => []
  | EvPoll ok :: tr' => delays_after ok tr'
  | EvSend _ :: tr' => delays_after after_ok tr'
  | EvSleep d :: tr' =>
      if after_ok then d :: delays_after after_ok tr'
      else delays_after after_ok tr'
  end.

Definition backoff_delays (tr : list event) : list Z := delays_after false tr.

(** The poll outcomes a run consumed. *)
Definition consumed (polls : list poll_result) (r : Run) : list poll_result :=
  take (length polls - length (unread r)) polls.

(** The [status] strings of the successful polls among [ps]. *)
Fixpoint statuses (ps : list poll_result) : list string :=
  match ps with
  | [] => []
  | None :: ps' => statuses ps'
  | Some data :: ps' => py_str (resp_status data) :: statuses ps'
  end.

(** Number of maximal runs of equal consecutive values. *)
Fixpoint runs (l : list string) : nat :=
  match l with
  | [] => 0
  | x :: l' =>
      match l' with
      | [] => 1
      | y :: _ => if decide (x = y) then runs l' else S (runs l')
      end
  end.

(** Number of entries of [l] that differ from the entry before them,
    [prev] standing before the first. *)
Fixpoint changes (prev : option string) (l : list string) : nat :=
  match l with
  | [] => 0
  | x :: l' =>
      ((if bool_decide (Some x ≠ prev) then 1 else 0) + changes (Some x) l')%nat
  end.

(** A poll outcome after which the loop goes on: a failure, or a status
    outside the terminal set. *)
Definition keeps_polling (p : poll_result) : bool :=
  match p with
  | None => true
  | Some data => negb (is_terminal (py_str (resp_status data)))
  end.

(** The schedule as the loop walks it: entry [i], holding at the last. *)
Definition schedule_at (b : list Z) (i : nat) : Z :=
  nth (Nat.min i (length b - 1)) b 30.

(** *** The scenario of the specification *)

(** [{id: i, code: c}] *)
Definition sms_with (i : Z) (c : string) : Sms :=
  {| sms_id := PyInt i; sms_code := PyStr c;
     sms_text := PyNone; sms_date := PyNone |}.

(** [{status: s, sms: l}] *)
Definition poll_ok (s : string) (l : list Sms) : poll_result :=
  Some {| resp_status := PyStr s; resp_sms := Some l |}.

(** The four polls of the scenario; the last one repeats the SMS list of
    the third. *)
Definition scenario_polls : list poll_result :=
  [ poll_ok "PENDING" [];
    poll_ok "RECEIVED" [sms_with 1 "123"];
    poll_ok "RECEIVED" [sms_with 1 "123"; sms_with 2 "456"];
    poll_ok "FINISHED" [sms_with 1 "123"; sms_with 2 "456"] ].

(** A hash for closed examples; the entries above all carry an id. *)
Definition zero_hash (txt date : pyval) : Z := 0.

(** *** More ways to read a run *)

(** The SMS list an iteration walks: [data.get("sms") or []], and nothing
    for a poll that raised. *)
Definition sms_of (p : poll_result) : list Sms :=
  match p with
  | Some data => default [] (resp_sms data)
  | None => []
  end.

(** All SMS entries of the polls [ps], in the order the loop meets them. *)
Definition all_sms (ps : list poll_result) : list Sms :=
  concat (sms_of <$> ps).

(** [ps] without the polls that raised. *)
Fixpoint drop_failures (ps : list poll_result) : list poll_result :=
  match ps with
  | [] => []
  | None :: ps' => drop_failures ps'
  | Some data :: ps' => Some data :: drop_failures ps'
  end.

(** Number of [order_check] calls that raised. *)
Fixpoint polls_failed (tr : list event) : nat :=
  match tr with
  | [] => 0
  | EvPoll false :: tr' => S (polls_failed tr')
  | _ :: tr' => polls_failed tr'
  end.

(** The sleeps taken in iterations whose poll raised. *)
Fixpoint sleeps_after_failure (after_ok : bool) (tr : list event) : list Z :=
  match tr with
  | [] => []
  | EvPoll ok :: tr' => sleeps_after_failure ok tr'
  | EvSend _ :: tr' => sleeps_after_failure after_ok tr'
  | EvSleep d :: tr' =>
      if after_ok then sleeps_after_failure after_ok tr'
      else d :: sleeps_after_failure after_ok tr'
  end.

Definition recovery_delays (tr : list event) : list Z :=
  sleeps_after_failure true tr.

(** *** Answers that are not what the loop expects *)

(** [order_check] returns whatever the provider's body decodes to, or its
    text. The loop reads it outside its [try]: an exception raised there
    leaves the coroutine. *)

(** An item of the list [data["sms"]]: an object, or any other value, on
    which [s.get] raises [AttributeError]. *)
Inductive raw_sms :=
  | SmsObject (s : Sms)
  | SmsOther.

(** What [data.get("sms")] gives: nothing to walk (missing, [null] or
    another false value), a list, or a true value that is not a list. Over
    a number or [True] the [for] raises [TypeError]; of a string or an
    object the first item is a string, which has no [get]. *)
Inductive raw_sms_field :=
  | SmsAbsent
  | SmsList (l : list raw_sms)
  | SmsNotList.

(** A returned body: an object with its ["status"] and ["sms"], or a
    value that is no object ([resp.text], a list, a number, [null]), on
    which [data.get] raises [AttributeError]. *)
Inductive raw_body :=
  | BodyObject (status : pyval) (sms : raw_sms_field)
  | BodyOther.

(** What one [await order_check(...)] gives. *)
Inductive raw_poll :=
  | Raised
  | Returned (b : raw_body).

(** The items of a list when all of them are objects. *)
Fixpoint sms_objects (l : list raw_sms) : option (list Sms) :=
  match l with
  | [] => Some []
  | SmsObject s :: l' => (λ ss, s :: ss) <$> sms_objects l'
  | SmsOther :: _ => None
  end.

(** The body as [iteration] takes it; [None] when lines 155 to 168 raise
    on it. *)
Definition as_response (b : raw_body) : option Response :=
  match b with
  | BodyObject status SmsAbsent =>
      Some {| resp_status := status; resp_sms := None |}
  | BodyObject status (SmsList l) =>
      (λ ss, {| resp_status := status; resp_sms := Some ss |})
        <$> sms_objects l
  | BodyObject _ SmsNotList => None
  | BodyOther => None
  end.

(** The poll as [iteration] takes it; [None] when the body of the loop
    raises on it. *)
Definition poll_of (p : raw_poll) : option poll_result :=
  match p with
  | Raised => Some None
  | Returned b => Some <$> as_response b
  end.

(** How the coroutine stands after the outcomes it was given: still in
    its loop, out of it through [break], or ended by an exception. *)
Inductive ending :=
  | Polling
  | Broke
  | Escaped.

#[global] Instance ending_eq_dec : EqDecision ending.
Proof. solve_decision. Defined.

Record Watch := {
  seen_events : list event;
  end_state : ending;
  left_over : list raw_poll;     (* outcomes never asked for *)
}.

(** What a poll outcome does to the loop. *)
Definition outcome_kind (p : raw_poll) : ending :=
  match poll_of p with
  | None => Escaped
  | Some q => if keeps_polling q then Polling else Broke
  end.

Section Answers.

Variable py_hash : pyval → pyval → Z.

(** The [while True] loop against the raw outcomes of its polls. An
    exception in lines 155 to 168 comes after the poll and before any
    message of that iteration. *)
Fixpoint watch (st : WatcherState) (polls : list raw_poll) : Watch :=
  match polls with
  | [] => {| seen_events := []; end_state := Polling; left_over := [] |}
  | p :: rest =>
      match poll_of p with
      | None =>
          {| seen_events := [EvPoll true]; end_state := Escaped;
             left_over := rest |}
      | Some q =>
          let '(st', evs, stop) := iteration py_hash st q in
          if stop then
            {| seen_events := evs; end_state := Broke; left_over := rest |}
          else
            let w := watch st' rest in
            {| seen_events := evs ++ seen_events w; end_state := end_state w;
               left_over := left_over w |}
      end
  end.

(** [p] without the SMS entries whose [sid] is [k]. *)
Definition without_sid (k : sms_key) (p : poll_result) : poll_result :=
  match p with
  | Some data =>
      Some {| resp_status := resp_status data;
              resp_sms :=
                List.filter (λ s, bool_decide (sms_sid py_hash s ≠ k))
                  <$> resp_sms data |}
  | None => None
  end.

End Answers.

End Watcher.

(** ** The TTL cache: class [TTLCache] *)

Module TTLCache.

Section Cache.

(** [V]: the objects other than [None] that callers store; a Python
    object is then an [option V], with [None] for [None]. Times are
    [time.time()] readings on an integer scale. *)
Context {V : Type}.

Abbreviation store := (gmap string (Z * option V)).

(** [get]: the returned object and [_store] afterwards. A stored item is
    a pair, which is never falsy, so [not item] holds for a missing key
    only. *)
Definition get (key : string) (now : Z) (c : store) : option V * store :=
  match c !! key with
  | None => (None, c)
  | Some (exp, value) =>
      if bool_decide (exp < now) then (None, delete key c)
      else (value, c)
  end.

(** [set]: [_store] afterwards. *)
Definition set (key : string) (value : option V) (ttl : Z) (now : Z)
    (c : store) : store :=
  <[key := (now + ttl, value)]> c.

(** Calls on the cache, each made at some moment. *)
Inductive op :=
  | CallGet (key : string)
  | CallSet (key : string) (value : option V) (ttl : Z).

Definition exec1 (c : store) (call : Z * op) : store :=
  match call with
  | (now, CallGet key) => snd (get key now c)
  | (now, CallSet key value ttl) => set key value ttl now c
  end.

Definition exec (calls : list (Z * op)) (c : store) : store :=
  fold_left exec1 calls c.

Definition sets_key (key : string) (call : Z * op) : Prop :=
  match call.2 with
  | CallSet k _ _ => k = key
  | CallGet _ => False
  end.

(** [calls] happen from [t0] on, in the order of their clock readings. *)
Fixpoint clock_ordered (t0 : Z) (calls : list (Z * op)) : Prop :=
  match calls with
  | [] => True
  | (t, _) :: calls' => t0 ≤ t ∧ clock_ordered t calls'
  end.

(** What [get_guest_prices] gives [on_prices]: the decoded body, or an
    exception. *)
Inductive fetch_outcome :=
  | Fetched (data : option V)
  | FetchFailed.

(** The lookup of [on_prices] (and, with another key, [on_countries]):
    [cached = cache.get(key)] at [now]; on [cached is None] the fetch, and
    [cache.set(key, data, ttl)] at [now']. Gives whether the provider was
    called, [data] when the handler goes on, and the cache afterwards. *)
Definition on_prices_lookup (cache_key : string) (ttl now now' : Z)
    (net : fetch_outcome) (c : store) : bool * option (option V) * store :=
  let '(cached, c1) := get cache_key now c in
  match cached with
  | None =>
      match net with
      | FetchFailed => (true, None, c1)
      | Fetched data => (true, Some data, set cache_key data ttl now' c1)
      end
  | Some _ => (false, Some cached, c1)
  end.

End Cache.

(** [cache_key = f"prices:product:{product}"] *)
Definition prices_key (product : string) : string :=
  "prices:product:" +:+ product.

End TTLCache.

(** ** The provider client: [FiveSimClient] *)

Module FiveSim.

Definition BASE_URL : string := "https://5sim.net".

(** A number given as [max_price]: an [int], or a [float] of the type
    [F], which the code only prints. *)
Inductive pynum (F : Type) :=
  | NumInt (z : Z)
  | NumFloat (f : F).
Arguments NumInt {F} z.
Arguments NumFloat {F} f.

(** [ch.isspace()] for an ASCII character: tab, line feed, vertical tab,
    form feed, carriage return (9..13), the four separators 28..31 and the
    blank. *)
Definition is_space (a : Ascii.ascii) : bool :=
  let n := Ascii.nat_of_ascii a in
  ((9 <=? n) && (n <=? 13) || (28 <=? n) && (n <=? 32))%nat.

Fixpoint lstrip (s : string) : string :=
  match s with
  | EmptyString => EmptyString
  | String a s' => if is_space a then lstrip s' else s
  end.

Fixpoint rstrip (s : string) : string :=
  match s with
  | EmptyString => EmptyString
  | String a s' =>
      match rstrip s' with
      | EmptyString => if is_space a then EmptyString else String a EmptyString
      | r => String a r
      end
  end.

(** [s.strip()]; as Python does it on ASCII text, the only text an HTTP
    header carries. *)
Definition strip (s : string) : string := rstrip (lstrip s).

(** Text made of ASCII characters only. *)
Definition ascii_text (s : string) : bool :=
  forallb (λ a, (Ascii.nat_of_ascii a <? 128)%nat) (list_ascii_of_string s).

(** Text made of white space only. *)
Definition all_space (s : string) : bool :=
  forallb is_space (list_ascii_of_string s).

(** Whether a text starts, or ends, with white space. *)
Definition starts_blank (s : string) : bool :=
  match s with
  | EmptyString => false
  | String a _ => is_space a
  end.

Fixpoint ends_blank (s : string) : bool :=
  match s with
  | EmptyString => false
  | String a EmptyString => is_space a
  | String _ s' => ends_blank s'
  end.

Section Client.

(** [J]: decoded JSON documents. [F], [float_str], [parse_float]: Python's
    floats with [str(f)] and [float(txt)] ([None] for [ValueError]). *)
Context {J F : Type}.
Variable float_str : F → string.
Variable parse_float : string → option F.

Definition num_str (n : pynum F) : string :=
  match n with
  | NumInt z => pretty z
  | NumFloat f => float_str f
  end.

(** An [httpx] response: [json] is [None] when [resp.json()] raises. *)
Record HttpResponse := {
  status_code : Z;
  json : option J;
  text : string;
}.

Inductive body :=
  | Json (j : J)
  | Text (s : string).

(** [try: resp.json() except Exception: resp.text] *)
Definition decode (resp : HttpResponse) : body :=
  match json resp with
  | Some j => Json j
  | None => Text (text resp)
  end.

Inductive error :=
  | FiveSimError (message : string) (status : Z) (payload : body)
  | HTTPError (detail : string).

(** What one [await self._client.request(...)] gives: a response, or an
    [httpx.HTTPError]. *)
Inductive outcome :=
  | Responded (resp : HttpResponse)
  | Failed (detail : string).

(** The arguments of [self._client.request]. *)
Record Request := {
  req_method : string;
  req_url : string;
  req_params : option (gmap string string);
  req_json : option J;
  req_headers : gmap string string;
}.

Inductive req_event :=
  | ReqSend (attempt : nat) (req : Request)
  | ReqSleep (millis : Z).

(** How [_request] ends: with a value, with the error of an attempt, with
    the failed [assert], or with the [OverflowError] of the backoff line. *)
Inductive result :=
  | Return (b : body)
  | Raise (e : error)
  | AssertionError
  | OverflowError.

Record Client := {
  _token : option string;
  _retries : Z;
  _default_headers : gmap string string;
}.

(** [FiveSimClient(token=..., retries=...)]: [token.strip() if token else
    None] and [max(0, retries)]; [default_headers] is not passed. *)
Definition new_client (token : option string) (retries : Z) : Client :=
  {| _token := match token with
               | Some t =>
                   if String.eqb t EmptyString then None else Some (strip t)
               | None => None
               end;
     _retries := Z.max 0 retries;
     _default_headers := {["Accept" := "application/json"]} |}.

Definition default_retries : Z := 2.

Definition _auth_headers (c : Client) : gmap string string :=
  match _token c with
  | Some t =>
      if String.eqb t EmptyString then _default_headers c
      else <["Authorization" := "Bearer " +:+ t]> (_default_headers c)
  | None => _default_headers c
  end.

(** [e.status_code and 400 <= e.status_code < 500 and e.status_code != 429] *)
Definition no_retry (status : Z) : bool :=
  negb (status =? 0) && (400 <=? status) && (status <? 500)
    && negb (status =? 429).

(** [min(2.0, 0.5 * (2 ** attempt))] seconds, in milliseconds. The
    product turns the [int] [2 ** attempt] into a [float], which raises
    [OverflowError] from [2 ** 1024] on: [None]. *)
Definition retry_delay (attempt : nat) : option Z :=
  if bool_decide (attempt < 1024)%nat
  then Some (Z.min 2000 (500 * 2 ^ Z.of_nat attempt))
  else None.

(** [f"5SIM {method} {path} failed with status {resp.status_code}"] *)
Definition error_message (method path : string) (status : Z) : string :=
  "5SIM " +:+ method +:+ " " +:+ path +:+ " failed with status "
    +:+ pretty status.

(** The [try] block of one attempt: [inl] leaves [_request] (a return or
    a re-raise), [inr e] falls through with [last_exc = e]. *)
Definition attempt_once (require_ok : bool) (method path : string)
    (o : outcome) : result + error :=
  match o with
  | Responded resp =>
      if require_ok && bool_decide (400 ≤ status_code resp) then
        let e := FiveSimError
                   (error_message method path (status_code resp))
                   (status_code resp) (decode resp) in
        if no_retry (status_code resp) then inl (Raise e) else inr e
      else inl (Return (decode resp))
  | Failed detail => inr (HTTPError detail)
  end.

(** [for attempt in range(self._retries + 1)], with [todo] iterations
    left, followed by [assert last_exc is not None; raise last_exc]. An
    [OverflowError] of the backoff line is caught by nothing and leaves
    [_request], before any sleep. *)
Fixpoint request_loop (net : nat → outcome) (retries : Z)
    (require_ok : bool) (req : Request) (path : string)
    (todo attempt : nat) (last_exc : option error)
  : result * list req_event :=
  match todo with
  | O =>
      (match last_exc with
       | Some e => Raise e
       | None => AssertionError
       end, [])
  | S todo' =>
      match attempt_once require_ok (req_method req) path (net attempt) with
      | inl res => (res, [ReqSend attempt req])
      | inr e =>
          let pause :=
            if bool_decide (Z.of_nat attempt < retries)
            then (λ millis, [ReqSleep millis]) <$> retry_delay attempt
            else Some [] in
          match pause with
          | Some slept =>
              let '(res, evs) :=
                request_loop net retries require_ok req path todo' (S attempt)
                  (Some e) in
              (res, ReqSend attempt req :: slept ++ evs)
          | None => (OverflowError, [ReqSend attempt req])
          end
      end
  end.

(** [_request(method, path, params=..., json_body=..., require_ok=...)]
    against the attempt-indexed answers [net]; [headers] is never passed. *)
Definition _request (c : Client) (net : nat → outcome) (method path : string)
    (params : option (gmap string string)) (json_body : option J)
    (require_ok : bool) : result * list req_event :=
  let req := {| req_method := method; req_url := BASE_URL +:+ path;
                req_params := params; req_json := json_body;
                req_headers := _auth_headers c |} in
  request_loop net (_retries c) require_ok req path
    (Z.to_nat (_retries c + 1)) 0 None.

(** An argument that is [None] or a [str], as printed by an f-string. *)
Definition fmt (o : option string) : string := default "None" o.

(** [d[k] = v] when [o] is [Some v], as in [if x is not None: d[k] = ...]. *)
Definition put_opt (k : string) (o : option string)
    (d : gmap string string) : gmap string string :=
  match o with
  | Some v => <[k := v]> d
  | None => d
  end.

Definition buy_activation_params (forwarding : option Z)
    (number : option string) (reuse voice : option Z) (ref : option string)
    (max_price : option (pynum F)) : gmap string string :=
  put_opt "maxPrice" (num_str <$> max_price)
    (put_opt "ref" ref
       (put_opt "voice" (pretty <$> voice)
          (put_opt "reuse" (pretty <$> reuse)
             (put_opt "number" number
                (put_opt "forwarding" (pretty <$> forwarding) ∅))))).

(** [buy_activation(country=..., operator=..., product=..., ...)] *)
Definition buy_activation (c : Client) (net : nat → outcome)
    (country operator product : option string) (forwarding : option Z)
    (number : option string) (reuse voice : option Z) (ref : option string)
    (max_price : option (pynum F)) : result * list req_event :=
  let path := "/v1/user/buy/activation/" +:+ fmt country +:+ "/"
                +:+ fmt operator +:+ "/" +:+ fmt product in
  _request c net "GET" path
    (Some (buy_activation_params forwarding number reuse voice ref max_price))
    None true.

(** [order_check(order_id=...)] *)
Definition order_check (c : Client) (net : nat → outcome) (order_id : string)
  : result * list req_event :=
  _request c net "GET" ("/v1/user/check/" +:+ order_id) None None true.

(** The purchase made by the handler [buy_maxprice] of [app/main.py]:
    [txt] is the stripped, lower-cased message text and [data] the FSM
    data. [None] when the handler answers "Invalid number" and returns
    before any call. *)
Definition buy_maxprice (c : Client) (net : nat → outcome) (txt : string)
    (data : gmap string string) : option (result * list req_event) :=
  let parsed : option (option (pynum F)) :=
    if bool_decide (txt ∈ ([EmptyString; "skip"; "none"]%string : list string))
    then Some None
    else (λ f, Some (NumFloat f)) <$> parse_float txt in
  match parsed with
  | None => None
  | Some max_price =>
      let product := data !! "product" in
      let country := data !! "country" in
      let operator := data !! "operator" in
      Some (buy_activation c net country operator product None None None None
              None
              (if bool_decide (operator = Some "any") then max_price else None))
  end.

End Client.

(** The requests of a trace, in order. *)
Fixpoint requests {J : Type} (evs : list (@req_event J)) : list (@Request J) :=
  match evs with
  | [] => []
  | ReqSend _ req :: evs' => req :: requests evs'
  | ReqSleep _ :: evs' => requests evs'
  end.

(** Whether a request carries the query parameter [name]. *)
Definition has_param {J : Type} (name : string) (req : @Request J) : bool :=
  match req_params req with
  | Some d => bool_decide (is_Some (d !! name))
  | None => false
  end.

(** Number of HTTP attempts in a trace. *)
Definition attempts_made {J : Type} (evs : list (@req_event J)) : nat :=
  length (requests evs).

(** An attempt that ends in a network-level failure or in a 429. *)
Definition transient {J : Type} (o : @outcome J) : bool :=
  match o with
  | Failed _ => true
  | Responded resp => status_code resp =? 429
  end.

(** A response with a status in 400..499 other than 429. *)
Definition client_error {J : Type} (resp : @HttpResponse J) : bool :=
  (400 <=? status_code resp) && (status_code resp <? 500)
    && negb (status_code resp =? 429).

(** *** Instances for closed examples *)

(** Calls that pass [int]s only need no floats. *)
Definition no_float_str (f : Empty_set) : string := match f with end.

(** A reader that knows the one input of the example, [float("5")], and
    prints it back as Python does. *)
Definition example_parse_float (txt : string) : option unit :=
  if String.eqb txt "5" then Some tt else None.

Definition example_float_str (f : unit) : string := "5.0".

(** An answer to every attempt: 200 with an undecodable empty body. *)
Definition always_ok (attempt : nat) : @outcome unit :=
  Responded {| status_code := 200; json := None; text := EmptyString |}.

(** Two rate-limited attempts, then a 404. *)
Definition limited_then_missing (attempt : nat) : @outcome unit :=
  if bool_decide (attempt < 2)%nat
  then Responded {| status_code := 429; json := None; text := "slow down" |}
  else Responded {| status_code := 404; json := None; text := "not found" |}.

(** The network staying down. *)
Definition always_down (attempt : nat) : @outcome unit := Failed "timeout".

(** The provider rate-limiting every attempt. *)
Definition always_limited (attempt : nat) : @outcome unit :=
  Responded {| status_code := 429; json := None; text := "slow down" |}.

(** *** More ways to read a request *)

(** An attempt after which [_request] with [require_ok=True] goes on: a
    network-level failure, a 429, or a status of 500 and above. *)
Definition retryable {J : Type} (o : @outcome J) : bool :=
  match o with
  | Failed _ => true
  | Responded resp => (status_code resp =? 429) || (500 <=? status_code resp)
  end.

(** The pauses of a trace, in order, in milliseconds. *)
Fixpoint pauses {J : Type} (evs : list (@req_event J)) : list Z :=
  match evs with
  | [] => []
  | ReqSleep ms :: evs' => ms :: pauses evs'
  | ReqSend _ _ :: evs' => pauses evs'
  end.

(** Two server errors, then a page. *)
Definition errors_then_ok (attempt : nat) : @outcome unit :=
  if bool_decide (attempt < 2)%nat
  then Responded {| status_code := 503; json := None; text := "busy" |}
  else Responded {| status_code := 200; json := Some tt; text := "{}" |}.

End FiveSim.

(** ** The inbound webhook: [telegram_webhook] *)

Module Webhook.

Section Handler.

(** [J]: decoded request bodies; [U]: validated updates.
    [model_validate] is [Update.model_validate], [None] when it raises. *)
Context {J U : Type}.
Variable model_validate : J → option U.

(** The module globals the handler reads: the stripped
    [TELEGRAM_WEBHOOK_SECRET], and whether [app.state.bot] is set. *)
Record Config := {
  WEBHOOK_SECRET : string;
  bot_initialized : bool;
}.

(** A delivery: the [X-Telegram-Bot-Api-Secret-Token] header, and the
    body, [None] when [request.json()] raises. *)
Record Delivery := {
  x_telegram_bot_api_secret_token : option string;
  body : option J;
}.

Inductive answer :=
  | HTTPException (status_code : Z) (detail : string)
  | JSONResponse_ok.

(** The answer, and the update passed to [dp.feed_update], if any; an
    exception of [feed_update] is logged and does not change the answer. *)
Definition telegram_webhook (cfg : Config) (d : Delivery)
  : answer * option U :=
  if negb (String.eqb (WEBHOOK_SECRET cfg) EmptyString)
     && negb (bool_decide
                (x_telegram_bot_api_secret_token d = Some (WEBHOOK_SECRET cfg)))
  then (HTTPException 401 "invalid webhook secret", None)
  else if negb (bot_initialized cfg)
  then (HTTPException 503 "bot not initialized", None)
  else
    match body d with
    | None => (HTTPException 400 "invalid JSON", None)
    | Some data =>
        match model_validate data with
        | None => (HTTPException 422 "invalid update", None)
        | Some update => (JSONResponse_ok, Some update)
        end
    end.

End Handler.

End Webhook.

(** ** The order buttons: [_order_keyboard] and [on_order_action] *)

Module OrderButtons.
Import Watcher.

(** The character [":"]. *)
Definition colon : Ascii.ascii := Ascii.ascii_of_nat 58.

(** [s.split(":")] *)
Fixpoint split_colon (s : string) : list string :=
  match s with
  | EmptyString => [EmptyString]
  | String c s' =>
      if Ascii.eqb c colon then EmptyString :: split_colon s'
      else
        match split_colon s' with
        | part :: parts => String c part :: parts
        | [] => [String c EmptyString]
        end
  end.

(** [":" in s] *)
Fixpoint has_colon (s : string) : bool :=
  match s with
  | EmptyString => false
  | String c s' => Ascii.eqb c colon || has_colon s'
  end.

(** The buttons as rows of (text, callback data); [kb.adjust(2, 2)] puts
    two in each row. *)
Definition _order_keyboard (order_id : string)
  : list (list (string * string)) :=
  [ [ ("Check", "order:check:" +:+ order_id);
      ("Finish", "order:finish:" +:+ order_id) ];
    [ ("Cancel", "order:cancel:" +:+ order_id);
      ("Ban", "order:ban:" +:+ order_id) ] ]%string.

(** The filter of the handler: [F.data.startswith("order:")]. *)
Definition handles (data : string) : bool := starts_with "order:" data.

Inductive routed :=
  | InvalidAction                          (* "Invalid action." *)
  | UnknownAction                          (* "Unknown action." *)
  | OrderCall (path : string).             (* the client call, by its path *)

(** Where [on_order_action] goes with the callback data. *)
Definition on_order_action (data : string) : routed :=
  match split_colon data with
  | [_; action; order_id] =>
      if String.eqb action "check"
      then OrderCall ("/v1/user/check/" +:+ order_id)
      else if String.eqb action "finish"
      then OrderCall ("/v1/user/finish/" +:+ order_id)
      else if String.eqb action "cancel"
      then OrderCall ("/v1/user/cancel/" +:+ order_id)
      else if String.eqb action "ban"
      then OrderCall ("/v1/user/ban/" +:+ order_id)
      else UnknownAction
  | _ => InvalidAction
  end.

(** The path each button of the keyboard stands for. *)
Definition button_path (text order_id : string) : string :=
  (if String.eqb text "Check" then "/v1/user/check/"
   else if String.eqb text "Finish" then "/v1/user/finish/"
   else if String.eqb text "Cancel" then "/v1/user/cancel/"
   else "/v1/user/ban/") +:+ order_id.

Definition newline : string := String (Ascii.ascii_of_nat 10) EmptyString.

(** [[s.get("code") for s in sms if s.get("code")]] handed to
    [", ".join]: [None] when an item is not a [str] and [join] raises
    [TypeError]. *)
Fixpoint code_items (sms : list Sms) : option (list string) :=
  match sms with
  | [] => Some []
  | s :: rest =>
      if truthy (sms_code s) then
        match sms_code s, code_items rest with
        | PyStr c, Some items => Some (c :: items)
        | _, _ => None
        end
      else code_items rest
  end.

(** [codes] of the "check" action, with [sms = data.get("sms") or []]. *)
Definition check_codes (sms : option (list Sms)) : option string :=
  match default [] sms with
  | [] => Some "-"%string
  | l => join ", " <$> code_items l
  end.

(** What the "check" action answers once [order_check] has returned
    [data]; a [TypeError] of [join] ends in the [except Exception]
    branch. *)
Definition check_answer (status phone : pyval) (sms : option (list Sms))
  : string :=
  match check_codes sms with
  | Some codes =>
      _format_text ("Status: " +:+ py_str status +:+ newline
                      +:+ "Phone: " +:+ py_str phone +:+ newline
                      +:+ "Codes: " +:+ codes)
  | None => "Network error. Please try again later."
  end.

End OrderButtons.

(** ** The purchase conversation: [on_buy] and the [BuyStates] handlers *)

Module BuyFlow.

Inductive BuyStates :=
  | wait_product
  | wait_country
  | wait_operator
  | wait_maxprice.

(** The FSM context of one chat: its state and its data. *)
Record FSMContext := {
  state : option BuyStates;
  data : gmap string string;
}.

Definition fresh : FSMContext := {| state := None; data := ∅ |}.

(** [await state.clear()] *)
Definition clear (ctx : FSMContext) : FSMContext := fresh.

Section Handlers.

(** [lower] is [str.lower]; [normalize] takes a message to its text,
    stripped and lower-cased, and to the empty string when it has none.
    [J], [F], [float_str], [parse_float] are those of the client. *)
Context {J F : Type}.
Variable lower : string → string.
Variable normalize : option string → string.
Variable float_str : F → string.
Variable parse_float : string → option F.

(** The local [data] of [on_buy], from the words after the command. *)
Definition buy_args (args : list string) : gmap string string :=
  let d0 : gmap string string := ∅ in
  let d1 := match args !! 0%nat with
            | Some a => <["product" := lower a]> d0
            | None => d0
            end in
  let d2 := match args !! 1%nat with
            | Some a => <["country" := lower a]> d1
            | None => d1
            end in
  match args !! 2%nat with
  | Some a => <["operator" := lower a]> d2
  | None => d2
  end.

(** [on_buy]: the answer and the context afterwards. [token] is
    [FIVESIM_TOKEN]; [state.update_data] lays the new entries over the
    stored ones. *)
Definition on_buy (token : option string) (args : list string)
    (ctx : FSMContext) : string * FSMContext :=
  if match token with
     | Some t => String.eqb t EmptyString
     | None => true
     end
  then ("5SIM token is not configured. Purchase is unavailable."%string, ctx)
  else
    let d := buy_args args in
    let stored := d ∪ data ctx in
    if bool_decide (d !! "product" = None) then
      ("Enter product name (e.g., telegram):"%string,
       {| state := Some wait_product; data := stored |})
    else if bool_decide (d !! "country" = None) then
      ("Enter country (use key from /countries or 'any'):"%string,
       {| state := Some wait_country; data := stored |})
    else if bool_decide (d !! "operator" = None) then
      ("Enter operator (e.g., beeline) or 'any':"%string,
       {| state := Some wait_operator; data := stored |})
    else
      ("Enter max price (number) or type 'skip':"%string,
       {| state := Some wait_maxprice; data := stored |}).

Definition buy_product (text : option string) (ctx : FSMContext)
  : string * FSMContext :=
  ("Enter country (use key from /countries or 'any'):"%string,
   {| state := Some wait_country;
      data := <["product" := normalize text]> (data ctx) |}).

Definition buy_country (text : option string) (ctx : FSMContext)
  : string * FSMContext :=
  ("Enter operator (e.g., beeline) or 'any':"%string,
   {| state := Some wait_operator;
      data := <["country" := normalize text]> (data ctx) |}).

Definition buy_operator (text : option string) (ctx : FSMContext)
  : string * FSMContext :=
  ("Enter max price (number) or type 'skip':"%string,
   {| state := Some wait_maxprice;
      data := <["operator" := normalize text]> (data ctx) |}).

(** What a handler did besides answering: nothing, or the purchase, with
    the FSM data it was made from and what the client call gave. *)
Inductive effect :=
  | NoCall
  | Purchase (made_from : gmap string string)
      (out : @FiveSim.result J * list (@FiveSim.req_event J)).

(** [buy_maxprice], up to the purchase: on a text that is no number the
    handler answers and returns, leaving the context alone; otherwise it
    reads the data, clears the context and calls the client. *)
Definition buy_maxprice (c : @FiveSim.Client) (net : nat → @FiveSim.outcome J)
    (text : option string) (ctx : FSMContext) : effect * FSMContext :=
  match FiveSim.buy_maxprice float_str parse_float c net (normalize text)
          (data ctx) with
  | None => (NoCall, ctx)
  | Some out => (Purchase (data ctx) out, clear ctx)
  end.

(** An incoming message, by the first handler whose filter lets it in:
    the handlers are registered commands first, so [/buy] reaches [on_buy]
    in any state, the other commands never touch the context, and any
    other message goes to the handler of the current state, if there is
    one. *)
Inductive update :=
  | CmdBuy (args : list string)
  | CmdOther
  | Message (text : option string).

(** The network, as each purchase meets it. *)
Definition dispatch (token : option string) (c : @FiveSim.Client)
    (net : nat → @FiveSim.outcome J) (u : update) (ctx : FSMContext)
  : effect * FSMContext :=
  match u with
  | CmdBuy args => (NoCall, (on_buy token args ctx).2)
  | CmdOther => (NoCall, ctx)
  | Message text =>
      match state ctx with
      | Some wait_product => (NoCall, (buy_product text ctx).2)
      | Some wait_country => (NoCall, (buy_country text ctx).2)
      | Some wait_operator => (NoCall, (buy_operator text ctx).2)
      | Some wait_maxprice => buy_maxprice c net text ctx
      | None => (NoCall, ctx)
      end
  end.

(** A conversation: the effects of its messages, in order, and the
    context at the end. *)
Fixpoint converse (token : option string) (c : @FiveSim.Client)
    (net : nat → @FiveSim.outcome J) (us : list update) (ctx : FSMContext)
  : list effect * FSMContext :=
  match us with
  | [] => ([], ctx)
  | u :: us' =>
      let '(e, ctx') := dispatch token c net u ctx in
      let '(es, ctx'') := converse token c net us' ctx' in
      (e :: es, ctx'')
  end.

End Handlers.

(** What the data of a state must hold for the purchase to have all of
    product, country and operator when it comes. *)
Definition ready (ctx : FSMContext) : Prop :=
  match state ctx with
  | None | Some wait_product => True
  | Some wait_country => is_Some (data ctx !! "product")
  | Some wait_operator =>
      is_Some (data ctx !! "product") ∧ is_Some (data ctx !! "country")
  | Some wait_maxprice =>
      is_Some (data ctx !! "product") ∧ is_Some (data ctx !! "country")
      ∧ is_Some (data ctx !! "operator")
  end.

(** A purchase is made from data that hold the three choices, and all
    its requests go to the path made of them. *)
Definition well_addressed {J : Type} (e : @effect J) : Prop :=
  match e with
  | NoCall => True
  | Purchase d out =>
      ∃ country operator product,
        d !! "country" = Some country ∧ d !! "operator" = Some operator
        ∧ d !! "product" = Some product
        ∧ Forall (λ r, FiveSim.req_url r
                         = "https://5sim.net/v1/user/buy/activation/"
                             +:+ country +:+ "/" +:+ operator +:+ "/"
                             +:+ product)
            (FiveSim.requests out.2)
  end.

End BuyFlow.

(** ** The client's transport: who closes it *)

Module ClientLifetime.

(** The fields of [FiveSimClient] that hold its [httpx.AsyncClient]; such
    objects are told apart by a number. *)
Record Transport := {
  _client : option nat;
  _owns_client : bool;
}.

Inductive event :=
  | Created (h : nat)    (* httpx.AsyncClient(...) *)
  | Closed (h : nat).    (* await self._client.aclose(), returning or not *)

(** [FiveSimClient(client=...)] *)
Definition __init__ (client : option nat) : Transport :=
  {| _client := client; _owns_client := bool_decide (client = None) |}.

(** [__aenter__]; [new] names the object a creation would give. *)
Definition __aenter__ (new : nat) (t : Transport) : Transport * list event :=
  match _client t with
  | None => ({| _client := Some new; _owns_client := _owns_client t |},
             [Created new])
  | Some _ => (t, [])
  end.

(** The first lines of [_request]: the lazy creation. *)
Definition _request_client (new : nat) (t : Transport)
  : Transport * list event :=
  match _client t with
  | None => ({| _client := Some new; _owns_client := true |}, [Created new])
  | Some _ => (t, [])
  end.

(** [aclose], and with it [__aexit__]; the field is reset in [finally],
    whether closing raised or not. *)
Definition aclose (t : Transport) : Transport * list event :=
  match _client t with
  | Some h =>
      if _owns_client t
      then ({| _client := None; _owns_client := _owns_client t |}, [Closed h])
      else (t, [])
  | None => (t, [])
  end.

Inductive op :=
  | Enter (new : nat)
  | Request (new : nat)
  | Close.

Definition apply (o : op) (t : Transport) : Transport * list event :=
  match o with
  | Enter new => __aenter__ new t
  | Request new => _request_client new t
  | Close => aclose t
  end.

(** A life of the client: the calls made on it, one after another. *)
Fixpoint life (ops : list op) (t : Transport) : Transport * list event :=
  match ops with
  | [] => (t, [])
  | o :: ops' =>
      let '(t', evs) := apply o t in
      let '(t'', evs') := life ops' t' in
      (t'', evs ++ evs')
  end.

(** Reading a trace from the object open at its start: the object open
    at its end; [None] when the trace creates one while another is open,
    or closes one that is not the open one. *)
Fixpoint open_after (cur : option nat) (evs : list event)
  : option (option nat) :=
  match evs with
  | [] => Some cur
  | Created h :: evs' =>
      match cur with
      | None => open_after (Some h) evs'
      | Some _ => None
      end
  | Closed h :: evs' =>
      if bool_decide (cur = Some h) then open_after None evs' else None
  end.

End ClientLifetime.

(** ** The price listing: [_flatten_product_prices] *)

Module Listing.

(** A decoded JSON value, as far as the function looks at it: an object,
    with its entries in order, or anything else. Python's dicts have no
    repeated key. *)
Inductive json (A : Type) :=
  | JAtom (a : A)
  | JDict (d : list (string * json A)).
Arguments JAtom {A} a.
Arguments JDict {A} d.

(** [d.get(k)] *)
Fixpoint get {A : Type} (k : string) (d : list (string * json A))
  : option (json A) :=
  match d with
  | [] => None
  | (k', v) :: d' => if String.eqb k k' then Some v else get k d'
  end.

(** [k in d] *)
Definition has_key {A : Type} (k : string) (d : list (string * json A))
  : bool :=
  bool_decide (is_Some (get k d)).

(** [isinstance(v, dict) and ("cost" in v or "count" in v)] *)
Definition priced {A : Type} (v : json A) : bool :=
  match v with
  | JDict d => has_key "cost" d || has_key "count" d
  | JAtom _ => false
  end.

(** Running [f] over a list and joining the rows, [None] as soon as one
    call raises. *)
Fixpoint collect {X R : Type} (f : X → option (list R)) (l : list X)
  : option (list R) :=
  match l with
  | [] => Some []
  | x :: l' =>
      match f x, collect f l' with
      | Some rows, Some rows' => Some (rows ++ rows')
      | _, _ => None
      end
  end.

Section Flatten.

(** [A]: the values that are no objects; [zero] is the [int] 0 among them.
    [C]: costs, Python floats. [float_or_0 v] is [float(v or 0)] and
    [int_or_0 v] is [int(v or 0)], [None] when the conversion raises. *)
Context {A C : Type}.
Variable zero : A.
Variable float_or_0 : json A → option C.
Variable int_or_0 : json A → option Z.

Definition row : Type := string * string * C * Z.

(** The body shared by the two shapes: the row of one operator entry, if
    it is an object with a cost or a count. *)
Definition operator_rows (country : string) (entry : string * json A)
  : option (list row) :=
  match entry with
  | (operator, JDict info) =>
      if has_key "cost" info || has_key "count" info then
        match float_or_0 (default (JAtom zero) (get "cost" info)),
              int_or_0 (default (JAtom zero) (get "count" info)) with
        | Some cost, Some count => Some [(country, operator, cost, count)]
        | _, _ => None
        end
      else Some []
  | (_, JAtom _) => Some []
  end.

(** The rows of one entry of [data]. *)
Definition country_rows (entry : string * json A) : option (list row) :=
  match entry with
  | (country, JDict level1) =>
      if existsb priced level1.*2 then
        (* case A: operator -> {cost, count, rate} *)
        collect (operator_rows country) level1
      else
        (* case B: product -> operator -> {...} *)
        collect (λ '(_, operators),
                   match operators with
                   | JDict ops => collect (operator_rows country) ops
                   | JAtom _ => Some []
                   end) level1
  | (_, JAtom _) => Some []
  end.

(** [_flatten_product_prices(data)]; [None] when it raises, as it does at
    [data.items()] for a [data] that is no object. *)
Definition _flatten_product_prices (data : json A) : option (list row) :=
  match data with
  | JDict countries => collect country_rows countries
  | JAtom _ => None
  end.

(** *** The two shapes of the provider's answer *)

(** An offer: [{"cost": ..., "count": ..., ...}]. *)
Definition offer (cost count : json A) (more : list (string * json A))
  : json A :=
  JDict (("cost"%string, cost) :: ("count"%string, count) :: more).

Definition offers := list (string * (json A * json A * list (string * json A))).

Definition operators_object (ops : offers) : json A :=
  JDict ((λ '(operator, (cost, count, more)),
            (operator, offer cost count more)) <$> ops).

(** country -> operator -> offer *)
Definition flat_prices (t : list (string * offers)) : json A :=
  JDict ((λ '(country, ops), (country, operators_object ops)) <$> t).

(** country -> product -> operator -> offer *)
Definition nested_prices (t : list (string * list (string * offers)))
  : json A :=
  JDict ((λ '(country, products),
            (country,
             JDict ((λ '(product, ops), (product, operators_object ops))
                      <$> products))) <$> t).

(** The rows the offers of a country stand for, in order. *)
Definition quoted (country : string) (ops : offers) : option (list row) :=
  collect (λ '(operator, (cost, count, _)),
             match float_or_0 cost, int_or_0 count with
             | Some c, Some n => Some [(country, operator, c, n)]
             | _, _ => None
             end) ops.

End Flatten.

(** *** An instance for closed examples: all values are [int]s *)

(** [float(v or 0)] and [int(v or 0)] on [int]s and objects: the empty
    object is falsy, any other makes the conversion raise. *)
Definition int_value (v : json Z) : option Z :=
  match v with
  | JAtom z => Some z
  | JDict [] => Some 0
  | JDict (_ :: _) => None
  end.

End Listing.

(** * Properties *)

(** ** Reading messages *)

Lemma status_message_is_status status :
  Watcher.is_status_text (Watcher.status_message status) = true.
Proof. reflexivity. Qed.

Lemma status_message_not_codes status :
  Watcher.is_codes_text (Watcher.status_message status) = false.
Proof. reflexivity. Qed.

Lemma codes_message_is_codes codes :
  Watcher.is_codes_text (Watcher.codes_message codes) = true.
Proof. reflexivity. Qed.

Lemma codes_message_not_status codes :
  Watcher.is_status_text (Watcher.codes_message codes) = false.
Proof. reflexivity. Qed.

(** ** The watcher *)

Module WatcherProofs.
Import Watcher.

Section Scan.

Variable py_hash : pyval → pyval → Z.

Local Abbreviation sid := (sms_sid py_hash).
Local Abbreviation scan := (scan_sms py_hash).
Local Abbreviation tagged := (scan_tagged py_hash).

(** The ghost list carries exactly the codes of [new_codes]. *)
Lemma scan_tagged_erase seen l : (scan seen l).2 = (tagged seen l).*2.
Proof.
  revert seen. induction l as [|s l IH]; intros seen; simpl; [done|].
  case_decide; [apply IH|].
  specialize (IH ({[sid s]} ∪ seen)).
  destruct (scan _ l) as [seen' codes]. simpl in *.
  rewrite fmap_app, <- IH. by destruct (truthy (sms_code s)).
Qed.

(** [seen_sms_ids] after the loop: what was there plus every [sid] met. *)
Lemma scan_seen seen l :
  (scan seen l).1 = seen ∪ list_to_set (sid <$> l).
Proof.
  revert seen. induction l as [|s l IH]; intros seen; simpl.
  - set_solver.
  - case_decide.
    + rewrite IH. set_solver.
    + specialize (IH ({[sid s]} ∪ seen)).
      destruct (scan _ l) as [seen' codes]. simpl in *. set_solver.
Qed.

Lemma scan_tagged_fresh seen l k :
  k ∈ (tagged seen l).*1 → k ∉ seen ∧ k ∈ (sid <$> l).
Proof.
  revert seen. induction l as [|s l IH]; intros seen; simpl.
  - by intros ?%elem_of_nil.
  - case_decide as Hin.
    + intros [? ?]%IH. split; [done|]. by apply elem_of_cons; right.
    + rewrite fmap_app, elem_of_app. intros [Hk|Hk].
      * destruct (truthy (sms_code s)); simpl in Hk;
          [|by apply elem_of_nil in Hk].
        apply list_elem_of_singleton in Hk as ->.
        split; [done|]. by apply elem_of_cons; left.
      * apply IH in Hk as [Hk ?]. split; [set_solver|].
        by apply elem_of_cons; right.
Qed.

(** Entries whose [sid] is already in [seen_sms_ids] change nothing. *)
Lemma scan_without seen l k :
  k ∈ seen →
  scan seen (List.filter (λ s, bool_decide (sid s ≠ k)) l) = scan seen l.
Proof.
  revert seen. induction l as [|s l IH]; intros seen Hk; simpl; [done|].
  case_bool_decide as Hs; simpl.
  - case_decide; [by apply IH|]. rewrite IH by set_solver. done.
  - rewrite Hs, decide_True by done. by apply IH.
Qed.

Lemma scan_tagged_NoDup seen l : NoDup (tagged seen l).*1.
Proof.
  revert seen. induction l as [|s l IH]; intros seen; simpl.
  - constructor.
  - case_decide; [apply IH|].
    rewrite fmap_app. apply NoDup_app. split_and!; [| |apply IH].
    + destruct (truthy (sms_code s)); simpl; [apply NoDup_singleton|constructor].
    + intros k Hk Hk'. apply scan_tagged_fresh in Hk' as [Hk' _].
      destruct (truthy (sms_code s)); simpl in Hk;
        [|by apply elem_of_nil in Hk].
      apply list_elem_of_singleton in Hk as ->. set_solver.
Qed.

Lemma scan_tagged_app seen l1 l2 :
  tagged seen (l1 ++ l2) = tagged seen l1 ++ tagged (scan seen l1).1 l2.
Proof.
  revert seen. induction l1 as [|s l1 IH]; intros seen; simpl; [done|].
  case_decide; [apply IH|].
  rewrite IH, <- app_assoc. destruct (scan _ l1); done.
Qed.

End Scan.

Section Run.

Variable py_hash : pyval → pyval → Z.

Local Abbreviation sid := (sms_sid py_hash).
Local Abbreviation scan := (scan_sms py_hash).
Local Abbreviation tagged := (scan_tagged py_hash).
Local Abbreviation iter := (iteration py_hash).
Local Abbreviation run := (poll_loop py_hash).

(** *** One iteration, field by field *)

Lemma iteration_Some st data :
  let status := py_str (resp_status data) in
  let sc := scan (seen_sms_ids st) (default [] (resp_sms data)) in
  let stop := is_terminal status in
  iter st (Some data) =
    ({| backoff := if stop then backoff st else advance (backoff st);
        seen_sms_ids := sc.1;
        last_status := Some status |},
     EvPoll true :: codes_events sc.2 ++ status_events (last_status st) status
       ++ (if stop then [] else [EvSleep (next_delay (backoff st))]),
     stop).
Proof.
  intros status sc stop. unfold iteration.
  fold status. fold sc. fold stop. destruct sc as [seen codes]. simpl.
  assert ((if bool_decide (Some status ≠ last_status st)
           then Some status else last_status st) = Some status) as ->.
  { by case_bool_decide. }
  destruct stop; [rewrite app_nil_r|]; done.
Qed.

Lemma watch_cons st p rest :
  run st (p :: rest) =
    let it := iter st p in
    if it.2 then
      {| trace := it.1.2; finished := true; unread := rest; final := it.1.1 |}
    else
      let r := run it.1.1 rest in
      {| trace := it.1.2 ++ trace r; finished := finished r;
         unread := unread r; final := final r |}.
Proof. simpl. by destruct (iter st p) as [[st' evs] []]. Qed.

Lemma iteration_seen_mono st p :
  seen_sms_ids st ⊆ seen_sms_ids (iter st p).1.1.
Proof.
  destruct p as [data|]; [|done].
  rewrite iteration_Some. simpl. rewrite scan_seen. set_solver.
Qed.

(** *** Reading a trace piecewise *)

Lemma sent_app tr1 tr2 : sent (tr1 ++ tr2) = sent tr1 ++ sent tr2.
Proof.
  induction tr1 as [|[] tr1 IH]; simpl; [done|done| |done]. by rewrite IH.
Qed.

Lemma polls_made_app tr1 tr2 :
  polls_made (tr1 ++ tr2) = (polls_made tr1 + polls_made tr2)%nat.
Proof.
  induction tr1 as [|[] tr1 IH]; simpl; [done| |done|done]. by rewrite IH.
Qed.

Lemma polls_ok_app tr1 tr2 :
  polls_ok (tr1 ++ tr2) = (polls_ok tr1 + polls_ok tr2)%nat.
Proof.
  induction tr1 as [|[[]| |] tr1 IH]; simpl; try done. by rewrite IH.
Qed.

Lemma sent_events st data :
  sent (iter st (Some data)).1.2 =
    sent (codes_events
            (scan (seen_sms_ids st) (default [] (resp_sms data))).2)
      ++ sent (status_events (last_status st) (py_str (resp_status data))).
Proof.
  rewrite iteration_Some. simpl. rewrite !sent_app.
  destruct (is_terminal _); simpl; by rewrite app_nil_r.
Qed.

(** *** Dedup *)

Lemma code_batches_cons st p rest :
  code_batches py_hash st (p :: rest) =
    batch_of py_hash st p
      :: (if (iter st p).2 then [] else code_batches py_hash (iter st p).1.1 rest).
Proof. simpl. by destruct (iter st p) as [[st' evs] stop]. Qed.

Lemma notified_cons st p rest :
  notified py_hash st (p :: rest) =
    batch_of py_hash st p
      ++ (if (iter st p).2 then [] else notified py_hash (iter st p).1.1 rest).
Proof.
  unfold notified. rewrite code_batches_cons. simpl.
  by destruct ((iter st p).2).
Qed.

Lemma batch_of_keys st p k :
  k ∈ (batch_of py_hash st p).*1 →
  k ∉ seen_sms_ids st ∧ k ∈ seen_sms_ids (iter st p).1.1.
Proof.
  destruct p as [data|]; [|by intros ?%elem_of_nil].
  rewrite iteration_Some. simpl.
  intros [Hk Hin]%scan_tagged_fresh. split; [done|]. rewrite scan_seen.
  apply elem_of_union_r, elem_of_list_to_set, Hin.
Qed.

Lemma notified_fresh st polls k :
  k ∈ (notified py_hash st polls).*1 → k ∉ seen_sms_ids st.
Proof.
  revert st. induction polls as [|p rest IH]; intros st.
  - by intros ?%elem_of_nil.
  - rewrite notified_cons, fmap_app, elem_of_app. intros [Hk|Hk].
    + by apply batch_of_keys in Hk as [? _].
    + destruct ((iter st p).2); [by apply elem_of_nil in Hk|].
      apply IH in Hk. intros Hin. apply Hk. by apply iteration_seen_mono.
Qed.

Lemma notified_NoDup st polls : NoDup (notified py_hash st polls).*1.
Proof.
  revert st. induction polls as [|p rest IH]; intros st.
  - constructor.
  - rewrite notified_cons, fmap_app. apply NoDup_app. split_and!.
    + destruct p as [data|]; simpl; [apply scan_tagged_NoDup|constructor].
    + intros k [_ Hk]%batch_of_keys Hk'.
      destruct ((iter st p).2); [by apply elem_of_nil in Hk'|].
      by apply notified_fresh in Hk'.
    + destruct ((iter st p).2); [constructor|apply IH].
Qed.

(** The messages with codes are the non-empty batches, one message each. *)
Lemma code_notifications_batches st polls :
  code_notifications (trace (run st polls)) =
    (λ b, codes_message (b.*2)) <$> filter (λ b, b ≠ []) (code_batches py_hash st polls).
Proof.
  revert st. induction polls as [|p rest IH]; intros st; [done|].
  rewrite watch_cons, code_batches_cons. cbv zeta.
  assert (code_notifications (iter st p).1.2 =
            (λ b, codes_message (b.*2)) <$> filter (λ b, b ≠ []) [batch_of py_hash st p])
    as Hhead.
  { destruct p as [data|]; [|done].
    unfold code_notifications. rewrite sent_events. simpl.
    rewrite scan_tagged_erase.
    destruct (tagged _ _) as [|kc b] eqn:Hb;
      unfold status_events; by case_bool_decide. }
  rewrite (filter_cons (λ b, b ≠ [])). rewrite filter_cons, filter_nil in Hhead.
  destruct ((iter st p).2); simpl.
  - rewrite Hhead, filter_nil. by case_decide.
  - unfold code_notifications in *. rewrite sent_app, List.filter_app, Hhead, IH.
    case_decide; simpl; done.
Qed.

(** *** Status changes *)

Lemma unread_length st polls :
  (length (unread (run st polls)) ≤ length polls)%nat.
Proof.
  revert st. induction polls as [|p rest IH]; intros st; [done|].
  rewrite watch_cons. cbv zeta. destruct ((iter st p).2); simpl; [lia|].
  specialize (IH (iter st p).1.1). lia.
Qed.

Lemma consumed_cons st p rest :
  consumed (p :: rest) (run st (p :: rest)) =
    p :: (if (iter st p).2 then []
          else consumed rest (run (iter st p).1.1 rest)).
Proof.
  unfold consumed. rewrite watch_cons. cbv zeta.
  destruct ((iter st p).2); simpl.
  - replace (S (length rest) - length rest)%nat with 1%nat by lia.
    simpl. by rewrite take_0.
  - pose proof (unread_length (iter st p).1.1 rest).
    replace (S (length rest) - length (unread (run (iter st p).1.1 rest)))%nat
      with (S (length rest - length (unread (run (iter st p).1.1 rest))))
      by lia.
    done.
Qed.

Lemma iteration_last_status st data :
  last_status (iter st (Some data)).1.1 = Some (py_str (resp_status data)).
Proof. by rewrite iteration_Some. Qed.

Lemma status_notifications_changes st polls :
  length (status_notifications (trace (run st polls))) =
    changes (last_status st) (statuses (consumed polls (run st polls))).
Proof.
  revert st. induction polls as [|p rest IH]; intros st; [done|].
  rewrite consumed_cons, watch_cons. cbv zeta.
  assert (length (status_notifications (iter st p).1.2) =
            match p with
            | Some data =>
                if bool_decide (Some (py_str (resp_status data)) ≠ last_status st)
                then 1%nat else 0%nat
            | None => 0%nat
            end) as Hhead.
  { destruct p as [data|]; [|done].
    unfold status_notifications. rewrite sent_events.
    destruct (scan _ _) as [seen [|c codes]];
      unfold status_events; by case_bool_decide. }
  destruct p as [data|].
  - destruct ((iter st (Some data)).2) eqn:Hstop;
      cbn [trace statuses changes].
    + rewrite Hhead. lia.
    + unfold status_notifications in *.
      rewrite sent_app, List.filter_app, length_app, Hhead, IH.
      by rewrite iteration_last_status.
  - cbn [trace statuses]. unfold status_notifications. simpl sent. apply IH.
Qed.

Lemma runs_changes x l : runs (x :: l) = S (changes (Some x) l).
Proof.
  revert x. induction l as [|y l IH]; intros x; [done|].
  change (runs (x :: y :: l))
    with (if decide (x = y) then runs (y :: l) else S (runs (y :: l))).
  rewrite IH. simpl. case_decide; case_bool_decide; simplify_eq; congruence || lia.
Qed.

Lemma changes_None l : changes None l = runs l.
Proof. destruct l as [|x l]; [done|]. by rewrite runs_changes. Qed.

Lemma first_status_sent n data rest :
  EvSend (status_message (py_str (resp_status data)))
    ∈ trace (run init (replicate n None ++ Some data :: rest)).
Proof.
  induction n as [|n IH].
  - change (replicate 0 None ++ Some data :: rest) with (Some data :: rest).
    rewrite watch_cons, iteration_Some. cbv zeta.
    assert (EvSend (status_message (py_str (resp_status data)))
              ∈ status_events (last_status init) (py_str (resp_status data)))
      as Hin by (unfold status_events; simpl; apply list_elem_of_here).
    unfold status_events in Hin. simpl in Hin.
    destruct (is_terminal _); simpl; set_solver.
  - change (replicate (S n) None ++ Some data :: rest)
      with (None :: (replicate n None ++ Some data :: rest)).
    rewrite watch_cons. simpl. do 2 apply list_elem_of_further. apply IH.
Qed.

(** *** Termination *)

Lemma iteration_stop st p :
  (iter st p).2 =
    match p with
    | Some data => is_terminal (py_str (resp_status data))
    | None => false
    end.
Proof. destruct p as [data|]; [|done]. by rewrite iteration_Some. Qed.

Lemma iteration_events_head st p :
  ∃ tl, (iter st p).1.2 = EvPoll (bool_decide (is_Some p)) :: tl.
Proof.
  destruct p as [data|]; [|by eexists].
  rewrite iteration_Some. by eexists.
Qed.

Lemma notifications_only c last status :
  codes_events c ++ status_events last status =
    EvSend <$> sent (codes_events c ++ status_events last status).
Proof.
  unfold status_events. destruct c; simpl; by case_bool_decide.
Qed.

Lemma iteration_shape st data :
  ∃ msgs,
    (iter st (Some data)).1.2 =
      EvPoll true :: (EvSend <$> msgs)
        ++ (if is_terminal (py_str (resp_status data)) then []
            else [EvSleep (next_delay (backoff st))]).
Proof.
  rewrite iteration_Some. cbv zeta. cbn [fst snd].
  eexists. f_equal. by rewrite app_assoc, notifications_only.
Qed.

Lemma iteration_one_poll st p : polls_made (iter st p).1.2 = 1%nat.
Proof.
  destruct p as [data|]; [|done].
  rewrite iteration_Some. simpl. f_equal.
  rewrite app_assoc, polls_made_app, notifications_only.
  assert (∀ msgs, polls_made (EvSend <$> msgs) = 0%nat) as ->
    by (induction msgs; done).
  by destruct (is_terminal _).
Qed.

Lemma watch_stops st pre data rest :
  (∀ d, Some d ∈ pre → is_terminal (py_str (resp_status d)) = false) →
  is_terminal (py_str (resp_status data)) = true →
  let r := run st (pre ++ Some data :: rest) in
  finished r = true
  ∧ unread r = rest
  ∧ trace r = trace (run st (pre ++ [Some data]))
  ∧ ∃ tr0 msgs,
      trace r = tr0 ++ EvPoll true :: (EvSend <$> msgs)
      ∧ polls_made tr0 = length pre.
Proof.
  intros Hpre Hterm. revert st Hpre.
  induction pre as [|p pre IH]; intros st Hpre r; subst r.
  - change ([] ++ Some data :: rest) with (Some data :: rest).
    change ([] ++ [Some data]) with [Some data].
    rewrite !watch_cons, iteration_Some. cbv zeta. rewrite Hterm. simpl.
    split_and!; [done..|].
    exists [], (sent (codes_events
                        (scan (seen_sms_ids st) (default [] (resp_sms data))).2
                      ++ status_events (last_status st)
                           (py_str (resp_status data)))).
    split; [|done]. simpl. f_equal.
    by rewrite app_nil_r, <- notifications_only.
  - change ((p :: pre) ++ Some data :: rest)
      with (p :: (pre ++ Some data :: rest)).
    change ((p :: pre) ++ [Some data]) with (p :: (pre ++ [Some data])).
    rewrite !watch_cons. cbv zeta.
    assert ((iter st p).2 = false) as ->.
    { rewrite iteration_stop. destruct p as [d|]; [|done].
      apply Hpre, list_elem_of_here. }
    destruct (IH (iter st p).1.1) as (Hfin & Hun & Htr & tr0 & msgs & Heq & Hn).
    { intros d Hd. apply Hpre. by apply list_elem_of_further. }
    cbn [trace finished unread]. split_and!; [done|done|by rewrite Htr|].
    exists ((iter st p).1.2 ++ tr0), msgs. split.
    + by rewrite Heq, app_assoc.
    + rewrite polls_made_app, iteration_one_poll, Hn. done.
Qed.

(** *** Backoff *)

Lemma schedule_at_0 b : schedule_at b 0 = next_delay b.
Proof. by destruct b. Qed.

Lemma schedule_at_advance b i :
  schedule_at (advance b) i = schedule_at b (S i).
Proof.
  unfold schedule_at, advance. destruct b as [|d [|e t]]; simpl.
  - by destruct i.
  - by rewrite Nat.min_0_r.
  - by rewrite Nat.sub_0_r.
Qed.

Lemma delays_after_watch ok st polls :
  delays_after ok (trace (run st polls)) = backoff_delays (trace (run st polls)).
Proof.
  destruct polls as [|p rest]; [done|].
  rewrite watch_cons. cbv zeta.
  destruct (iteration_events_head st p) as [tl ->].
  by destruct ((iter st p).2).
Qed.

Lemma delays_after_notifications ok msgs tr :
  delays_after ok ((EvSend <$> msgs) ++ tr) = delays_after ok tr.
Proof. induction msgs; done. Qed.

Lemma backoff_delays_cons st p rest :
  backoff_delays (trace (run st (p :: rest))) =
    match p with
    | None => backoff_delays (trace (run st rest))
    | Some data =>
        if is_terminal (py_str (resp_status data)) then []
        else next_delay (backoff st)
               :: backoff_delays (trace (run (iter st p).1.1 rest))
    end.
Proof.
  rewrite watch_cons. cbv zeta. rewrite iteration_stop. destruct p as [data|].
  - destruct (iteration_shape st data) as [msgs ->]. unfold backoff_delays.
    destruct (is_terminal _); cbn [trace]; rewrite <- ?app_comm_cons;
      cbn [delays_after]; rewrite <- ?app_assoc, delays_after_notifications.
    + done.
    + simpl. by rewrite delays_after_watch.
  - simpl. apply delays_after_watch.
Qed.

Lemma backoff_delays_schedule st polls i d :
  backoff_delays (trace (run st polls)) !! i = Some d →
  d = schedule_at (backoff st) i.
Proof.
  revert st i. induction polls as [|p rest IH]; intros st i; [done|].
  rewrite backoff_delays_cons. destruct p as [data|]; [|apply IH].
  rewrite iteration_Some. cbv zeta.
  destruct (is_terminal _); [done|]. cbn [fst].
  destruct i as [|i]; simpl.
  - intros [= <-]. by rewrite schedule_at_0.
  - intros ->%IH. by rewrite <- schedule_at_advance.
Qed.

Lemma polls_ok_notifications msgs tr :
  polls_ok ((EvSend <$> msgs) ++ tr) = polls_ok tr.
Proof. induction msgs; done. Qed.

Lemma backoff_delays_length st polls :
  let r := run st polls in
  (length (backoff_delays (trace r)) + (if finished r then 1 else 0))%nat
    = polls_ok (trace r).
Proof.
  revert st. induction polls as [|p rest IH]; intros st; [done|].
  cbv zeta. rewrite backoff_delays_cons.
  rewrite watch_cons. cbv zeta. rewrite iteration_stop.
  destruct p as [data|].
  - destruct (iteration_shape st data) as [msgs ->].
    destruct (is_terminal _) eqn:Hterm; cbn [trace finished];
      rewrite <- ?app_comm_cons; cbn [polls_ok];
      rewrite <- ?app_assoc, polls_ok_notifications.
    + done.
    + cbn [length polls_ok app]. rewrite <- IH. lia.
  - simpl. apply IH.
Qed.

Lemma initial_schedule_monotone i j :
  (i ≤ j)%nat →
  schedule_at initial_backoff i ≤ schedule_at initial_backoff j.
Proof.
  intros Hij. unfold schedule_at, initial_backoff. simpl length.
  destruct i as [|[|[|[|[|i]]]]], j as [|[|[|[|[|j]]]]]; simpl; lia.
Qed.

(** *** Runs in two parts *)

Lemma final_seen_mono st polls :
  seen_sms_ids st ⊆ seen_sms_ids (final (run st polls)).
Proof.
  revert st. induction polls as [|p rest IH]; intros st; [done|].
  rewrite watch_cons. cbv zeta.
  pose proof (iteration_seen_mono st p).
  destruct ((iter st p).2); cbn [final]; [done|].
  specialize (IH (iter st p).1.1). set_solver.
Qed.

Lemma notified_in_final st polls k :
  k ∈ (notified py_hash st polls).*1 → k ∈ seen_sms_ids (final (run st polls)).
Proof.
  revert st. induction polls as [|p rest IH]; intros st.
  - by intros ?%elem_of_nil.
  - rewrite notified_cons, watch_cons, fmap_app, elem_of_app. cbv zeta.
    intros [Hk|Hk].
    + apply batch_of_keys in Hk as [_ Hk].
      destruct ((iter st p).2); cbn [final]; [done|].
      by apply final_seen_mono.
    + destruct ((iter st p).2); [by apply elem_of_nil in Hk|].
      cbn [final]. by apply IH.
Qed.

Lemma final_app st pre polls :
  finished (run st pre) = false →
  final (run st (pre ++ polls)) = final (run (final (run st pre)) polls).
Proof.
  revert st. induction pre as [|p pre IH]; intros st; [done|].
  change ((p :: pre) ++ polls) with (p :: (pre ++ polls)).
  rewrite !watch_cons. cbv zeta.
  destruct ((iter st p).2); cbn [finished final]; [done|apply IH].
Qed.

Lemma notified_app st pre polls :
  finished (run st pre) = false →
  notified py_hash st (pre ++ polls) =
    notified py_hash st pre ++ notified py_hash (final (run st pre)) polls.
Proof.
  revert st. induction pre as [|p pre IH]; intros st; [done|].
  change ((p :: pre) ++ polls) with (p :: (pre ++ polls)).
  rewrite !notified_cons, watch_cons. cbv zeta.
  destruct ((iter st p).2); cbn [finished final]; [done|].
  intros Hfin. by rewrite IH, app_assoc.
Qed.

Lemma final_singleton st p : final (run st [p]) = (iter st p).1.1.
Proof. rewrite watch_cons. cbv zeta. by destruct ((iter st p).2). Qed.

Lemma trace_app st pre polls :
  finished (run st pre) = false →
  trace (run st (pre ++ polls))
    = trace (run st pre) ++ trace (run (final (run st pre)) polls)
  ∧ finished (run st (pre ++ polls))
      = finished (run (final (run st pre)) polls)
  ∧ unread (run st (pre ++ polls))
      = unread (run (final (run st pre)) polls).
Proof.
  revert st. induction pre as [|p pre IH]; intros st; [done|].
  change ((p :: pre) ++ polls) with (p :: (pre ++ polls)).
  rewrite !watch_cons. cbv zeta.
  destruct ((iter st p).2); cbn [trace finished unread final]; [done|].
  intros Hfin. destruct (IH _ Hfin) as (-> & -> & ->).
  by rewrite app_assoc.
Qed.

(** An iteration does not see the entries of a [sid] it has seen. *)
Lemma iteration_without st p k :
  k ∈ seen_sms_ids st → iter st (without_sid py_hash k p) = iter st p.
Proof.
  intros Hk. destruct p as [data|]; [|done].
  unfold iteration. cbn [without_sid resp_status resp_sms].
  replace (default [] (List.filter (λ s, bool_decide (sid s ≠ k))
                         <$> resp_sms data))
    with (List.filter (λ s, bool_decide (sid s ≠ k))
            (default [] (resp_sms data)))
    by (by destruct (resp_sms data)).
  by rewrite scan_without.
Qed.

Lemma run_without st polls k :
  k ∈ seen_sms_ids st →
  trace (run st (without_sid py_hash k <$> polls)) = trace (run st polls)
  ∧ finished (run st (without_sid py_hash k <$> polls))
      = finished (run st polls)
  ∧ final (run st (without_sid py_hash k <$> polls)) = final (run st polls)
  ∧ unread (run st (without_sid py_hash k <$> polls))
      = without_sid py_hash k <$> unread (run st polls).
Proof.
  revert st. induction polls as [|p rest IH]; intros st Hk; [done|].
  rewrite fmap_cons, !watch_cons. cbv zeta.
  rewrite iteration_without by done.
  destruct ((iter st p).2); cbn [trace finished unread final]; [done|].
  destruct (IH (iter st p).1.1) as (-> & -> & -> & ->); [|done].
  by apply iteration_seen_mono.
Qed.

(** Once a [sid] is in [seen_sms_ids], no code is notified for it. *)
Lemma seen_never_notified st polls k :
  k ∈ seen_sms_ids st → k ∉ (notified py_hash st polls).*1.
Proof. intros Hk Hin. by apply notified_fresh in Hin. Qed.

(** An entry without a code, met for the first time, gives no code in
    its batch. *)
Lemma codeless_batch seen l1 s l2 :
  sid s ∉ seen → sid s ∉ (sid <$> l1) → truthy (sms_code s) = false →
  sid s ∉ (tagged seen (l1 ++ s :: l2)).*1.
Proof.
  intros Hseen Hl1 Hcode. rewrite scan_tagged_app, fmap_app, not_elem_of_app.
  split.
  - by intros [_ ?]%scan_tagged_fresh.
  - simpl. rewrite Hcode. simpl. case_decide; intros [Hk _]%scan_tagged_fresh.
    + done.
    + set_solver.
Qed.

End Run.

(** C1 (dedup invariant).  Over any sequence of poll outcomes, the
    messages with codes that the watcher sends are built from the tagged
    batches of the run, and in the list of all notified codes no [sid]
    (the provider's id, or the fallback fingerprint of text and date) occurs
    twice: each distinct id gives at most one notified code. *)
Theorem dedup_invariant (py_hash : pyval → pyval → Z)
    (polls : list poll_result) :
  code_notifications (trace (_poll_order_updates py_hash polls)) =
    (λ b, codes_message (b.*2))
      <$> filter (λ b, b ≠ []) (code_batches py_hash init polls)
  ∧ NoDup (notified py_hash init polls).*1.
Proof.
  unfold _poll_order_updates.
  split; [apply code_notifications_batches|apply notified_NoDup].
Qed.

(** C2 (status-change invariant).  The number of status notifications of
    a run equals the number of maximal runs of equal consecutive values
    among the statuses of the successful polls it consumed; and the first
    successful poll, whatever failed polls precede it, sends its status,
    the initial [last_status] being [None]. *)
Theorem status_change_invariant (py_hash : pyval → pyval → Z) :
  (∀ polls : list poll_result,
     let r := _poll_order_updates py_hash polls in
     length (status_notifications (trace r))
       = runs (statuses (consumed polls r)))
  ∧ (∀ (n : nat) (data : Response) (rest : list poll_result),
       EvSend (status_message (py_str (resp_status data)))
         ∈ trace (_poll_order_updates py_hash
                    (replicate n None ++ Some data :: rest))).
Proof.
  unfold _poll_order_updates. split.
  - intros polls. cbv zeta.
    by rewrite status_notifications_changes, changes_None.
  - apply first_status_sent.
Qed.

(** C3 (termination).  When the polls before some poll all keep the loop
    going and that poll returns a status in FINISHED, CANCELED, TIMEOUT,
    BANNED, the loop leaves at that iteration: it has polled exactly as many
    times as there are polls up to that one, reads nothing of what follows,
    its trace is that of the run cut right after that poll, and after the
    last poll the trace holds only the messages of that iteration. *)
Theorem terminates_at_terminal_status (py_hash : pyval → pyval → Z)
    (pre : list poll_result) (data : Response) (rest : list poll_result) :
  forallb keeps_polling pre = true →
  is_terminal (py_str (resp_status data)) = true →
  let r := _poll_order_updates py_hash (pre ++ Some data :: rest) in
  finished r = true
  ∧ unread r = rest
  ∧ polls_made (trace r) = S (length pre)
  ∧ trace r = trace (_poll_order_updates py_hash (pre ++ [Some data]))
  ∧ ∃ tr0 msgs,
      trace r = tr0 ++ EvPoll true :: (EvSend <$> msgs)
      ∧ polls_made tr0 = length pre.
Proof.
  intros Hpre Hterm r. subst r. unfold _poll_order_updates.
  destruct (watch_stops py_hash init pre data rest)
    as (Hfin & Hun & Htr & tr0 & msgs & Heq & Hn); [|done|].
  { intros d Hd. rewrite forallb_forall in Hpre.
    apply list_elem_of_In, Hpre in Hd. simpl in Hd.
    by apply negb_true_iff in Hd. }
  split_and!; [done|done| |done|by exists tr0, msgs].
  rewrite Heq, polls_made_app, Hn. simpl.
  assert (polls_made (EvSend <$> msgs) = 0%nat) as ->
    by (clear; induction msgs; done).
  lia.
Qed.

Lemma terminates_at_terminal_status_witness :
  let pre := [poll_ok "PENDING" []; None] in
  let data := {| resp_status := PyStr "CANCELED"; resp_sms := None |} in
  let rest := [poll_ok "RECEIVED" [sms_with 1 "123"]] in
  let r := _poll_order_updates zero_hash (pre ++ Some data :: rest) in
  forallb keeps_polling pre = true
  ∧ is_terminal (py_str (resp_status data)) = true
  ∧ finished r = true
  ∧ unread r = rest
  ∧ polls_made (trace r) = 3%nat
  ∧ trace r = trace (_poll_order_updates zero_hash (pre ++ [Some data]))
  ∧ ∃ tr0 msgs,
      trace r = tr0 ++ EvPoll true :: (EvSend <$> msgs)
      ∧ polls_made tr0 = 2%nat.
Proof.
  intros pre data rest r.
  split; [reflexivity|]. split; [reflexivity|].
  apply (terminates_at_terminal_status zero_hash pre data rest); reflexivity.
Defined.

(** C7 (backoff).  In every run the delays slept after successful
    non-terminal polls are, in order, the entries 2, 4, 8, 15, 30 of the
    schedule and then 30 again for as long as the run lasts; they never
    decrease; and there is one such delay for every successful poll but
    the terminal one. *)
Theorem backoff_delays_follow_schedule (py_hash : pyval → pyval → Z)
    (polls : list poll_result) :
  let r := _poll_order_updates py_hash polls in
  let ds := backoff_delays (trace r) in
  (∀ i d, ds !! i = Some d → d = schedule_at initial_backoff i)
  ∧ (∀ i j di dj,
       (i ≤ j)%nat → ds !! i = Some di → ds !! j = Some dj → di ≤ dj)
  ∧ (∀ i, (4 ≤ i)%nat → schedule_at initial_backoff i = 30)
  ∧ (length ds + (if finished r then 1 else 0))%nat = polls_ok (trace r).
Proof.
  intros r ds. subst ds r. unfold _poll_order_updates. split_and!.
  - intros i d Hd. by apply (backoff_delays_schedule py_hash init polls).
  - intros i j di dj Hij Hi Hj.
    apply (backoff_delays_schedule py_hash init polls) in Hi as ->, Hj as ->.
    by apply initial_schedule_monotone.
  - intros i Hi. unfold schedule_at, initial_backoff. simpl length.
    by replace (i `min` (5 - 1))%nat with 4%nat by lia.
  - apply backoff_delays_length.
Qed.

Lemma backoff_delays_follow_schedule_witness :
  let polls := replicate 3 (poll_ok "PENDING" []) ++ [None]
                 ++ replicate 4 (poll_ok "RECEIVED" []) in
  let ds := backoff_delays (trace (_poll_order_updates zero_hash polls)) in
  (ds !! 3%nat = Some 15 ∧ 15 = schedule_at initial_backoff 3)
  ∧ (ds !! 1%nat = Some 4 ∧ ds !! 6%nat = Some 30 ∧ 4 ≤ 30).
Proof.
  intros polls ds.
  destruct (backoff_delays_follow_schedule zero_hash polls)
    as (Hsched & Hmono & _ & _).
  split.
  - split; [reflexivity|]. apply (Hsched 3%nat 15). reflexivity.
  - split; [reflexivity|]. split; [reflexivity|].
    apply (Hmono 1%nat 6%nat 4 30); [lia|reflexivity|reflexivity].
Defined.

(** C6 (scenario), as the code runs it.  On the four polls of the scenario
    the watcher sends, in this order, the status PENDING, the code 123, the
    status RECEIVED, the code 456, the status FINISHED: within an iteration
    the codes go out before the status. It then stops, leaving whatever
    polls would follow unread. *)
Theorem scenario_notifications (py_hash : pyval → pyval → Z)
    (rest : list poll_result) :
  let r := _poll_order_updates py_hash (scenario_polls ++ rest) in
  sent (trace r) =
    ["Order status: PENDING"; "New code(s) received: 123";
     "Order status: RECEIVED"; "New code(s) received: 456";
     "Order status: FINISHED"]%string
  ∧ finished r = true
  ∧ unread r = rest.
Proof. by vm_compute. Qed.

(** The order of the specification's scenario, with the status RECEIVED
    ahead of the code 123, is not what the watcher sends. *)
Lemma scenario_claimed_order_fails :
  sent (trace (_poll_order_updates zero_hash scenario_polls)) ≠
    ["Order status: PENDING"; "Order status: RECEIVED";
     "New code(s) received: 123"; "New code(s) received: 456";
     "Order status: FINISHED"]%string.
Proof. vm_compute. discriminate. Qed.

(** C9 (an id seen without a code stays seen).  Take a run that is still
    going after the polls [pre], and a next poll whose SMS list holds an
    entry [s] without a code whose [sid] has not been met before, neither
    in earlier polls nor earlier in the list. After that poll the [sid] is
    in [seen_sms_ids], and whatever polls follow, also ones where the same
    id now carries a code, no code is ever notified for it: it lets no
    code into the batches from which the codes messages of the run are
    made, and the run is, event by event, the run against the same polls
    with every later entry of that [sid] taken out. *)
Theorem codeless_sms_blocks_later_code (py_hash : pyval → pyval → Z)
    (pre : list poll_result) (data : Response) (l1 : list Sms) (s : Sms)
    (l2 : list Sms) (later : list poll_result) :
  finished (_poll_order_updates py_hash pre) = false →
  resp_sms data = Some (l1 ++ s :: l2) →
  sms_sid py_hash s
    ∉ seen_sms_ids (final (_poll_order_updates py_hash pre)) →
  sms_sid py_hash s ∉ (sms_sid py_hash <$> l1) →
  truthy (sms_code s) = false →
  (sms_sid py_hash s
    ∈ seen_sms_ids (final (_poll_order_updates py_hash (pre ++ [Some data])))
  ∧ sms_sid py_hash s
      ∉ (notified py_hash init (pre ++ Some data :: later)).*1)
  ∧ code_notifications
      (trace (_poll_order_updates py_hash (pre ++ Some data :: later)))
    = (λ b, codes_message (b.*2))
        <$> filter (λ b, b ≠ [])
              (code_batches py_hash init (pre ++ Some data :: later))
  ∧ (let r := _poll_order_updates py_hash (pre ++ Some data :: later) in
     let r' := _poll_order_updates py_hash
                 (pre ++ Some data
                    :: (without_sid py_hash (sms_sid py_hash s) <$> later)) in
     trace r = trace r' ∧ finished r = finished r' ∧ final r = final r').
Proof.
  unfold _poll_order_updates. intros Hfin Hsms Hfresh Hl1 Hcode.
  assert (sms_sid py_hash s
            ∈ seen_sms_ids
                (iteration py_hash (final (poll_loop py_hash init pre))
                   (Some data)).1.1) as Hseen.
  { rewrite iteration_Some. simpl. rewrite scan_seen, Hsms. simpl.
    rewrite fmap_app, fmap_cons. set_solver. }
  split; [split|split].
  - by rewrite final_app, final_singleton.
  - rewrite notified_app, fmap_app, not_elem_of_app by done. split.
    + by intros ?%notified_in_final.
    + rewrite notified_cons, fmap_app, not_elem_of_app. split.
      * simpl. rewrite Hsms. simpl. by apply codeless_batch.
      * destruct ((iteration _ _ _).2); [apply not_elem_of_nil|].
        by apply seen_never_notified.
  - apply code_notifications_batches.
  - cbv zeta.
    destruct (trace_app py_hash init pre (Some data :: later) Hfin)
      as (-> & -> & _).
    destruct (trace_app py_hash init pre
                (Some data
                   :: (without_sid py_hash (sms_sid py_hash s) <$> later))
                Hfin) as (-> & -> & _).
    rewrite !final_app by done. rewrite !watch_cons. cbv zeta.
    destruct ((iteration _ _ _).2); cbn [trace finished final]; [done|].
    destruct (run_without py_hash _ later _ Hseen) as (-> & -> & -> & _).
    done.
Qed.

Lemma codeless_sms_blocks_later_code_witness :
  let s := {| sms_id := PyInt 7; sms_code := PyNone;
              sms_text := PyStr "pending"; sms_date := PyNone |} in
  let data := {| resp_status := PyStr "RECEIVED"; resp_sms := Some [s] |} in
  let pre := [poll_ok "PENDING" []] in
  let later := [poll_ok "RECEIVED" [sms_with 7 "123"]] in
  (finished (_poll_order_updates zero_hash pre) = false
   ∧ resp_sms data = Some ([] ++ s :: [])
   ∧ truthy (sms_code s) = false)
  ∧ (KInt 7 ∈ seen_sms_ids
                (final (_poll_order_updates zero_hash (pre ++ [Some data])))
     ∧ KInt 7 ∉ (notified zero_hash init (pre ++ Some data :: later)).*1)
  ∧ trace (_poll_order_updates zero_hash (pre ++ Some data :: later))
    = trace (_poll_order_updates zero_hash
               (pre ++ [Some data; poll_ok "RECEIVED" []])).
Proof.
  intros s data pre later.
  split; [by split_and!|].
  destruct (codeless_sms_blocks_later_code zero_hash pre data [] s [] later)
    as (Hseen & _ & Hrun & _).
  - reflexivity.
  - reflexivity.
  - apply not_elem_of_empty.
  - apply not_elem_of_nil.
  - reflexivity.
  - split; [exact Hseen|exact Hrun].
Defined.

(** The same run, as the chat sees it: the code 123 of id 7 never
    arrives. *)
Example codeless_then_code_messages :
  sent (trace (_poll_order_updates zero_hash
                 [poll_ok "PENDING" [];
                  Some {| resp_status := PyStr "RECEIVED";
                          resp_sms := Some [{| sms_id := PyInt 7;
                                               sms_code := PyNone;
                                               sms_text := PyStr "pending";
                                               sms_date := PyNone |}] |};
                  poll_ok "RECEIVED" [sms_with 7 "123"]])) =
    ["Order status: PENDING"; "Order status: RECEIVED"]%string.
Proof. by vm_compute. Qed.

End WatcherProofs.

(** ** The TTL cache *)

Module TTLCacheProofs.
Import TTLCache.

Section Cache.

Context {V : Type}.
Implicit Types (c : gmap string (Z * option V)) (k : string) (v : option V).
Implicit Types (calls : list (Z * @op V)).

Lemma get_absent c k now : c !! k = None → get k now c = (None, c).
Proof. intros Hk. unfold get. by rewrite Hk. Qed.

Lemma get_live c k now exp v :
  c !! k = Some (exp, v) → ¬ exp < now → get k now c = (v, c).
Proof. intros Hk Hlive. unfold get. rewrite Hk. by case_bool_decide. Qed.

Lemma get_expired c k now exp v :
  c !! k = Some (exp, v) → exp < now → get k now c = (None, delete k c).
Proof. intros Hk Hexp. unfold get. rewrite Hk. by case_bool_decide. Qed.

Lemma set_lookup c k v ttl now : set k v ttl now c !! k = Some (now + ttl, v).
Proof. apply lookup_insert_eq. Qed.

(** A lookup touches no key but its own. *)
Lemma get_other c k k' now : k ≠ k' → (get k now c).2 !! k' = c !! k'.
Proof.
  intros Hne. unfold get. destruct (c !! k) as [[exp v]|]; [|done].
  case_bool_decide; simpl; [by rewrite lookup_delete_ne|done].
Qed.

Lemma clock_ordered_last t0 calls t o :
  clock_ordered t0 (calls ++ [(t, o)]) → t0 ≤ t.
Proof.
  revert t0. induction calls as [|[t1 o1] calls IH]; intros t0; simpl.
  - by intros [? _].
  - intros [? ?%IH]. lia.
Qed.

Lemma exec_absent c k calls :
  c !! k = None → Forall (λ call, ¬ sets_key k call) calls →
  exec calls c !! k = None.
Proof.
  revert c. induction calls as [|[t o] calls IH]; intros c Hk Hset; [done|].
  apply Forall_cons in Hset as [Ho Hset]. simpl. apply IH; [|done].
  destruct o as [k'|k' v' ttl']; simpl.
  - destruct (decide (k' = k)) as [->|Hne].
    + by rewrite get_absent.
    + by rewrite get_other.
  - unfold set. rewrite lookup_insert_ne; [done|]. intros ->. by apply Ho.
Qed.

(** While nobody sets [k] again, its entry stays as stored, unless a
    lookup found it expired and dropped it. *)
Lemma exec_keeps c k exp v t0 calls t :
  c !! k = Some (exp, v) →
  Forall (λ call, ¬ sets_key k call) calls →
  clock_ordered t0 (calls ++ [(t, CallGet k)]) →
  exec calls c !! k = Some (exp, v) ∨ (exec calls c !! k = None ∧ exp < t).
Proof.
  revert c t0. induction calls as [|[t1 o] calls IH]; intros c t0 Hk Hset Hclk.
  - by left.
  - apply Forall_cons in Hset as [Ho Hset]. destruct Hclk as [Ht1 Hclk].
    simpl. destruct o as [k'|k' v' ttl']; simpl.
    + destruct (decide (k' = k)) as [->|Hne].
      * destruct (decide (exp < t1)) as [Hexp|Hlive].
        -- right. rewrite (get_expired _ _ _ _ _ Hk Hexp). simpl. split.
           ++ apply exec_absent; [apply lookup_delete_eq|done].
           ++ apply clock_ordered_last in Hclk. lia.
        -- rewrite (get_live _ _ _ _ _ Hk Hlive). simpl. by eapply IH.
      * eapply IH; [|done..]. by rewrite get_other.
    + eapply IH; [|done..]. unfold set.
      rewrite lookup_insert_ne; [done|]. intros ->. by apply Ho.
Qed.

(** Without any assumption on the clock: the entry is as stored or gone. *)
Lemma exec_keeps_or_drops c k exp v calls :
  c !! k = Some (exp, v) →
  Forall (λ call, ¬ sets_key k call) calls →
  exec calls c !! k = Some (exp, v) ∨ exec calls c !! k = None.
Proof.
  revert c. induction calls as [|[t1 o] calls IH]; intros c Hk Hset.
  - by left.
  - apply Forall_cons in Hset as [Ho Hset]. simpl.
    destruct o as [k'|k' v' ttl']; simpl.
    + destruct (decide (k' = k)) as [->|Hne].
      * destruct (decide (exp < t1)) as [Hexp|Hlive].
        -- right. rewrite (get_expired _ _ _ _ _ Hk Hexp). simpl.
           apply exec_absent; [apply lookup_delete_eq|done].
        -- rewrite (get_live _ _ _ _ _ Hk Hlive). simpl. by apply IH.
      * apply IH; [|done]. by rewrite get_other.
    + apply IH; [|done]. unfold set.
      rewrite lookup_insert_ne; [done|]. intros ->. by apply Ho.
Qed.

End Cache.

(** C8 (cache contract).  [set(key, value, ttl)] stores the value under
    the key with the expiry [now + ttl], replacing what was there. [get(key)]
    on a stored entry returns its value while the expiry has not passed;
    once it has, it returns absent and the entry is dropped by that lookup;
    a key that is not stored reads as absent; and a lookup leaves every
    other key as it is, expired or not. Hence, after a [set] at [t0] and
    whatever later calls that do not set the key again, made as the clock
    moves on, a [get] at [t] returns the value of that set if [t0 + ttl]
    has not passed, and absent otherwise. *)
Theorem cache_get_contract (V : Type) :
  (∀ (c : gmap string (Z * option V)) k v ttl now,
     set k v ttl now c !! k = Some (now + ttl, v))
  ∧ (∀ (c : gmap string (Z * option V)) k exp v now,
       c !! k = Some (exp, v) →
       get k now c =
         if bool_decide (exp < now) then (None, delete k c) else (v, c))
  ∧ (∀ (c : gmap string (Z * option V)) k now,
       c !! k = None → get k now c = (None, c))
  ∧ (∀ (c : gmap string (Z * option V)) k k' now,
       k ≠ k' → (get k now c).2 !! k' = c !! k')
  ∧ (∀ (c : gmap string (Z * option V)) k v ttl t0
       (calls : list (Z * @op V)) t,
       Forall (λ call, ¬ sets_key k call) calls →
       clock_ordered t0 (calls ++ [(t, CallGet k)]) →
       let c' := exec calls (set k v ttl t0 c) in
       get k t c' =
         if bool_decide (t0 + ttl < t) then (None, delete k c') else (v, c')).
Proof.
  split_and!.
  - intros. apply set_lookup.
  - intros c k exp v now Hk. case_bool_decide.
    + by apply get_expired with exp v.
    + by apply get_live with exp.
  - apply get_absent.
  - intros c k k' now. apply get_other.
  - intros c k v ttl t0 calls t Hset Hclk c'.
    destruct (exec_keeps (set k v ttl t0 c) k (t0 + ttl) v t0 calls t)
      as [Hk|[Hk Hexp]]; [apply set_lookup|done..| |].
    + fold c' in Hk. case_bool_decide.
      * by apply get_expired with (t0 + ttl) v.
      * by apply get_live with (t0 + ttl).
    + fold c' in Hk. rewrite bool_decide_true by done.
      by rewrite get_absent, delete_id.
Qed.

Lemma cache_get_contract_witness :
  let k := "countries:list"%string in
  let other := prices_key "telegram" in
  let calls t := [(1100, CallGet other); (t, CallGet k)] in
  let stored := set k (Some 7) 300 1000 (∅ : gmap string (Z * option Z)) in
  (clock_ordered 1000 (calls 1200 ++ [(1250, CallGet k)])
   ∧ get k 1250 (exec (calls 1200) stored)
       = (Some 7, exec (calls 1200) stored))
  ∧ (clock_ordered 1000 (calls 1350 ++ [(1400, CallGet k)])
     ∧ get k 1400 (exec (calls 1350) stored)
         = (None, delete k (exec (calls 1350) stored)))
  ∧ (stored !! k = Some (1300, Some 7)
     ∧ get k 1301 stored = (None, delete k stored))
  ∧ get other 1400 (∅ : gmap string (Z * option Z)) = (None, ∅).
Proof.
  intros k other calls stored.
  destruct (cache_get_contract Z) as (_ & Hstored & Habsent & _ & Hget).
  assert (∀ t, Forall (λ call, ¬ sets_key k call) (calls t)) as Hset
    by (intros t; repeat constructor; simpl; tauto).
  split; [|split; [|split]].
  - split; [simpl; lia|].
    apply (Hget ∅ k (Some 7) 300 1000 (calls 1200) 1250); [apply Hset|].
    simpl. lia.
  - split; [simpl; lia|].
    apply (Hget ∅ k (Some 7) 300 1000 (calls 1350) 1400); [apply Hset|].
    simpl. lia.
  - split; [reflexivity|].
    apply (Hstored stored k 1300 (Some 7) 1301). reflexivity.
  - apply Habsent. reflexivity.
Defined.

(** C10 (a stored [None]).  After [set(key, None, ttl)], and whatever
    later calls that do not set the key again, a [get(key)] returns [None]
    at any time, before the expiry as well as after it: the same answer as
    for a key that is not stored. So the lookup of [on_prices], which takes
    [None] for a miss, calls the provider again. *)
Theorem stored_None_reads_as_miss (V : Type)
    (c : gmap string (Z * option V)) (k : string) (ttl t0 t : Z) :
  (get k t (set k None ttl t0 c)).1 = None
  ∧ (get k t (set k None ttl t0 c)).1 = (get k t (delete k c)).1
  ∧ (∀ ttl' t' net,
       (on_prices_lookup k ttl' t t' net (set k None ttl t0 c)).1.1 = true)
  ∧ (∀ calls : list (Z * @op V),
       Forall (λ call, ¬ sets_key k call) calls →
       (get k t (exec calls (set k None ttl t0 c))).1 = None).
Proof.
  assert ((get k t (set k None ttl t0 c)).1 = None) as Hnone.
  { unfold get. rewrite set_lookup. by case_bool_decide. }
  split_and!; [done| | |].
  - rewrite Hnone. by rewrite get_absent by apply lookup_delete_eq.
  - intros ttl' t' net. unfold on_prices_lookup.
    destruct (get k t _) as [cached c1]. simpl in Hnone. subst cached.
    by destruct net.
  - intros calls Hset.
    destruct (exec_keeps_or_drops (set k None ttl t0 c) k (t0 + ttl) None calls)
      as [Hk|Hk]; [apply set_lookup|done| |].
    + unfold get. rewrite Hk. by case_bool_decide.
    + by rewrite get_absent.
Qed.

Lemma stored_None_reads_as_miss_witness :
  let k := prices_key "telegram" in
  let stored := set k None 60 1000 (∅ : gmap string (Z * option Z)) in
  let calls := [(1005, CallGet k); (1007, CallGet "countries:list"%string)] in
  Forall (λ call, ¬ sets_key k call) calls
  ∧ (get k 1010 (exec calls stored)).1 = None
  ∧ (on_prices_lookup k 60 1010 1011 (Fetched (Some 3)) stored).1.1 = true.
Proof.
  intros k stored calls.
  destruct (stored_None_reads_as_miss Z ∅ k 60 1000 1010)
    as (_ & _ & Hfetch & Hcalls).
  assert (Forall (λ call, ¬ sets_key k call) calls) as Hset
    by (repeat constructor; simpl; tauto).
  split; [done|]. split.
  - by apply Hcalls.
  - apply Hfetch.
Defined.

(** Within the TTL window a stored object other than [None] is served
    from the cache, without a call to the provider. *)
Lemma cached_value_served (V : Type) (c : gmap string (Z * option V))
    (k : string) (x : V) (ttl t0 t ttl' t' : Z) (net : fetch_outcome) :
  ¬ t0 + ttl < t →
  on_prices_lookup k ttl' t t' net (set k (Some x) ttl t0 c) =
    (false, Some (Some x), set k (Some x) ttl t0 c).
Proof.
  intros Hlive. unfold on_prices_lookup.
  by rewrite (get_live _ _ _ (t0 + ttl) (Some x)) by (apply set_lookup || done).
Qed.

End TTLCacheProofs.

(** ** The provider client *)

Module FiveSimProofs.
Import FiveSim.

Section Retry.

Context {J : Type}.
Variable net : nat → @outcome J.
Variable retries : Z.
Variable require_ok : bool.
Variable req : @Request J.
Variable path : string.

Local Abbreviation loop := (request_loop net retries require_ok req path).
Local Abbreviation attempt :=
  (λ i, attempt_once require_ok (req_method req) path (net i)).

(** *** One turn of the loop *)

(** The attempt leaves [_request]. *)
Lemma loop_leaves todo a last res :
  attempt a = inl res → loop (S todo) a last = (res, [ReqSend a req]).
Proof. intros Ha. simpl. by rewrite Ha. Qed.

(** The attempt falls through and is the last one allowed: no pause. *)
Lemma loop_last a last e :
  attempt a = inr e → retries ≤ Z.of_nat a →
  loop 1 a last = (Raise e, [ReqSend a req]).
Proof.
  intros Ha Hlast. simpl. rewrite Ha.
  by rewrite bool_decide_false by lia.
Qed.

(** The attempt falls through, the pause is slept, the loop goes on. *)
Lemma loop_goes_on todo a last e :
  attempt a = inr e → Z.of_nat a < retries → (a < 1024)%nat →
  ∃ millis,
    retry_delay a = Some millis
    ∧ loop (S todo) a last =
        ((loop todo (S a) (Some e)).1,
         ReqSend a req :: ReqSleep millis :: (loop todo (S a) (Some e)).2).
Proof.
  intros Ha Hmore Hsmall. simpl. rewrite Ha.
  rewrite bool_decide_true by done. unfold retry_delay.
  rewrite bool_decide_true by done. eexists. split; [done|].
  by destruct (loop todo (S a) (Some e)).
Qed.

(** The attempt falls through and the pause cannot be computed. *)
Lemma loop_aborts todo a last e :
  attempt a = inr e → Z.of_nat a < retries → (1024 ≤ a)%nat →
  loop (S todo) a last = (OverflowError, [ReqSend a req]).
Proof.
  intros Ha Hmore Hbig. simpl. rewrite Ha.
  rewrite bool_decide_true by done. unfold retry_delay.
  by rewrite bool_decide_false by lia.
Qed.

(** *** How a request ends *)

(** After [n] attempts that fell through, each followed by its pause,
    attempt [a + n] leaves with the result, or is the last one allowed and
    its error is raised, or falls through where the pause overflows. *)
Lemma loop_outcome todo a last :
  retries = Z.of_nat (a + todo) →
  let out := loop (S todo) a last in
  ∃ n, attempts_made out.2 = S n
       ∧ (n ≤ todo)%nat
       ∧ (∀ i, (i < n)%nat → (a + i < 1024)%nat ∧ ∃ e, attempt (a + i)%nat = inr e)
       ∧ Some <$> pauses out.2 = retry_delay <$> seq a n
       ∧ (attempt (a + n)%nat = inl out.1
          ∨ (n = todo ∧ ∃ e, attempt (a + n)%nat = inr e ∧ out.1 = Raise e)
          ∨ ((n < todo)%nat ∧ (1024 ≤ a + n)%nat
             ∧ (∃ e, attempt (a + n)%nat = inr e) ∧ out.1 = OverflowError)).
Proof.
  revert a last. induction todo as [|todo IH]; intros a last Hretries out;
    subst out.
  - exists 0%nat. rewrite Nat.add_0_r.
    destruct (attempt a) as [res|e] eqn:Ha.
    + rewrite (loop_leaves _ _ _ _ Ha).
      split_and!; [done|lia|intros; lia|done|by left].
    + rewrite (loop_last _ _ _ Ha) by lia.
      split_and!; [done|lia|intros; lia|done|].
      right; left. split; [done|]. by exists e.
  - destruct (attempt a) as [res|e] eqn:Ha.
    + exists 0%nat. rewrite (loop_leaves _ _ _ _ Ha), Nat.add_0_r.
      split_and!; [done|lia|intros; lia|done|by left].
    + destruct (decide (a < 1024)%nat) as [Hsmall|Hbig].
      * destruct (loop_goes_on (S todo) a last e Ha) as (millis & Hms & ->);
          [lia|done|].
        destruct (IH (S a) (Some e)) as (n & Hn & Hle & Hfall & Hp & Hend);
          [lia|].
        exists (S n). cbn [fst snd]. split_and!.
        -- unfold attempts_made in *. cbn [requests length]. by rewrite Hn.
        -- lia.
        -- intros [|i] Hi; [rewrite Nat.add_0_r; split; [done|by exists e]|].
           replace (a + S i)%nat with (S a + i)%nat by lia. apply Hfall. lia.
        -- cbn [pauses seq]. by rewrite !fmap_cons, Hp, Hms.
        -- replace (a + S n)%nat with (S a + n)%nat by lia.
           destruct Hend as [?|[[-> ?]|(? & ? & ? & ?)]];
             [by left|right; by left|].
           right; right. split_and!; [lia|done..].
      * exists 0%nat. rewrite (loop_aborts _ _ _ _ Ha), Nat.add_0_r by lia.
        split_and!; [done|lia|intros; lia|done|].
        right; right. split_and!; [lia|lia|by exists e|done].
Qed.

(** The attempt that leaves is the first that does not fall through. *)
Lemma loop_stops_at k todo a last res :
  retries = Z.of_nat (a + todo) →
  (k ≤ todo)%nat → (a + k ≤ 1024)%nat →
  (∀ i, (i < k)%nat → ∃ e, attempt (a + i)%nat = inr e) →
  attempt (a + k)%nat = inl res →
  (loop (S todo) a last).1 = res
  ∧ attempts_made (loop (S todo) a last).2 = S k
  ∧ Some <$> pauses (loop (S todo) a last).2 = retry_delay <$> seq a k.
Proof.
  intros Hretries Hk Hsmall Hfall Hres.
  destruct (loop_outcome todo a last Hretries)
    as (n & Hn & Hle & Hfalln & Hp & Hend).
  destruct (lt_eq_lt_dec n k) as [[Hlt| ->]|Hgt].
  - destruct (Hfall n Hlt) as [e He].
    destruct Hend as [Hend|[(-> & _)|(_ & ? & _)]]; [congruence|lia|lia].
  - destruct Hend as [Hend|[(_ & e & Hend & _)|(_ & _ & [e Hend] & _)]];
      [|congruence..].
    split_and!; [congruence|done|done].
  - destruct (Hfalln k Hgt) as [_ [e He]]. congruence.
Qed.

(** When every attempt falls through, all are made and the error of the
    last one is raised. *)
Lemma loop_runs_out todo a last :
  retries = Z.of_nat (a + todo) →
  (a + todo ≤ 1024)%nat →
  (∀ i, (i ≤ todo)%nat → ∃ e, attempt (a + i)%nat = inr e) →
  attempts_made (loop (S todo) a last).2 = S todo
  ∧ ∃ e, attempt (a + todo)%nat = inr e ∧ (loop (S todo) a last).1 = Raise e.
Proof.
  intros Hretries Hsmall Hfall.
  destruct (loop_outcome todo a last Hretries)
    as (n & Hn & Hle & _ & _ & Hend).
  destruct Hend as [Hend|[(-> & e & He & Hres)|(? & ? & _)]]; [| |lia].
  - destruct (Hfall n Hle) as [e He]. congruence.
  - split; [done|]. by exists e.
Qed.

(** Attempts that fall through are followed by a further attempt while
    the limit allows and the pause can be computed. *)
Lemma loop_retries k todo a last :
  retries = Z.of_nat (a + todo) →
  (k ≤ todo)%nat → (a + k ≤ 1024)%nat →
  (∀ i, (i < k)%nat → ∃ e, attempt (a + i)%nat = inr e) →
  (k < attempts_made (loop (S todo) a last).2)%nat.
Proof.
  intros Hretries Hk Hsmall Hfall.
  destruct (loop_outcome todo a last Hretries)
    as (n & -> & Hle & _ & _ & Hend).
  destruct (decide (n < k)%nat) as [Hlt|]; [|lia].
  destruct (Hfall n Hlt) as [e He].
  destruct Hend as [Hend|[(-> & _)|(_ & ? & _)]]; [congruence|lia|lia].
Qed.

(** With a limit above 1024, the pause after attempt 1024 is never
    computed: 1025 attempts that fall through end the request. *)
Lemma loop_overflows todo a last :
  retries = Z.of_nat (a + todo) →
  (a ≤ 1024 < a + todo)%nat →
  (∀ i, (a + i ≤ 1024)%nat → ∃ e, attempt (a + i)%nat = inr e) →
  (loop (S todo) a last).1 = OverflowError
  ∧ (a + attempts_made (loop (S todo) a last).2 = 1025)%nat.
Proof.
  intros Hretries Hbig Hfall.
  destruct (loop_outcome todo a last Hretries)
    as (n & -> & Hle & Hfalln & _ & Hend).
  assert (a + n ≤ 1024)%nat as Hn.
  { destruct n as [|n]; [lia|]. destruct (Hfalln n) as [? _]; lia. }
  destruct (Hfall n Hn) as [e He].
  destruct Hend as [Hend|[(-> & _)|(_ & ? & _ & ->)]]; [congruence|lia|].
  split; [done|lia].
Qed.

(** Every attempt sends the same request. *)
Lemma loop_requests todo a last :
  Forall (λ r, r = req) (requests (loop todo a last).2).
Proof.
  revert a last. induction todo as [|todo IH]; intros a last; simpl.
  - constructor.
  - destruct (attempt_once _ _ _ _) as [res|e]; simpl; [by repeat constructor|].
    specialize (IH (S a) (Some e)).
    destruct (loop todo (S a) (Some e)) as [res evs]. simpl in IH.
    case_bool_decide; [destruct (retry_delay a)|]; simpl;
      by repeat constructor.
Qed.

Lemma loop_sends todo a last : requests (loop (S todo) a last).2 ≠ [].
Proof.
  simpl. destruct (attempt_once _ _ _ _) as [res|e]; [done|].
  destruct (loop todo (S a) (Some e)) as [res evs].
  by case_bool_decide; [destruct (retry_delay a)|].
Qed.

(** The loop never makes more attempts than it has iterations. *)
Lemma loop_at_most todo a last :
  (attempts_made (loop todo a last).2 ≤ todo)%nat.
Proof.
  unfold attempts_made.
  revert a last. induction todo as [|todo IH]; intros a last; simpl.
  - done.
  - destruct (attempt_once _ _ _ _) as [res|e]; simpl; [lia|].
    specialize (IH (S a) (Some e)).
    destruct (loop todo (S a) (Some e)) as [res evs]. simpl in IH.
    case_bool_decide; [destruct (retry_delay a)|]; simpl; lia.
Qed.

End Retry.

(** *** Single attempts *)

Lemma retryable_falls_through {J : Type} method path (o : @outcome J) :
  retryable o = true → ∃ e, attempt_once true method path o = inr e.
Proof.
  destruct o as [resp|detail]; simpl; [|by eexists].
  unfold no_retry. intros [->%Z.eqb_eq|Hhi%Z.leb_le]%orb_true_iff.
  - by eexists.
  - rewrite bool_decide_true by lia.
    assert (status_code resp <? 500 = false) as -> by lia.
    rewrite andb_false_r. simpl. by eexists.
Qed.

Lemma transient_retryable {J : Type} (o : @outcome J) :
  transient o = true → retryable o = true.
Proof.
  destruct o as [resp|detail]; simpl; [|done]. intros ->. done.
Qed.

Lemma client_error_raises {J : Type} method path (resp : @HttpResponse J) :
  client_error resp = true →
  attempt_once true method path (Responded resp) =
    inl (Raise (FiveSimError (error_message method path (status_code resp))
                  (status_code resp) (decode resp))).
Proof.
  unfold client_error, attempt_once, no_retry. intros Herr.
  apply andb_true_iff in Herr as [[Hlo Hhi]%andb_true_iff Hne].
  rewrite Hlo, Hhi, Hne. simpl.
  rewrite bool_decide_true by lia.
  assert (status_code resp =? 0 = false) as -> by lia. done.
Qed.

Lemma success_returns {J : Type} method path (resp : @HttpResponse J) :
  status_code resp < 400 →
  attempt_once true method path (Responded resp) = inl (Return (decode resp)).
Proof. intros Hok. simpl. by rewrite bool_decide_false by lia. Qed.

Lemma new_client_attempts token retries :
  Z.to_nat (_retries (new_client token retries) + 1)
    = S (Z.to_nat (_retries (new_client token retries))).
Proof. simpl. lia. Qed.

Lemma attempts_of_new_client token retries :
  Z.to_nat (_retries (new_client token retries) + 1)
    = S (Z.to_nat (_retries (new_client token retries)))
  ∧ _retries (new_client token retries)
      = Z.of_nat (0 + Z.to_nat (_retries (new_client token retries))).
Proof. simpl. lia. Qed.



Section Buy.

Context {J F : Type}.
Variable float_str : F → string.
Variable parse_float : string → option F.

Lemma put_opt_lookup k o (d : gmap string string) :
  put_opt k o d !! k = match o with Some v => Some v | None => d !! k end.
Proof. destruct o; simpl; [apply lookup_insert_eq|done]. Qed.

Lemma put_opt_lookup_ne k k' o (d : gmap string string) :
  k ≠ k' → put_opt k o d !! k' = d !! k'.
Proof. intros Hne. destruct o; simpl; [by apply lookup_insert_ne|done]. Qed.

(** The query carries [maxPrice] exactly when [max_price] is given. *)
Lemma buy_activation_params_maxPrice forwarding number reuse voice ref
    (max_price : option (pynum F)) :
  buy_activation_params float_str forwarding number reuse voice ref max_price
    !! "maxPrice" = num_str float_str <$> max_price.
Proof.
  unfold buy_activation_params. rewrite put_opt_lookup.
  destruct max_price; [done|]. simpl.
  by rewrite !put_opt_lookup_ne.
Qed.

Lemma buy_activation_requests (c : Client) (net : nat → @outcome J)
    country operator product forwarding number reuse voice ref
    (max_price : option (pynum F)) :
  Forall (λ r, has_param "maxPrice" r = bool_decide (is_Some max_price))
    (requests (buy_activation float_str c net country operator product
                 forwarding number reuse voice ref max_price).2).
Proof.
  unfold buy_activation, _request.
  eapply Forall_impl; [apply loop_requests|].
  intros r ->. unfold has_param. simpl.
  rewrite buy_activation_params_maxPrice. by destruct max_price.
Qed.

Lemma buy_activation_sends token retries (net : nat → @outcome J)
    country operator product forwarding number reuse voice ref
    (max_price : option (pynum F)) :
  requests (buy_activation float_str (new_client token retries) net country
              operator product forwarding number reuse voice ref max_price).2
    ≠ [].
Proof.
  unfold buy_activation, _request. rewrite new_client_attempts.
  apply loop_sends.
Qed.

End Buy.

(** C5 (maxPrice), as the code has it.  The guard is in the handler
    [buy_maxprice]: with an operator other than "any" in the FSM data, such
    as "beeline", and a max price typed in, it calls [buy_activation] with
    [max_price=None], and every HTTP request of the purchase goes out
    without a [maxPrice] parameter. [buy_activation] itself has no such
    guard: given a [max_price], it sends [maxPrice] whatever the operator. *)
Theorem buy_maxprice_omits_maxPrice (J F : Type) (float_str : F → string)
    (parse_float : string → option F) (token : option string) (retries : Z)
    (net : nat → @outcome J) (txt : string) (data : gmap string string) :
  let c := new_client token retries in
  (data !! "operator" ≠ Some "any"%string →
   is_Some (parse_float txt) →
   ∃ out,
     buy_maxprice float_str parse_float c net txt data = Some out
     ∧ requests out.2 ≠ []
     ∧ Forall (λ r, has_param "maxPrice" r = false) (requests out.2))
  ∧ (∀ country operator product forwarding number reuse voice ref n,
       let out := buy_activation float_str c net country operator product
                    forwarding number reuse voice ref (Some n) in
       requests out.2 ≠ []
       ∧ Forall (λ r, req_params r
                        = Some (buy_activation_params float_str forwarding
                                  number reuse voice ref (Some n))
                      ∧ has_param "maxPrice" r = true) (requests out.2)).
Proof.
  intros c. split.
  - intros Hop [f Hf]. unfold buy_maxprice. rewrite Hf.
    rewrite (bool_decide_false (data !! "operator" = _)) by done.
    case_bool_decide; simpl; eexists; (split; [done|]);
      (split; [apply buy_activation_sends|]);
      apply (buy_activation_requests float_str c net _ _ _ _ _ _ _ _ None).
  - intros country operator product forwarding number reuse voice ref n out.
    split; [apply buy_activation_sends|].
    pose proof (buy_activation_requests float_str c net country operator
                  product forwarding number reuse voice ref (Some n)) as Hall.
    fold out in Hall.
    assert (Forall (λ r, req_params r
                           = Some (buy_activation_params float_str forwarding
                                     number reuse voice ref (Some n)))
              (requests out.2)) as Hparams.
    { subst out. unfold buy_activation, _request.
      eapply Forall_impl; [apply loop_requests|]. by intros r ->. }
    rewrite Forall_forall in *. intros r Hr. split; [by apply Hparams|].
    by apply Hall.
Qed.

Lemma buy_maxprice_omits_maxPrice_witness :
  let c := new_client (Some "token"%string) default_retries in
  let data : gmap string string :=
    {[ "product" := "telegram"; "country" := "russia";
       "operator" := "beeline" ]}%string in
  (data !! "operator" = Some "beeline"%string
   ∧ example_parse_float "5" = Some tt)
  ∧ ∃ out,
      buy_maxprice example_float_str example_parse_float c always_ok "5" data
        = Some out
      ∧ requests out.2 ≠ []
      ∧ Forall (λ r, has_param "maxPrice" r = false) (requests out.2).
Proof.
  intros c data. split; [by split|].
  apply (buy_maxprice_omits_maxPrice unit unit example_float_str
           example_parse_float (Some "token"%string) default_retries always_ok
           "5" data).
  - vm_compute. discriminate.
  - by eexists.
Defined.

(** Called as in the specification's scenario, with operator "beeline"
    and [max_price=5], [buy_activation] sends one request, and it carries
    [maxPrice=5]. *)
Lemma buy_activation_beeline_sends_maxPrice :
  let out := buy_activation no_float_str
               (new_client (Some "token"%string) default_retries) always_ok
               (Some "russia"%string) (Some "beeline"%string)
               (Some "telegram"%string) None None None None None
               (Some (NumInt 5)) in
  (λ r, (req_url r, req_params r)) <$> requests out.2 =
    [("https://5sim.net/v1/user/buy/activation/russia/beeline/telegram"%string,
      Some {[ "maxPrice"%string := "5"%string ]})].
Proof. by vm_compute. Qed.

End FiveSimProofs.

(** ** More on the watcher *)

Module WatcherMore.
Import Watcher.

Lemma substring_0_length n s :
  String.length (substring 0 n s) = Nat.min n (String.length s).
Proof.
  revert s. induction n as [|n IH]; intros [|c s]; simpl; try done.
  by rewrite IH.
Qed.

Lemma substring_0_all n s :
  (String.length s ≤ n)%nat → substring 0 n s = s.
Proof.
  revert s. induction n as [|n IH]; intros [|c s]; simpl; try done; [lia|].
  intros Hlen. rewrite IH; [done|lia].
Qed.

Lemma substring_0_prefix n s : ∃ rest, s = substring 0 n s +:+ rest.
Proof.
  revert s. induction n as [|n IH]; intros [|c s]; simpl.
  - by exists EmptyString.
  - by exists (String c s).
  - by exists EmptyString.
  - destruct (IH s) as [rest Hrest]. exists rest.
    change (String c s = String c (substring 0 n s +:+ rest)). by f_equal.
Qed.

(** X1 ([_format_text]).  The text handed to the chat is a prefix of the
    given one, at most 4000 characters long, and the very text when that
    one is not longer; cutting twice changes nothing more. *)
Theorem format_text_cuts (text : string) :
  (String.length (_format_text text) ≤ 4000)%nat
  ∧ (∃ rest, text = _format_text text +:+ rest)
  ∧ ((String.length text ≤ 4000)%nat → _format_text text = text)
  ∧ _format_text (_format_text text) = _format_text text.
Proof.
  unfold _format_text. split_and!.
  - rewrite substring_0_length. lia.
  - apply substring_0_prefix.
  - apply substring_0_all.
  - apply substring_0_all. rewrite substring_0_length. lia.
Qed.

Lemma format_text_cuts_witness :
  (String.length "Order status: PENDING" ≤ 4000)%nat
  ∧ _format_text "Order status: PENDING" = "Order status: PENDING"%string.
Proof.
  split; [vm_compute; lia|].
  destruct (format_text_cuts "Order status: PENDING") as (_ & _ & Hsame & _).
  apply Hsame. vm_compute. lia.
Defined.

Section Runs.

Variable py_hash : pyval → pyval → Z.

Local Abbreviation sid := (sms_sid py_hash).
Local Abbreviation scan := (scan_sms py_hash).
Local Abbreviation tagged := (scan_tagged py_hash).
Local Abbreviation iter := (iteration py_hash).
Local Abbreviation run := (poll_loop py_hash).

Lemma run_cons st p rest :
  run st (p :: rest) =
    let it := iter st p in
    if it.2 then
      {| trace := it.1.2; finished := true; unread := rest; final := it.1.1 |}
    else
      let r := run it.1.1 rest in
      {| trace := it.1.2 ++ trace r; finished := finished r;
         unread := unread r; final := final r |}.
Proof. simpl. by destruct (iter st p) as [[st' evs] []]. Qed.

Lemma run_failure st rest :
  run st (None :: rest) =
    {| trace := EvPoll false :: EvSleep 5 :: trace (run st rest);
       finished := finished (run st rest);
       unread := unread (run st rest);
       final := final (run st rest) |}.
Proof. done. Qed.

(** The events of a successful iteration: the poll, its messages, and the
    backoff sleep unless the status is terminal. *)
Lemma iter_events st data :
  (iter st (Some data)).1.2 =
    EvPoll true
      :: (EvSend <$> sent (iter st (Some data)).1.2)
      ++ (if (iter st (Some data)).2 then []
          else [EvSleep (next_delay (backoff st))]).
Proof.
  unfold iteration. destruct (scan _ _) as [seen codes].
  unfold codes_events, status_events.
  destruct (is_terminal _), codes; case_bool_decide; done.
Qed.

Lemma iter_stop st p : (iter st p).2 = negb (keeps_polling p).
Proof.
  destruct p as [data|]; [|done]. unfold iteration.
  destruct (scan _ _) as [seen codes]. simpl.
  by destruct (is_terminal _).
Qed.

Lemma iter_seen st p :
  seen_sms_ids (iter st p).1.1 = (scan (seen_sms_ids st) (sms_of p)).1.
Proof.
  destruct p as [data|]; [|done]. unfold iteration. simpl.
  destruct (scan _ _) as [seen codes]. by destruct (is_terminal _).
Qed.

Lemma iter_backoff st p :
  backoff (iter st p).1.1 =
    if bool_decide (is_Some p) && keeps_polling p then advance (backoff st)
    else backoff st.
Proof.
  destruct p as [data|]; [|done]. unfold iteration. simpl.
  destruct (scan _ _) as [seen codes]. by destruct (is_terminal _).
Qed.

Lemma iter_messages st data :
  sent (iter st (Some data)).1.2 =
    sent (codes_events (scan (seen_sms_ids st) (sms_of (Some data))).2)
      ++ sent (status_events (last_status st) (py_str (resp_status data))).
Proof.
  unfold iteration. simpl. destruct (scan _ _) as [seen codes].
  unfold codes_events, status_events.
  destruct (is_terminal _), codes; case_bool_decide; done.
Qed.

Lemma sent_sends msgs : sent (EvSend <$> msgs) = msgs.
Proof.
  induction msgs as [|m msgs IH]; [done|].
  rewrite fmap_cons. cbn [sent]. by f_equal.
Qed.

Lemma sent_append tr1 tr2 : sent (tr1 ++ tr2) = sent tr1 ++ sent tr2.
Proof.
  induction tr1 as [|[] tr1 IH]; simpl; [done|done| |done]. by rewrite IH.
Qed.

Lemma delays_after_sends ok msgs tr :
  delays_after ok ((EvSend <$> msgs) ++ tr) = delays_after ok tr.
Proof. induction msgs; done. Qed.

Lemma sleeps_after_failure_sends ok msgs tr :
  sleeps_after_failure ok ((EvSend <$> msgs) ++ tr)
    = sleeps_after_failure ok tr.
Proof. induction msgs; done. Qed.

Lemma count_sends msgs tr :
  polls_made ((EvSend <$> msgs) ++ tr) = polls_made tr
  ∧ polls_ok ((EvSend <$> msgs) ++ tr) = polls_ok tr
  ∧ polls_failed ((EvSend <$> msgs) ++ tr) = polls_failed tr.
Proof. induction msgs; done. Qed.

(** A trace is empty or starts with a poll, so what came before it does
    not matter to the readers that look back to the latest poll. *)
Lemma run_trace_head st polls :
  trace (run st polls) = []
  ∨ ∃ ok tl, trace (run st polls) = EvPoll ok :: tl.
Proof.
  destruct polls as [|[data|] rest]; [by left| |right; by eexists _, _].
  right. rewrite run_cons. cbv zeta. rewrite iter_events.
  destruct ((iter st (Some data)).2); by eexists _, _.
Qed.

Lemma delays_after_run ok st polls :
  delays_after ok (trace (run st polls)) = backoff_delays (trace (run st polls)).
Proof. by destruct (run_trace_head st polls) as [->|(? & ? & ->)]. Qed.

Lemma sleeps_after_failure_run ok st polls :
  sleeps_after_failure ok (trace (run st polls))
    = recovery_delays (trace (run st polls)).
Proof. by destruct (run_trace_head st polls) as [->|(? & ? & ->)]. Qed.

(** A successful iteration, as the trace shows it. *)
Lemma run_success st data rest :
  let it := iter st (Some data) in
  run st (Some data :: rest) =
    if keeps_polling (Some data) then
      let r := run it.1.1 rest in
      {| trace := EvPoll true :: (EvSend <$> sent it.1.2)
                    ++ EvSleep (next_delay (backoff st)) :: trace r;
         finished := finished r; unread := unread r; final := final r |}
    else
      {| trace := EvPoll true :: (EvSend <$> sent it.1.2) ++ [];
         finished := true; unread := rest; final := it.1.1 |}.
Proof.
  cbv zeta. rewrite run_cons. cbv zeta.
  pose proof (iter_events st data) as Hev.
  pose proof (iter_stop st (Some data)) as Hstop.
  destruct (iter st (Some data)) as [[st' evs] stop]. cbn [fst snd] in *.
  subst stop. destruct (keeps_polling (Some data)); cbn [negb] in Hev |- *.
  - f_equal. rewrite Hev at 1. by rewrite <- app_comm_cons, <- app_assoc.
  - f_equal. by rewrite Hev at 1.
Qed.

Lemma sent_chunk ok msgs tl :
  sent (EvPoll ok :: (EvSend <$> msgs) ++ tl) = msgs ++ sent tl.
Proof. cbn [sent]. by rewrite sent_append, sent_sends. Qed.

(** *** Failed polls *)

Lemma failures_invisible st polls :
  let r := run st polls in
  let r' := run st (drop_failures polls) in
  sent (trace r) = sent (trace r')
  ∧ backoff_delays (trace r) = backoff_delays (trace r')
  ∧ polls_ok (trace r) = polls_ok (trace r')
  ∧ finished r = finished r'
  ∧ final r = final r'.
Proof.
  revert st. induction polls as [|[data|] rest IH]; intros st; [done| |].
  - change (drop_failures (Some data :: rest))
      with (Some data :: drop_failures rest).
    cbv zeta. rewrite !run_success. cbv zeta.
    destruct (keeps_polling (Some data)); [|done]. cbn [trace finished final].
    destruct (IH (iter st (Some data)).1.1) as (Hs & Hd & Hok & Hf & Hst).
    rewrite !sent_chunk. unfold backoff_delays.
    cbn [delays_after polls_ok sent]. rewrite !delays_after_sends.
    destruct (count_sends (sent (iter st (Some data)).1.2)
                (EvSleep (next_delay (backoff st))
                   :: trace (run (iter st (Some data)).1.1 rest)))
      as (_ & -> & _).
    destruct (count_sends (sent (iter st (Some data)).1.2)
                (EvSleep (next_delay (backoff st))
                   :: trace (run (iter st (Some data)).1.1
                               (drop_failures rest))))
      as (_ & -> & _).
    cbn [delays_after polls_ok]. rewrite !delays_after_run, Hs, Hd, Hok.
    done.
  - change (drop_failures (None :: rest)) with (drop_failures rest).
    rewrite run_failure. apply IH.
Qed.

Lemma recovery_delays_all_5 st polls :
  recovery_delays (trace (run st polls))
    = replicate (polls_failed (trace (run st polls))) 5.
Proof.
  revert st. induction polls as [|[data|] rest IH]; intros st; [done| |].
  - rewrite run_success. cbv zeta. unfold recovery_delays.
    destruct (keeps_polling (Some data)); cbn [trace];
      cbn [sleeps_after_failure polls_failed];
      rewrite sleeps_after_failure_sends.
    + destruct (count_sends (sent (iter st (Some data)).1.2)
                  (EvSleep (next_delay (backoff st))
                     :: trace (run (iter st (Some data)).1.1 rest)))
        as (_ & _ & ->).
      cbn [sleeps_after_failure polls_failed].
      rewrite sleeps_after_failure_run. apply IH.
    + by destruct (count_sends (sent (iter st (Some data)).1.2) [])
        as (_ & _ & ->).
  - rewrite run_failure. unfold recovery_delays.
    cbn [trace sleeps_after_failure polls_failed replicate].
    rewrite sleeps_after_failure_run. f_equal. apply IH.
Qed.

Lemma polls_made_split st polls :
  polls_made (trace (run st polls))
    = (polls_ok (trace (run st polls)) + polls_failed (trace (run st polls)))%nat.
Proof.
  generalize (trace (run st polls)). intros tr.
  induction tr as [|[[]| |] tr IH]; simpl; lia.
Qed.

(** *** Leaving the loop *)

Lemma polls_made_iter st p : polls_made (iter st p).1.2 = 1%nat.
Proof.
  destruct p as [data|]; [|done]. rewrite iter_events. cbn [polls_made].
  by destruct (count_sends (sent (iter st (Some data)).1.2)
                 (if (iter st (Some data)).2 then []
                  else [EvSleep (next_delay (backoff st))])) as (-> & _);
    destruct ((iter st (Some data)).2).
Qed.

Lemma polls_made_append tr1 tr2 :
  polls_made (tr1 ++ tr2) = (polls_made tr1 + polls_made tr2)%nat.
Proof.
  induction tr1 as [|[] tr1 IH]; simpl; [done| |done|done]. by rewrite IH.
Qed.

(** *** Dedup over the whole run *)

Lemma unread_shorter st polls :
  (length (unread (run st polls)) ≤ length polls)%nat.
Proof.
  revert st. induction polls as [|p rest IH]; intros st; [done|].
  rewrite run_cons. cbv zeta. destruct ((iter st p).2); simpl; [lia|].
  specialize (IH (iter st p).1.1). lia.
Qed.

Lemma consumed_step st p rest :
  consumed (p :: rest) (run st (p :: rest)) =
    p :: (if (iter st p).2 then []
          else consumed rest (run (iter st p).1.1 rest)).
Proof.
  unfold consumed. rewrite run_cons. cbv zeta.
  destruct ((iter st p).2); cbn [unread length].
  - replace (S (length rest) - length rest)%nat with 1%nat by lia.
    by rewrite firstn_cons, take_0.
  - pose proof (unread_shorter (iter st p).1.1 rest).
    replace (S (length rest) - length (unread (run (iter st p).1.1 rest)))%nat
      with (S (length rest - length (unread (run (iter st p).1.1 rest))))
      by lia.
    done.
Qed.

Lemma notified_step st p rest :
  notified py_hash st (p :: rest) =
    tagged (seen_sms_ids st) (sms_of p)
      ++ (if (iter st p).2 then []
          else notified py_hash (iter st p).1.1 rest).
Proof.
  unfold notified. simpl. destruct (iter st p) as [[st' evs] stop].
  destruct p as [data|]; simpl; by destruct stop.
Qed.

Lemma tagged_app seen l1 l2 :
  tagged seen (l1 ++ l2) = tagged seen l1 ++ tagged (scan seen l1).1 l2.
Proof.
  revert seen. induction l1 as [|s l1 IH]; intros seen; simpl; [done|].
  case_decide; [apply IH|].
  rewrite IH, <- app_assoc. destruct (scan _ l1); done.
Qed.

Lemma scan_seen_set seen l :
  (scan seen l).1 = seen ∪ list_to_set (sid <$> l).
Proof.
  revert seen. induction l as [|s l IH]; intros seen; simpl.
  - set_solver.
  - case_decide.
    + rewrite IH. set_solver.
    + specialize (IH ({[sid s]} ∪ seen)).
      destruct (scan _ l) as [seen' codes]. simpl in *. set_solver.
Qed.

(** Dedup across polls is dedup over the lists laid end to end. *)
Lemma notified_as_one_scan st polls :
  let l := all_sms (consumed polls (run st polls)) in
  notified py_hash st polls = tagged (seen_sms_ids st) l
  ∧ seen_sms_ids (final (run st polls))
      = seen_sms_ids st ∪ list_to_set (sid <$> l).
Proof.
  revert st. induction polls as [|p rest IH]; intros st.
  - cbv zeta. simpl. split; [done|]. set_solver.
  - cbv zeta. rewrite consumed_step, notified_step, run_cons. cbv zeta.
    unfold all_sms. rewrite fmap_cons. cbn [concat].
    fold (all_sms (if (iter st p).2 then []
                   else consumed rest (run (iter st p).1.1 rest))).
    rewrite tagged_app, fmap_app, list_to_set_app_L.
    destruct (IH (iter st p).1.1) as [Hn Hs].
    destruct ((iter st p).2); cbn [final].
    + unfold all_sms. simpl. rewrite iter_seen, scan_seen_set.
      split; [done|]. set_solver.
    + rewrite Hn, Hs, iter_seen, scan_seen_set. split; [done|]. set_solver.
Qed.

(** What one scan lets through: the first entry of each new [sid], when it
    carries a code. *)
Lemma tagged_first_sighting seen l k c :
  (k, c) ∈ tagged seen l ↔
    k ∉ seen
    ∧ ∃ l1 s l2,
        l = l1 ++ s :: l2 ∧ sid s = k ∧ k ∉ (sid <$> l1)
        ∧ truthy (sms_code s) = true ∧ c = py_str (sms_code s).
Proof.
  revert seen. induction l as [|s0 l IH]; intros seen.
  - split.
    + by intros ?%elem_of_nil.
    + intros (_ & l1 & s & l2 & Hl & _). by destruct l1.
  - simpl. split.
    + case_decide as Hin.
      * intros (Hk & l1 & s & l2 & -> & Hs & Hl1 & Hc & ->)%IH.
        split; [done|]. exists (s0 :: l1), s, l2. split_and!; try done.
        rewrite fmap_cons, not_elem_of_cons. split; [|done]. by intros ->.
      * rewrite elem_of_app. intros [Hhead|Htail].
        -- destruct (truthy (sms_code s0)) eqn:Hc; simpl in Hhead;
             [|by apply elem_of_nil in Hhead].
           apply list_elem_of_singleton in Hhead as [= -> ->].
           split; [done|]. exists [], s0, l. split_and!; try done.
           apply not_elem_of_nil.
        -- apply IH in Htail as (Hk & l1 & s & l2 & -> & Hs & Hl1 & Hc & ->).
           split; [set_solver|]. exists (s0 :: l1), s, l2.
           split_and!; try done.
           rewrite fmap_cons, not_elem_of_cons. split; [set_solver|done].
    + intros (Hk & l1 & s & l2 & Hl & Hs & Hl1 & Hc & ->).
      destruct l1 as [|s1 l1]; simpl in Hl; injection Hl as -> ->.
      * rewrite Hs. rewrite decide_False by done. rewrite Hc.
        apply elem_of_app. left. rewrite <- Hs. apply list_elem_of_here.
      * rewrite fmap_cons, not_elem_of_cons in Hl1. destruct Hl1 as [Hne Hl1].
        case_decide.
        -- apply IH. split; [done|]. by exists l1, s, l2.
        -- apply elem_of_app. right. apply IH. split; [set_solver|].
           by exists l1, s, l2.
Qed.

(** *** The messages *)

Lemma sent_Forall (P : string → Prop) st polls :
  (∀ codes, P (codes_message codes)) → (∀ status, P (status_message status)) →
  Forall P (sent (trace (run st polls))).
Proof.
  intros Hcodes Hstatus. revert st.
  induction polls as [|[data|] rest IH]; intros st; [constructor| |].
  - assert (Forall P (sent (iter st (Some data)).1.2)) as Hhead.
    { rewrite iter_messages. unfold codes_events, status_events.
      destruct (scan _ _).2; case_bool_decide; simpl; repeat constructor;
        done. }
    rewrite run_success. cbv zeta.
    destruct (keeps_polling (Some data)); cbn [trace]; rewrite sent_chunk.
    + apply Forall_app. split; [done|]. apply IH.
    + by rewrite app_nil_r.
  - rewrite run_failure. apply IH.
Qed.

Lemma messages_per_poll st polls :
  let tr := trace (run st polls) in
  (length (code_notifications tr) ≤ polls_ok tr)%nat
  ∧ (length (status_notifications tr) ≤ polls_ok tr)%nat
  ∧ length (sent tr)
      = (length (code_notifications tr) + length (status_notifications tr))%nat.
Proof.
  revert st. induction polls as [|[data|] rest IH]; intros st;
    [cbv zeta; simpl; lia| |].
  - assert (let msgs := sent (iter st (Some data)).1.2 in
            (length (List.filter is_codes_text msgs) ≤ 1)%nat
            ∧ (length (List.filter is_status_text msgs) ≤ 1)%nat
            ∧ length msgs = (length (List.filter is_codes_text msgs)
                             + length (List.filter is_status_text msgs))%nat)
      as (Hc & Hs & Hall).
    { cbv zeta. rewrite iter_messages. unfold codes_events, status_events.
      destruct (scan _ _).2; case_bool_decide; simpl; lia. }
    cbv zeta. rewrite run_success. cbv zeta.
    unfold code_notifications, status_notifications.
    destruct (keeps_polling (Some data)); cbn [trace];
      rewrite sent_chunk, !List.filter_app, !length_app; cbn [polls_ok];
      [destruct (count_sends (sent (iter st (Some data)).1.2)
                  (EvSleep (next_delay (backoff st))
                     :: trace (run (iter st (Some data)).1.1 rest)))
         as (_ & -> & _)
      |destruct (count_sends (sent (iter st (Some data)).1.2) [])
         as (_ & -> & _)].
    + specialize (IH (iter st (Some data)).1.1). cbv zeta in IH.
      unfold code_notifications, status_notifications in IH.
      cbn [sent polls_ok]. lia.
    + cbn [sent polls_ok List.filter length]. lia.
  - rewrite run_failure. cbn [trace]. apply IH.
Qed.

(** *** Raw answers *)

Local Abbreviation goes := (λ p : raw_poll, outcome_kind p = Polling).

Lemma watch_step p rest st :
  watch py_hash st (p :: rest) =
    match poll_of p with
    | None =>
        {| seen_events := [EvPoll true]; end_state := Escaped;
           left_over := rest |}
    | Some q =>
        if (iter st q).2 then
          {| seen_events := (iter st q).1.2; end_state := Broke;
             left_over := rest |}
        else
          let w := watch py_hash (iter st q).1.1 rest in
          {| seen_events := (iter st q).1.2 ++ seen_events w;
             end_state := end_state w; left_over := left_over w |}
    end.
Proof.
  simpl. destruct (poll_of p) as [q|]; [|done].
  by destruct (iter st q) as [[st' evs] []].
Qed.

(** A poll after which the loop goes on is one [iteration] takes and
    does not stop at. *)
Lemma goes_inv p :
  goes p → ∃ q, poll_of p = Some q ∧ keeps_polling q = true.
Proof.
  unfold outcome_kind. destruct (poll_of p) as [q|]; [|done].
  destruct (keeps_polling q) eqn:Hq; [|done]. by exists q.
Qed.

(** On answers of the expected shape the raw loop is the loop. *)
Lemma watch_agrees st polls qs :
  poll_of <$> polls = Some <$> qs →
  let w := watch py_hash st polls in
  seen_events w = trace (run st qs)
  ∧ end_state w = (if finished (run st qs) then Broke else Polling)
  ∧ poll_of <$> left_over w = Some <$> unread (run st qs).
Proof.
  revert st qs. induction polls as [|p rest IH]; intros st qs Hqs.
  - destruct qs; [done|discriminate].
  - destruct qs as [|q qs]; [discriminate|].
    rewrite !fmap_cons in Hqs. injection Hqs as Hp Hrest.
    cbv zeta. rewrite watch_step, run_cons, Hp. cbv zeta.
    destruct ((iter st q).2); cbn [seen_events end_state left_over
                                   trace finished unread]; [done|].
    destruct (IH (iter st q).1.1 qs Hrest) as (-> & -> & ->). done.
Qed.

(** While the polls keep it going, the loop reads them all. *)
Lemma watch_goes_on st polls :
  Forall goes polls →
  let w := watch py_hash st polls in
  end_state w = Polling ∧ left_over w = []
  ∧ polls_made (seen_events w) = length polls.
Proof.
  revert st. induction polls as [|p rest IH]; intros st Hgo; [done|].
  apply Forall_cons in Hgo as [(q & Hp & Hq)%goes_inv Hrest].
  cbv zeta. rewrite watch_step, Hp, iter_stop, Hq.
  cbn [negb seen_events end_state left_over].
  destruct (IH (iter st q).1.1 Hrest) as (-> & -> & Hn).
  split_and!; [done..|].
  rewrite polls_made_append, polls_made_iter, Hn. done.
Qed.

(** The first poll that does not keep the loop going decides how it
    ends. *)
Lemma watch_first st pre p rest :
  Forall goes pre → ¬ goes p →
  let w := watch py_hash st (pre ++ p :: rest) in
  end_state w = outcome_kind p
  ∧ left_over w = rest
  ∧ polls_made (seen_events w) = S (length pre)
  ∧ (outcome_kind p = Escaped →
     seen_events w = seen_events (watch py_hash st pre) ++ [EvPoll true]).
Proof.
  revert st. induction pre as [|p0 pre IH]; intros st Hgo Hp.
  - cbv zeta. cbn [app]. rewrite watch_step. unfold outcome_kind in *.
    destruct (poll_of p) as [q|]; [|done].
    destruct (keeps_polling q) eqn:Hq; [done|].
    rewrite iter_stop, Hq. cbn [negb seen_events end_state left_over].
    split_and!; [done|done|apply polls_made_iter|done].
  - apply Forall_cons in Hgo as [(q & Hp0 & Hq)%goes_inv Hpre].
    cbv zeta. change ((p0 :: pre) ++ p :: rest) with (p0 :: (pre ++ p :: rest)).
    rewrite !watch_step, Hp0, iter_stop, Hq.
    cbn [negb seen_events end_state left_over].
    destruct (IH (iter st q).1.1 Hpre Hp) as (-> & -> & Hn & Hesc).
    split_and!; [done|done| |].
    + rewrite polls_made_append, polls_made_iter, Hn. done.
    + intros Hk. by rewrite (Hesc Hk), app_assoc.
Qed.

(** Either all polls keep the loop going, or there is a first one that
    does not. *)
Lemma first_decisive polls :
  Forall goes polls
  ∨ ∃ pre p rest, polls = pre ++ p :: rest ∧ Forall goes pre ∧ ¬ goes p.
Proof.
  induction polls as [|p polls [IH|(pre & p' & rest & -> & Hpre & Hp')]].
  - left. constructor.
  - destruct (decide (goes p)) as [Hp|Hp].
    + left. by constructor.
    + right. exists [], p, polls. split_and!; [done|constructor|done].
  - destruct (decide (goes p)) as [Hp|Hp].
    + right. exists (p :: pre), p', rest. split_and!; [done| |done].
      by constructor.
    + right. exists [], p, (pre ++ p' :: rest).
      split_and!; [done|constructor|done].
Qed.

End Runs.

(** X2 (failed polls).  A poll that raises costs one 5-second sleep and
    nothing else: the chat messages, the backoff delays, the final state
    and whether the loop has ended are those of the run over the same
    outcomes with the failures taken out; and the recovery sleeps are
    all 5 seconds, one per failed poll. *)
Theorem failed_polls_only_delay (py_hash : pyval → pyval → Z)
    (polls : list poll_result) :
  let r := _poll_order_updates py_hash polls in
  let r' := _poll_order_updates py_hash (drop_failures polls) in
  sent (trace r) = sent (trace r')
  ∧ backoff_delays (trace r) = backoff_delays (trace r')
  ∧ finished r = finished r'
  ∧ final r = final r'
  ∧ recovery_delays (trace r) = replicate (polls_failed (trace r)) 5
  ∧ polls_made (trace r) = (polls_ok (trace r') + polls_failed (trace r))%nat.
Proof.
  unfold _poll_order_updates. cbv zeta.
  destruct (failures_invisible py_hash init polls) as (Hs & Hd & Hok & Hf & Hst).
  split_and!; [done..|apply recovery_delays_all_5|].
  rewrite <- Hok. apply polls_made_split.
Qed.



(** X4 (dedup across polls).  The codes notified over a whole run are
    those that a single pass of the dedup loop lets through on the SMS
    lists of the consumed polls laid end to end; and [seen_sms_ids] ends up
    holding exactly the [sid]s of the entries met. *)
Theorem dedup_is_one_scan (py_hash : pyval → pyval → Z)
    (polls : list poll_result) :
  let r := _poll_order_updates py_hash polls in
  let l := all_sms (consumed polls r) in
  notified py_hash init polls = scan_tagged py_hash ∅ l
  ∧ (notified py_hash init polls).*2 = (scan_sms py_hash ∅ l).2
  ∧ seen_sms_ids (final r) = list_to_set (sms_sid py_hash <$> l).
Proof.
  unfold _poll_order_updates. cbv zeta.
  destruct (notified_as_one_scan py_hash init polls) as [Hn Hs].
  split_and!.
  - done.
  - rewrite WatcherProofs.scan_tagged_erase. cbv zeta in Hn.
    change (seen_sms_ids init) with (∅ : gset sms_key) in Hn.
    by rewrite <- Hn.
  - rewrite Hs. simpl. set_solver.
Qed.

(** X5 (which codes are notified).  The codes messages of a run are made,
    one each, from the non-empty batches of new codes of its polls, and
    these batches hold, in order, the codes that one pass of the dedup loop
    selects from the SMS entries of the consumed polls. A code enters a
    batch exactly when, among those entries in the order met, the first
    entry with its [sid] carries a code, and it is that entry's code:
    every first sighting with a code counts, later entries with the same
    [sid] never do. The message carries its batch in full when it fits in
    4000 characters, and is cut there otherwise. *)
Theorem notified_iff_first_sighting (py_hash : pyval → pyval → Z)
    (polls : list poll_result) :
  let r := _poll_order_updates py_hash polls in
  let l := all_sms (consumed polls r) in
  code_notifications (trace r)
    = (λ b, codes_message (b.*2))
        <$> filter (λ b, b ≠ []) (code_batches py_hash init polls)
  ∧ (notified py_hash init polls).*2 = (scan_sms py_hash ∅ l).2
  ∧ (∀ k c,
       (k, c) ∈ notified py_hash init polls ↔
         ∃ l1 s l2,
           l = l1 ++ s :: l2
           ∧ sms_sid py_hash s = k
           ∧ k ∉ (sms_sid py_hash <$> l1)
           ∧ truthy (sms_code s) = true
           ∧ c = py_str (sms_code s))
  ∧ (∀ c,
       c ∈ (scan_sms py_hash ∅ l).2 ↔
         ∃ l1 s l2,
           l = l1 ++ s :: l2
           ∧ sms_sid py_hash s ∉ (sms_sid py_hash <$> l1)
           ∧ truthy (sms_code s) = true
           ∧ c = py_str (sms_code s))
  ∧ (∀ codes,
       let text := ("New code(s) received: " +:+ join ", " codes)%string in
       codes_message codes = substring 0 4000 text
       ∧ ((String.length text ≤ 4000)%nat → codes_message codes = text)).
Proof.
  unfold _poll_order_updates. cbv zeta.
  destruct (notified_as_one_scan py_hash init polls) as [Hn _].
  cbv zeta in Hn. change (seen_sms_ids init) with (∅ : gset sms_key) in Hn.
  split_and!.
  - apply WatcherProofs.code_notifications_batches.
  - by rewrite WatcherProofs.scan_tagged_erase, <- Hn.
  - intros k c. rewrite Hn, tagged_first_sighting. split.
    + by intros [_ ?].
    + intros ?. split; [apply not_elem_of_empty|done].
  - intros c. rewrite WatcherProofs.scan_tagged_erase, list_elem_of_fmap.
    split.
    + intros ([k c'] & -> & (_ & l1 & s & l2 & ? & <- & ? & ? & ?)
                              %tagged_first_sighting).
      by exists l1, s, l2.
    + intros (l1 & s & l2 & Hl & Hl1 & Hc & ->).
      exists (sms_sid py_hash s, py_str (sms_code s)). split; [done|].
      apply tagged_first_sighting. split; [apply not_elem_of_empty|].
      by exists l1, s, l2.
  - intros codes. split; [done|]. apply substring_0_all.
Qed.

Lemma notified_iff_first_sighting_witness :
  let late := {| sms_id := PyInt 2; sms_code := PyStr "999";
                 sms_text := PyNone; sms_date := PyNone |} in
  let polls := [poll_ok "RECEIVED" [sms_with 1 "123"]; None;
                poll_ok "RECEIVED" [sms_with 1 "123"; sms_with 2 "456"];
                poll_ok "FINISHED" [late]] in
  (all_sms (consumed polls (_poll_order_updates zero_hash polls))
     = [sms_with 1 "123"; sms_with 1 "123"] ++ sms_with 2 "456" :: [late]
   ∧ truthy (sms_code (sms_with 2 "456")) = true)
  ∧ (KInt 2, "456"%string) ∈ notified zero_hash init polls.
Proof.
  intros late polls. split; [by split|].
  destruct (notified_iff_first_sighting zero_hash polls)
    as (_ & _ & Hiff & _ & _).
  apply (Hiff (KInt 2) "456"%string).
  exists [sms_with 1 "123"; sms_with 1 "123"], (sms_with 2 "456"), [late].
  split_and!; try reflexivity.
  intros Hin. by repeat (apply elem_of_cons in Hin as [?|Hin]; [done|]);
    apply elem_of_nil in Hin.
Defined.

(** X6 (chat messages).  Every message the watcher sends is at most 4000
    characters long and is either a codes message or a status message. *)
Theorem watcher_messages_bounded (py_hash : pyval → pyval → Z)
    (polls : list poll_result) :
  Forall (λ m, (String.length m ≤ 4000)%nat
               ∧ (is_codes_text m = true ∨ is_status_text m = true))
    (sent (trace (_poll_order_updates py_hash polls))).
Proof.
  unfold _poll_order_updates. apply sent_Forall.
  - intros codes. split; [|left; apply codes_message_is_codes].
    unfold codes_message, _format_text. rewrite substring_0_length. lia.
  - intros status. split; [|right; apply status_message_is_status].
    unfold status_message, _format_text. rewrite substring_0_length. lia.
Qed.

(** X7 (notification volume).  However many codes a poll brings, the
    watcher sends at most one codes message and at most one status message
    per successful poll, and nothing else: the number of messages is the
    number of codes messages plus the number of status messages, and each
    is bounded by the number of successful polls. *)
Theorem one_message_of_each_kind_per_poll (py_hash : pyval → pyval → Z)
    (polls : list poll_result) :
  let tr := trace (_poll_order_updates py_hash polls) in
  (length (code_notifications tr) ≤ polls_ok tr)%nat
  ∧ (length (status_notifications tr) ≤ polls_ok tr)%nat
  ∧ length (sent tr)
      = (length (code_notifications tr) + length (status_notifications tr))%nat.
Proof. unfold _poll_order_updates. apply messages_per_poll. Qed.

End WatcherMore.

(** ** More on the cache *)

Module TTLCacheMore.
Import TTLCache.

Section Lookup.

Context {V : Type}.
Implicit Types (c : gmap string (Z * option V)) (k : string) (v : option V).

Lemma get_cases c k now :
  (get k now c).1 = None ∧ ((get k now c).2 = c ∨ (get k now c).2 = delete k c)
  ∨ ∃ exp x, c !! k = Some (exp, Some x) ∧ ¬ exp < now
             ∧ get k now c = (Some x, c).
Proof.
  unfold get. destruct (c !! k) as [[exp [x|]]|] eqn:Hk; simpl.
  - case_bool_decide; [left; auto|right; by exists exp, x].
  - left. case_bool_decide; auto.
  - left. auto.
Qed.

Lemma get_after_set c k v ttl t0 t :
  get k t (set k v ttl t0 c) =
    if bool_decide (t0 + ttl < t) then (None, delete k c)
    else (v, set k v ttl t0 c).
Proof.
  unfold get, set. rewrite lookup_insert_eq.
  case_bool_decide; [|done]. by rewrite delete_insert_eq.
Qed.

Lemma lookup_other_key c k k' ttl now now' net :
  k ≠ k' → (on_prices_lookup k ttl now now' net c).2 !! k' = c !! k'.
Proof.
  intros Hne. unfold on_prices_lookup.
  assert ((get k now c).2 !! k' = c !! k') as Hget.
  { unfold get. destruct (c !! k) as [[exp v]|]; [|done].
    case_bool_decide; simpl; [by rewrite lookup_delete_ne|done]. }
  destruct (get k now c) as [[x|] c1]; simpl in *; [done|].
  destruct net; simpl; [|done]. unfold set. by rewrite lookup_insert_ne.
Qed.

(** A lookup that had to fetch and got [data] leaves it stored until
    [now' + ttl]. *)
Lemma lookup_miss_stores c k ttl now now' data :
  (get k now c).1 = None →
  ∃ c1, on_prices_lookup k ttl now now' (Fetched data) c
          = (true, Some data, set k data ttl now' c1)
        ∧ (c1 = c ∨ c1 = delete k c).
Proof.
  intros Hmiss. unfold on_prices_lookup.
  destruct (get_cases c k now) as [[_ Hc1]|(exp & x & _ & _ & Hget)].
  - destruct (get k now c) as [cached c1]. simpl in *. subst cached.
    by exists c1.
  - rewrite Hget in Hmiss. done.
Qed.

(** After a failed fetch, a [get] on the cache still misses. *)
Lemma lookup_failure_still_misses c k ttl now now' t :
  (get k now c).1 = None →
  (get k t (on_prices_lookup k ttl now now' FetchFailed c).2).1 = None.
Proof.
  intros Hmiss. unfold on_prices_lookup.
  destruct (get k now c) as [cached c1] eqn:Hget. simpl in *. subst cached.
  simpl. unfold get in *.
  destruct (c !! k) as [[exp [x|]]|] eqn:Hk.
  - case_bool_decide; [|done]. injection Hget as <-.
    by rewrite lookup_delete_eq.
  - case_bool_decide; injection Hget as <-.
    + by rewrite lookup_delete_eq.
    + rewrite Hk. by case_bool_decide.
  - injection Hget as <-. by rewrite Hk.
Qed.

End Lookup.

Lemma prices_key_inj p1 p2 : prices_key p1 = prices_key p2 → p1 = p2.
Proof. unfold prices_key. intros H. by simplify_eq/=. Qed.

Lemma prices_key_not_countries p : prices_key p ≠ "countries:list"%string.
Proof. unfold prices_key. intros H. by simplify_eq/=. Qed.

(** X8 (cache window).  When the lookup of [on_prices] misses and the
    fetch returns an object other than [None], the provider is called once
    and the object is stored; a second lookup of the same key while
    [now' + ttl] has not passed calls nobody and returns that object,
    leaving the cache as it is; once it has passed, the provider is called
    again. *)
Theorem cached_lookup_window (V : Type) (c : gmap string (Z * option V))
    (k : string) (ttl now now' : Z) (x : V) (t t' : Z)
    (net : @fetch_outcome V) :
  (get k now c).1 = None →
  let first := on_prices_lookup k ttl now now' (Fetched (Some x)) c in
  let second := on_prices_lookup k ttl t t' net first.2 in
  first.1 = (true, Some (Some x))
  ∧ (¬ now' + ttl < t → second = (false, Some (Some x), first.2))
  ∧ (now' + ttl < t → second.1.1 = true).
Proof.
  intros Hmiss first second. subst second first.
  destruct (lookup_miss_stores c k ttl now now' (Some x) Hmiss)
    as (c1 & -> & _).
  cbn [fst snd]. split_and!; [done| |].
  - intros Hlive. unfold on_prices_lookup. rewrite get_after_set.
    by rewrite bool_decide_false.
  - intros Hexp. unfold on_prices_lookup. rewrite get_after_set.
    rewrite bool_decide_true by done. by destruct net.
Qed.

Lemma cached_lookup_window_witness :
  let k := prices_key "telegram" in
  let c : gmap string (Z * option Z) := ∅ in
  let first := on_prices_lookup k 60 1000 1001 (Fetched (Some 7)) c in
  (get k 1000 c).1 = None
  ∧ first.1 = (true, Some (Some 7))
  ∧ on_prices_lookup k 60 1061 1062 FetchFailed first.2
      = (false, Some (Some 7), first.2)
  ∧ (on_prices_lookup k 60 1062 1063 (Fetched (Some 8)) first.2).1.1 = true.
Proof.
  intros k c first. split; [reflexivity|].
  destruct (cached_lookup_window Z c k 60 1000 1001 7 1061 1062 FetchFailed)
    as (Hfirst & Hhit & _); [reflexivity|].
  destruct (cached_lookup_window Z c k 60 1000 1001 7 1062 1063
              (Fetched (Some 8))) as (_ & _ & Hagain); [reflexivity|].
  split; [exact Hfirst|]. split.
  - apply Hhit. lia.
  - apply Hagain. lia.
Defined.

(** X9 (failed fetch).  When the lookup misses and the fetch fails, the
    handler gets no data, nothing is stored for the key, and the next
    lookup, whenever it comes, calls the provider again. *)
Theorem failed_fetch_not_cached (V : Type) (c : gmap string (Z * option V))
    (k : string) (ttl now now' : Z) (t t' : Z) (net : @fetch_outcome V) :
  (get k now c).1 = None →
  let first := on_prices_lookup k ttl now now' FetchFailed c in
  first.1 = (true, None)
  ∧ (get k t first.2).1 = None
  ∧ (on_prices_lookup k ttl t t' net first.2).1.1 = true.
Proof.
  intros Hmiss first.
  pose proof (lookup_failure_still_misses c k ttl now now' t Hmiss) as Hstill.
  fold first in Hstill. split_and!; [|done|].
  - subst first. unfold on_prices_lookup.
    destruct (get k now c) as [cached c1]. simpl in Hmiss. by subst cached.
  - unfold on_prices_lookup at 1.
    destruct (get k t first.2) as [cached c2]. simpl in Hstill. subst cached.
    by destruct net.
Qed.

Lemma failed_fetch_not_cached_witness :
  let k := prices_key "telegram" in
  let c : gmap string (Z * option Z) := set k (Some 7) 60 1000 ∅ in
  let first := on_prices_lookup k 60 1100 1101 FetchFailed c in
  (get k 1100 c).1 = None
  ∧ first.1 = (true, None)
  ∧ (get k 1102 first.2).1 = None
  ∧ (on_prices_lookup k 60 1102 1103 (Fetched (Some 8)) first.2).1.1 = true.
Proof.
  intros k c first. split; [reflexivity|].
  apply (failed_fetch_not_cached Z c k 60 1100 1101 1102 1103
           (Fetched (Some 8))).
  reflexivity.
Defined.

(** X10 (keys do not interfere).  Different products have different cache
    keys, none of which is the key of the countries list, and a lookup
    under one key, whatever it fetches or evicts, leaves the entry of every
    other key as it was. *)
Theorem cache_keys_independent (V : Type) (c : gmap string (Z * option V))
    (k k' : string) (ttl now now' : Z) (net : @fetch_outcome V) :
  (∀ p1 p2, prices_key p1 = prices_key p2 → p1 = p2)
  ∧ (∀ p, prices_key p ≠ "countries:list"%string)
  ∧ (k ≠ k' → (on_prices_lookup k ttl now now' net c).2 !! k' = c !! k').
Proof.
  split_and!.
  - apply prices_key_inj.
  - apply prices_key_not_countries.
  - apply lookup_other_key.
Qed.

Lemma cache_keys_independent_witness :
  let countries := "countries:list"%string in
  let c : gmap string (Z * option Z) := set countries (Some 1) 300 1000 ∅ in
  prices_key "telegram" ≠ countries
  ∧ (on_prices_lookup (prices_key "telegram") 60 2000 2001
       (Fetched (Some 7)) c).2 !! countries = c !! countries.
Proof.
  intros countries c.
  destruct (cache_keys_independent Z c (prices_key "telegram") countries
              60 2000 2001 (Fetched (Some 7))) as (_ & Hne & Hother).
  split; [apply Hne|]. apply Hother, Hne.
Defined.

End TTLCacheMore.

(** ** More on the provider client *)

Module FiveSimMore.
Import FiveSim FiveSimProofs.

Lemma attempt_returns {J : Type} require_ok method path (o : @outcome J) b :
  attempt_once require_ok method path o = inl (Return b) →
  ∃ resp, o = Responded resp ∧ b = decode resp.
Proof.
  destruct o as [resp|detail]; simpl; [|done].
  destruct (require_ok && _); [by destruct (no_retry _)|].
  intros [= <-]. by exists resp.
Qed.

(** An attempt leaves only with a value or with its own error. *)
Lemma attempt_leaves {J : Type} require_ok method path (o : @outcome J) res :
  attempt_once require_ok method path o = inl res →
  (∃ b, res = Return b) ∨ (∃ e, res = Raise e).
Proof.
  destruct o as [resp|detail]; simpl; [|done].
  destruct (require_ok && _); [destruct (no_retry _)|]; intros [= <-];
    [right|left]; by eexists.
Qed.

Lemma attempt_without_require_ok {J : Type} method path (o : @outcome J) :
  attempt_once false method path o =
    match o with
    | Responded resp => inl (Return (decode resp))
    | Failed detail => inr (HTTPError detail)
    end.
Proof. by destruct o. Qed.

(** With [require_ok=True] an attempt goes one of three ways, by the
    answer alone. *)
Lemma attempt_ways {J : Type} method path (o : @outcome J) :
  match attempt_once true method path o with
  | inr _ => retryable o = true
  | inl (Raise _) =>
      ∃ resp, o = Responded resp ∧ client_error resp = true
  | inl _ => ∃ resp, o = Responded resp ∧ status_code resp < 400
  end.
Proof.
  destruct o as [resp|detail]; [|done]. simpl.
  case_bool_decide as Hhi; simpl.
  - unfold no_retry, client_error.
    destruct (status_code resp =? 429) eqn:Hlim; simpl.
    { by rewrite !andb_false_r. }
    destruct (status_code resp <? 500) eqn:Hcl; simpl.
    + assert (status_code resp =? 0 = false) as -> by lia.
      assert (400 <=? status_code resp = true) as -> by lia.
      simpl. exists resp. split; [done|].
      rewrite Hlim, Hcl. simpl. lia.
    + rewrite !andb_false_r. simpl. lia.
  - exists resp. split; [done|lia].
Qed.

Lemma retry_delay_values :
  retry_delay 0 = Some 500 ∧ retry_delay 1 = Some 1000
  ∧ (∀ i, (2 ≤ i < 1024)%nat → retry_delay i = Some 2000)
  ∧ (∀ i, (1024 ≤ i)%nat → retry_delay i = None).
Proof.
  split_and!; [done..| |].
  - intros i Hi. unfold retry_delay. rewrite bool_decide_true by lia.
    assert (2 ^ 2 ≤ 2 ^ Z.of_nat i) by (apply Z.pow_le_mono_r; lia).
    f_equal. lia.
  - intros i Hi. unfold retry_delay. by rewrite bool_decide_false by lia.
Qed.

(** *** What [strip] removes *)

Lemma lstrip_split s :
  ∃ before, s = before +:+ lstrip s ∧ all_space before = true.
Proof.
  induction s as [|a s (before & IH & Hsp)]; simpl.
  - by exists EmptyString.
  - destruct (is_space a) eqn:Ha.
    + exists (String a before). split; [by rewrite IH at 1|].
      unfold all_space in *. simpl. by rewrite Ha.
    + by exists EmptyString.
Qed.

Lemma rstrip_split s :
  ∃ after, s = rstrip s +:+ after ∧ all_space after = true.
Proof.
  induction s as [|a s (after & IH & Hsp)]; simpl.
  - by exists EmptyString.
  - destruct (rstrip s) as [|b r] eqn:Hr.
    + destruct (is_space a) eqn:Ha.
      * exists (String a after). split; [by rewrite IH at 1|].
        unfold all_space in *. simpl. by rewrite Ha.
      * exists after. split; [by rewrite IH at 1|done].
    + exists after. split; [by rewrite IH at 1|done].
Qed.

Lemma lstrip_first s : starts_blank (lstrip s) = false.
Proof.
  induction s as [|a s IH]; simpl; [done|].
  destruct (is_space a) eqn:Ha; [done|]. simpl. by rewrite Ha.
Qed.

Lemma rstrip_last s : ends_blank (rstrip s) = false.
Proof.
  induction s as [|a s IH]; simpl; [done|].
  destruct (rstrip s) as [|b r] eqn:Hr.
  - destruct (is_space a) eqn:Ha; [done|]. simpl. by rewrite Ha.
  - done.
Qed.

Lemma rstrip_first s :
  starts_blank s = false → starts_blank (rstrip s) = false.
Proof.
  destruct s as [|a s]; simpl; [done|]. intros Ha.
  destruct (rstrip s); simpl; [by rewrite Ha|done].
Qed.

Lemma strip_spec t :
  (∃ before after,
     t = before +:+ strip t +:+ after
     ∧ all_space before = true ∧ all_space after = true)
  ∧ starts_blank (strip t) = false
  ∧ ends_blank (strip t) = false.
Proof.
  unfold strip. split_and!.
  - destruct (lstrip_split t) as (before & Ht & Hb).
    destruct (rstrip_split (lstrip t)) as (after & Hl & Ha).
    exists before, after. split_and!; [|done..].
    by rewrite <- Hl.
  - apply rstrip_first, lstrip_first.
  - apply rstrip_last.
Qed.

(** X11 (success after retries).  With [require_ok=True], when the first
    [k] attempts, [k] within the limit and not above 1024, end in a network
    failure, a 429 or a status of 500 and above, and attempt [k] is
    answered with a status below 400, the request returns the decoded body
    of that answer after exactly [k + 1] attempts, having slept the pause
    of each failed attempt. *)
Theorem request_succeeds_after_retries (J : Type) (token : option string)
    (retries : Z) (net : nat → @outcome J) (method path : string)
    (params : option (gmap string string)) (json_body : option J)
    (k : nat) (resp : @HttpResponse J) :
  let c := new_client token retries in
  let out := _request c net method path params json_body true in
  (k ≤ Z.to_nat (_retries c))%nat →
  (k ≤ 1024)%nat →
  (∀ i, (i < k)%nat → retryable (net i) = true) →
  net k = Responded resp →
  status_code resp < 400 →
  out.1 = Return (decode resp)
  ∧ attempts_made out.2 = S k
  ∧ Some <$> pauses out.2 = retry_delay <$> seq 0 k.
Proof.
  intros c out Hk Hsmall Hfall Hresp Hok. subst out c. unfold _request.
  destruct (attempts_of_new_client token retries) as [-> Hretries].
  set (c := new_client token retries) in *.
  set (req := {| req_method := method; req_url := BASE_URL +:+ path;
                 req_params := params; req_json := json_body;
                 req_headers := _auth_headers c |}).
  apply loop_stops_at; [done|done|lia| |].
  - intros i Hi. apply retryable_falls_through. by apply Hfall.
  - simpl. rewrite Hresp. by apply success_returns.
Qed.

Lemma request_succeeds_after_retries_witness :
  let c := new_client (Some "token"%string) default_retries in
  let out := _request c errors_then_ok "GET" "/v1/user/profile" None None
               true in
  (retryable (errors_then_ok 0) = true ∧ retryable (errors_then_ok 1) = true)
  ∧ out.1 = Return (Json tt)
  ∧ attempts_made out.2 = 3%nat
  ∧ Some <$> pauses out.2 = [Some 500; Some 1000].
Proof.
  intros c out. split; [by split|].
  apply (request_succeeds_after_retries unit (Some "token"%string)
           default_retries errors_then_ok "GET" "/v1/user/profile" None None
           2 {| status_code := 200; json := Some tt; text := "{}" |}).
  - vm_compute. lia.
  - lia.
  - intros [|[|i]] Hi; [reflexivity|reflexivity|lia].
  - reflexivity.
  - simpl. lia.
Defined.

(** X12 (server errors).  With [require_ok=True] an attempt goes on to a
    retry exactly when it ends in a network failure, a 429 or a status of
    500 and above; it raises at once exactly on a status in 400..499 other
    than 429, and returns on a status below 400. So a server error is
    retried like a 429: with a limit [R] up to 1024, when all [R + 1]
    attempts end in one of the three, the error of the last one is raised;
    with a limit above 1024 and 1025 such attempts, the request ends in
    [OverflowError]. *)
Theorem server_errors_are_retried (J : Type) (token : option string)
    (retries : Z) (net : nat → @outcome J) (method path : string)
    (params : option (gmap string string)) (json_body : option J) :
  let c := new_client token retries in
  let R := Z.to_nat (_retries c) in
  let out := _request c net method path params json_body true in
  (∀ resp : @HttpResponse J,
     500 ≤ status_code resp → retryable (Responded resp) = true)
  ∧ (∀ o : @outcome J,
       (retryable o = true ↔ ∃ e, attempt_once true method path o = inr e)
       ∧ (∀ e, attempt_once true method path o = inl (Raise e) →
            ∃ resp, o = Responded resp ∧ client_error resp = true)
       ∧ (∀ b, attempt_once true method path o = inl (Return b) →
            ∃ resp, o = Responded resp ∧ status_code resp < 400))
  ∧ ((R ≤ 1024)%nat →
     (∀ i, (i ≤ R)%nat → retryable (net i) = true) →
       attempts_made out.2 = S R
       ∧ ∃ e, attempt_once true method path (net R) = inr e ∧ out.1 = Raise e)
  ∧ ((1024 < R)%nat →
     (∀ i, (i ≤ 1024)%nat → retryable (net i) = true) →
       out.1 = OverflowError ∧ attempts_made out.2 = 1025%nat).
Proof.
  intros c R out. subst out R c. unfold _request.
  destruct (attempts_of_new_client token retries) as [-> Hretries].
  set (c := new_client token retries) in *.
  set (req := {| req_method := method; req_url := BASE_URL +:+ path;
                 req_params := params; req_json := json_body;
                 req_headers := _auth_headers c |}).
  split_and!.
  - intros resp Hhi. simpl. apply orb_true_iff. right. by apply Z.leb_le.
  - intros o. pose proof (attempt_ways method path o) as Hway. split_and!.
    + split; [apply retryable_falls_through|].
      intros [e He]. by rewrite He in Hway.
    + intros e He. by rewrite He in Hway.
    + intros b Hb. by rewrite Hb in Hway.
  - intros Hsmall Hfall.
    apply (loop_runs_out net (_retries c) true req path
             (Z.to_nat (_retries c)) 0 None); [done|lia|].
    intros i Hi. apply retryable_falls_through. by apply Hfall.
  - intros Hbig Hfall.
    destruct (loop_overflows net (_retries c) true req path
                (Z.to_nat (_retries c)) 0 None)
      as [Hres Hn]; [done|lia| |split; [done|lia]].
    intros i Hi. apply retryable_falls_through. by apply Hfall.
Qed.

Lemma server_errors_are_retried_witness :
  let c := new_client None 1 in
  let busy : nat → @outcome unit :=
    λ _, Responded {| status_code := 502; json := None; text := "bad" |} in
  let out := _request c busy "GET" "/v1/guest/countries" None None true in
  ((Z.to_nat (_retries c) ≤ 1024)%nat
   ∧ retryable (busy 0%nat) = true ∧ retryable (busy 1%nat) = true)
  ∧ attempts_made out.2 = 2%nat
  ∧ ∃ e, attempt_once true "GET" "/v1/guest/countries" (busy 1%nat) = inr e
         ∧ out.1 = Raise e.
Proof.
  intros c busy out. split; [split_and!; [vm_compute; lia|done..]|].
  destruct (server_errors_are_retried unit None 1 busy "GET"
              "/v1/guest/countries" None None) as (_ & _ & Hout & _).
  apply Hout; [vm_compute; lia|reflexivity].
Defined.

(** X13 (pauses).  Whatever the answers, a request makes at least one and
    at most [R + 1] attempts, and never more than 1025; it pauses exactly
    once between two consecutive attempts and never after the last; and the
    pause after attempt [i] lasts [min(2.0, 0.5 * 2 ** i)] seconds: 0.5,
    then 1, then 2 up to attempt 1023, after which the expression has no
    value. *)
Theorem one_pause_between_attempts (J : Type) (token : option string)
    (retries : Z) (net : nat → @outcome J) (method path : string)
    (params : option (gmap string string)) (json_body : option J)
    (require_ok : bool) :
  let c := new_client token retries in
  let out := _request c net method path params json_body require_ok in
  (1 ≤ attempts_made out.2 ≤ S (Z.to_nat (_retries c)))%nat
  ∧ (attempts_made out.2 ≤ 1025)%nat
  ∧ Some <$> pauses out.2 = retry_delay <$> seq 0 (attempts_made out.2 - 1)
  ∧ retry_delay 0 = Some 500 ∧ retry_delay 1 = Some 1000
  ∧ (∀ i, (2 ≤ i < 1024)%nat → retry_delay i = Some 2000)
  ∧ (∀ i, (1024 ≤ i)%nat → retry_delay i = None).
Proof.
  intros c out. subst out c. unfold _request.
  destruct (attempts_of_new_client token retries) as [-> Hretries].
  set (c := new_client token retries) in *.
  set (req := {| req_method := method; req_url := BASE_URL +:+ path;
                 req_params := params; req_json := json_body;
                 req_headers := _auth_headers c |}).
  destruct (loop_outcome net (_retries c) require_ok req path
              (Z.to_nat (_retries c)) 0 None Hretries)
    as (n & Hn & Hle & Hfall & Hp & _).
  rewrite Hn. replace (S n - 1)%nat with n by lia.
  split_and!; [lia|lia| |done|apply retry_delay_values..].
  destruct n as [|n]; [lia|]. destruct (Hfall n) as [? _]; lia.
Qed.

Lemma one_pause_between_attempts_witness :
  let c := new_client None 5 in
  let out := _request c always_down "GET" "/v1/guest/countries" None None
               true in
  (2 ≤ 4 < 1024)%nat
  ∧ retry_delay 4 = Some 2000
  ∧ attempts_made out.2 = 6%nat
  ∧ Some <$> pauses out.2
      = [Some 500; Some 1000; Some 2000; Some 2000; Some 2000].
Proof.
  intros c out.
  destruct (one_pause_between_attempts unit None 5 always_down "GET"
              "/v1/guest/countries" None None true)
    as (_ & _ & Hpauses & _ & _ & Hcap & _).
  split; [lia|]. split; [apply Hcap; lia|]. split; [reflexivity|].
  etrans; [exact Hpauses|]. reflexivity.
Defined.

(** X14 (without [require_ok]).  With [require_ok=False] a response is
    never turned into an error: the first attempt that gets any response,
    whatever its status, ends the request with the decoded body, and the
    request never raises [FiveSimError]. *)
Theorem without_require_ok_responses_return (J : Type)
    (token : option string) (retries : Z) (net : nat → @outcome J)
    (method path : string) (params : option (gmap string string))
    (json_body : option J) :
  let c := new_client token retries in
  let out := _request c net method path params json_body false in
  (∀ resp, net 0%nat = Responded resp →
     out.1 = Return (decode resp) ∧ attempts_made out.2 = 1%nat)
  ∧ (∀ message status payload,
       out.1 ≠ Raise (FiveSimError message status payload)).
Proof.
  intros c out. subst out c. unfold _request.
  destruct (attempts_of_new_client token retries) as [-> Hretries].
  set (c := new_client token retries) in *.
  set (req := {| req_method := method; req_url := BASE_URL +:+ path;
                 req_params := params; req_json := json_body;
                 req_headers := _auth_headers c |}).
  split.
  - intros resp Hresp.
    rewrite (loop_leaves net (_retries c) false req path _ 0 None
               (Return (decode resp))); [done|].
    rewrite attempt_without_require_ok. by rewrite Hresp.
  - intros message status payload Hraise.
    destruct (loop_outcome net (_retries c) false req path
                (Z.to_nat (_retries c)) 0 None Hretries)
      as (n & _ & _ & _ & _ & Hend).
    rewrite attempt_without_require_ok in Hend.
    destruct Hend as [Hend|[(_ & e & Hend & He)|(_ & _ & _ & Hov)]];
      [| |congruence]; destruct (net (0 + n)%nat); congruence.
Qed.

Lemma without_require_ok_responses_return_witness :
  let c := new_client None default_retries in
  let gone : nat → @outcome unit :=
    λ _, Responded {| status_code := 404; json := None; text := "gone" |} in
  let out := _request c gone "GET" "/v1/guest/flash/en" None None false in
  out.1 = Return (Text "gone") ∧ attempts_made out.2 = 1%nat.
Proof.
  intros c gone out.
  destruct (without_require_ok_responses_return unit None default_retries
              gone "GET" "/v1/guest/flash/en" None None) as [Hret _].
  apply (Hret {| status_code := 404; json := None; text := "gone" |}).
  reflexivity.
Defined.

(** X15 (what a request ends with).  A request never ends in the failed
    assertion. What it returns is the decoded body of the response to its
    last attempt; an error of the client that it raises is the error of
    its last attempt, be it the client error raised at once or the last
    error kept when the attempts ran out. It ends in [OverflowError] only
    with a limit above 1024, after exactly 1025 attempts, the last of which
    was to be retried. No earlier attempt decides the result. *)
Theorem result_comes_from_last_attempt (J : Type) (token : option string)
    (retries : Z) (net : nat → @outcome J) (method path : string)
    (params : option (gmap string string)) (json_body : option J)
    (require_ok : bool) :
  let c := new_client token retries in
  let out := _request c net method path params json_body require_ok in
  let last := net (attempts_made out.2 - 1)%nat in
  out.1 ≠ AssertionError
  ∧ (∀ b, out.1 = Return b → ∃ resp, last = Responded resp ∧ b = decode resp)
  ∧ (∀ e, out.1 = Raise e →
       attempt_once require_ok method path last = inl (Raise e)
       ∨ attempt_once require_ok method path last = inr e)
  ∧ (out.1 = OverflowError →
       (1024 < Z.to_nat (_retries c))%nat
       ∧ attempts_made out.2 = 1025%nat
       ∧ ∃ e, attempt_once require_ok method path last = inr e).
Proof.
  intros c out. subst out c. unfold _request.
  destruct (attempts_of_new_client token retries) as [-> Hretries].
  set (c := new_client token retries) in *.
  set (req := {| req_method := method; req_url := BASE_URL +:+ path;
                 req_params := params; req_json := json_body;
                 req_headers := _auth_headers c |}).
  destruct (loop_outcome net (_retries c) require_ok req path
              (Z.to_nat (_retries c)) 0 None Hretries)
    as (n & Hn & Hle & Hfall & _ & Hend).
  cbv zeta. rewrite Hn. replace (S n - 1)%nat with (0 + n)%nat by lia.
  change (req_method req) with method in Hend.
  split_and!.
  - intros Hassert.
    destruct Hend as [Hend|[(_ & e & _ & Hend)|(_ & _ & _ & Hend)]];
      [|congruence..].
    rewrite Hassert in Hend.
    apply attempt_leaves in Hend as [[b ?]|[e ?]]; done.
  - intros b Hb.
    destruct Hend as [Hend|[(_ & e & _ & Hend)|(_ & _ & _ & Hend)]];
      [|congruence..].
    rewrite Hb in Hend. by apply attempt_returns in Hend.
  - intros e He.
    destruct Hend as [Hend|[(_ & e' & Hend & He')|(_ & _ & _ & Hend)]].
    + left. by rewrite He in Hend.
    + right. congruence.
    + congruence.
  - intros Hov.
    destruct Hend as [Hend|[(_ & e & _ & Hend)|(Hlt & Hbig & He & _)]];
      [|congruence|].
    + rewrite Hov in Hend.
      apply attempt_leaves in Hend as [[b ?]|[e ?]]; done.
    + assert (n = 1024)%nat as ->.
      { destruct n as [|n]; [lia|]. destruct (Hfall n) as [? _]; lia. }
      split_and!; [lia|done|done].
Qed.

Lemma result_comes_from_last_attempt_witness :
  let c := new_client (Some "token"%string) default_retries in
  let out := _request c limited_then_missing "GET" "/v1/user/check/1"
               None None true in
  let e := FiveSimError (error_message "GET" "/v1/user/check/1" 404) 404
             (Text "not found") in
  out.1 = Raise e
  ∧ (attempt_once true "GET" "/v1/user/check/1"
       (limited_then_missing (attempts_made out.2 - 1)) = inl (Raise e)
     ∨ attempt_once true "GET" "/v1/user/check/1"
         (limited_then_missing (attempts_made out.2 - 1)) = inr e).
Proof.
  intros c out e. split; [reflexivity|].
  destruct (result_comes_from_last_attempt unit (Some "token"%string)
              default_retries limited_then_missing "GET" "/v1/user/check/1"
              None None true) as (_ & _ & Hraise & _).
  apply Hraise. reflexivity.
Defined.

(** X16 (what is sent).  Every attempt of a request sends the same thing:
    the given method and query to the base URL followed by the path, with
    the header [Accept: application/json], and with [Authorization: Bearer]
    followed by the token without the blanks around it, exactly when the
    client was built with a token that is more than blanks. At least one
    attempt is made. The token sent is what is left of the one given when
    the run of white space at either end is taken off: it neither starts
    nor ends with white space. *)
Theorem requests_carry_headers (J : Type) (token : option string)
    (retries : Z) (net : nat → @outcome J) (method path : string)
    (params : option (gmap string string)) (json_body : option J)
    (require_ok : bool) :
  (∀ t, token = Some t → ascii_text t = true) →
  let c := new_client token retries in
  let out := _request c net method path params json_body require_ok in
  requests out.2 ≠ []
  ∧ Forall (λ r,
      req_method r = method
      ∧ req_url r = "https://5sim.net" +:+ path
      ∧ req_params r = params
      ∧ req_headers r !! "Accept" = Some "application/json"%string
      ∧ req_headers r !! "Authorization" =
          match token with
          | Some t => if String.eqb (strip t) EmptyString then None
                      else Some ("Bearer " +:+ strip t)
          | None => None
          end)
    (requests out.2)
  ∧ (∀ t, token = Some t →
       (∃ before after,
          t = before +:+ strip t +:+ after
          ∧ all_space before = true ∧ all_space after = true)
       ∧ starts_blank (strip t) = false
       ∧ ends_blank (strip t) = false).
Proof.
  intros _ c out. subst out c. unfold _request.
  destruct (attempts_of_new_client token retries) as [-> _].
  split; [apply loop_sends|]. split; [|intros t _; apply strip_spec].
  eapply Forall_impl; [apply loop_requests|].
  intros r ->. cbn [req_method req_url req_params req_headers].
  split_and!; [done..| |].
  - unfold _auth_headers, new_client. cbn [_token _default_headers].
    destruct token as [t|]; [|done].
    destruct (String.eqb t EmptyString) eqn:Ht; [done|].
    destruct (String.eqb (strip t) EmptyString); [done|].
    by rewrite lookup_insert_ne.
  - unfold _auth_headers, new_client. cbn [_token _default_headers].
    destruct token as [t|]; [|done].
    destruct (String.eqb t EmptyString) eqn:Ht.
    + by apply String.eqb_eq in Ht as ->.
    + destruct (String.eqb (strip t) EmptyString); [done|].
      by rewrite lookup_insert_eq.
Qed.

Lemma requests_carry_headers_witness :
  let padded := new_client (Some " tok "%string) default_retries in
  let blank := new_client (Some "   "%string) default_retries in
  let sent c := requests (_request c always_ok "GET" "/v1/user/profile" None
                            None true).2 in
  (ascii_text " tok " = true ∧ ascii_text "   " = true)
  ∧ Forall (λ r, req_headers r !! "Authorization"
                   = Some "Bearer tok"%string) (sent padded)
  ∧ Forall (λ r, req_headers r !! "Authorization" = None) (sent blank).
Proof.
  intros padded blank sent. split; [by split|].
  destruct (requests_carry_headers unit (Some " tok "%string) default_retries
              always_ok "GET" "/v1/user/profile" None None true)
    as (_ & Hpadded & _); [by intros t [= <-]|].
  destruct (requests_carry_headers unit (Some "   "%string) default_retries
              always_ok "GET" "/v1/user/profile" None None true)
    as (_ & Hblank & _); [by intros t [= <-]|].
  split.
  - eapply Forall_impl; [exact Hpadded|]. by intros r (_ & _ & _ & _ & ->).
  - eapply Forall_impl; [exact Hblank|]. by intros r (_ & _ & _ & _ & ->).
Defined.

End FiveSimMore.

(** ** The inbound webhook *)

Module WebhookProofs.
Import Webhook.

(** X17 (webhook gate).  An update reaches the dispatcher exactly when the
    secret is not configured or the header carries it, the bot is
    initialized, the body decodes and the update validates; the answer is
    then 200, and otherwise an error. A configured secret that the header
    does not carry gives 401, whatever the state of the bot and the body. *)
Theorem webhook_gate (J U : Type) (model_validate : J → option U)
    (cfg : Config) (d : @Delivery J) :
  let out := telegram_webhook model_validate cfg d in
  let authorized :=
    WEBHOOK_SECRET cfg = EmptyString
    ∨ x_telegram_bot_api_secret_token d = Some (WEBHOOK_SECRET cfg) in
  (∀ u, out.2 = Some u ↔
        authorized ∧ bot_initialized cfg = true
        ∧ ∃ j, body d = Some j ∧ model_validate j = Some u)
  ∧ (out.1 = JSONResponse_ok ↔ is_Some out.2)
  ∧ (¬ authorized →
     out = (HTTPException 401 "invalid webhook secret", None)).
Proof.
  cbv zeta. unfold telegram_webhook.
  destruct (String.eqb_spec (WEBHOOK_SECRET cfg) EmptyString) as [Hs|Hs];
    cbn [negb andb].
  - destruct (bot_initialized cfg); cbn [negb].
    + destruct (body d) as [j|]; [destruct (model_validate j) as [u|] eqn:Hv|];
        cbn [fst snd]; split_and!; try (intros []; tauto).
      * intros u'. split; [intros [= <-]; naive_solver|naive_solver].
      * split; [by eexists|done].
      * intros u'. split; [done|naive_solver].
      * split; [done|by intros []].
      * intros u'. split; [done|naive_solver].
      * split; [done|by intros []].
    + cbn [fst snd]. split_and!; try (intros []; tauto).
      * intros u'. split; [done|naive_solver].
      * split; [done|by intros []].
  - case_bool_decide as Hh; cbn [negb].
    + destruct (bot_initialized cfg); cbn [negb].
      * destruct (body d) as [j|];
          [destruct (model_validate j) as [u|] eqn:Hv|];
          cbn [fst snd]; split_and!; try (intros []; tauto).
        -- intros u'. split; [intros [= <-]; naive_solver|naive_solver].
        -- split; [by eexists|done].
        -- intros u'. split; [done|naive_solver].
        -- split; [done|by intros []].
        -- intros u'. split; [done|naive_solver].
        -- split; [done|by intros []].
      * cbn [fst snd]. split_and!; try (intros []; tauto).
        -- intros u'. split; [done|naive_solver].
        -- split; [done|by intros []].
    + cbn [fst snd]. split_and!; [| |done].
      * intros u'. split; [done|naive_solver].
      * split; [done|by intros []].
Qed.

Lemma webhook_gate_witness :
  let validate : string → option nat :=
    λ j, if String.eqb j "update" then Some 1%nat else None in
  let cfg := {| WEBHOOK_SECRET := "s3cret"; bot_initialized := false |} in
  let forged := {| x_telegram_bot_api_secret_token := Some "guess"%string;
                   body := Some "update"%string |} in
  let live := {| WEBHOOK_SECRET := "s3cret"; bot_initialized := true |} in
  let genuine := {| x_telegram_bot_api_secret_token := Some "s3cret"%string;
                    body := Some "update"%string |} in
  telegram_webhook validate cfg forged
    = (HTTPException 401 "invalid webhook secret", None)
  ∧ (telegram_webhook validate live genuine).2 = Some 1%nat.
Proof.
  intros validate cfg forged live genuine. split.
  - destruct (webhook_gate string nat validate cfg forged) as (_ & _ & Hdeny).
    apply Hdeny. intros [Hs|Hh]; discriminate.
  - destruct (webhook_gate string nat validate live genuine) as (Hfed & _).
    apply Hfed. split_and!; [by right|done|by exists "update"%string].
Defined.

End WebhookProofs.

(** ** The order buttons *)

Module OrderButtonsProofs.
Import Watcher OrderButtons.

Lemma split_colon_nonempty s : split_colon s ≠ [].
Proof. destruct s as [|c s]; simpl; [done|]. by repeat case_match. Qed.

Lemma split_colon_plain s : has_colon s = false → split_colon s = [s].
Proof.
  induction s as [|c s IH]; simpl; [done|].
  intros [Hc Hs]%orb_false_iff. rewrite Hc, IH; done.
Qed.

(** A piece without a colon, then a colon: the piece is the first part. *)
Lemma split_colon_piece piece rest :
  has_colon piece = false →
  split_colon (piece +:+ String colon rest) = piece :: split_colon rest.
Proof.
  induction piece as [|c piece IH]; simpl.
  - done.
  - intros [Hc Hs]%orb_false_iff.
    change (String c piece +:+ String colon rest)
      with (String c (piece +:+ String colon rest)).
    simpl. rewrite Hc, IH; done.
Qed.

Lemma split_colon_more s :
  has_colon s = true → ∃ p1 p2 ps, split_colon s = p1 :: p2 :: ps.
Proof.
  induction s as [|c s IH]; simpl; [done|].
  destruct (Ascii.eqb c colon); simpl.
  - intros _. destruct (split_colon s) as [|p ps] eqn:Hs;
      [by apply split_colon_nonempty in Hs|by eexists _, _, _].
  - intros (p1 & p2 & ps & ->)%IH. by eexists _, _, _.
Qed.

Lemma callback_parts action order_id :
  has_colon action = false →
  split_colon ("order:" +:+ action +:+ String colon order_id)
    = "order"%string :: action :: split_colon order_id.
Proof.
  intros Ha.
  change ("order:" +:+ action +:+ String colon order_id)
    with ("order" +:+ String colon (action +:+ String colon order_id)).
  rewrite split_colon_piece by done. by rewrite split_colon_piece.
Qed.

Lemma buttons_of order_id text data :
  (text, data) ∈ concat (_order_keyboard order_id) →
  ∃ action,
    data = "order:" +:+ action +:+ String colon order_id
    ∧ ((text = "Check" ∧ action = "check") ∨ (text = "Finish" ∧ action = "finish")
       ∨ (text = "Cancel" ∧ action = "cancel") ∨ (text = "Ban" ∧ action = "ban"))%string.
Proof.
  simpl. rewrite !elem_of_cons, elem_of_nil.
  intros [[= -> ->]|[[= -> ->]|[[= -> ->]|[[= -> ->]|[]]]]].
  - exists "check"%string. split; [done|]. tauto.
  - exists "finish"%string. split; [done|]. tauto.
  - exists "cancel"%string. split; [done|]. tauto.
  - exists "ban"%string. split; [done|]. tauto.
Qed.

(** X18 (buttons round trip).  For an order id without a colon, the
    callback data of every button of the keyboard passes the handler's
    filter and is routed to the client call of that button for that very
    order. For an order id with a colon the data splits into more than
    three parts and every button ends in "Invalid action". *)
Theorem keyboard_round_trip (order_id text data : string) :
  (text, data) ∈ concat (_order_keyboard order_id) →
  handles data = true
  ∧ (has_colon order_id = false →
     on_order_action data = OrderCall (button_path text order_id))
  ∧ (has_colon order_id = true → on_order_action data = InvalidAction).
Proof.
  intros (action & -> & Hbutton)%buttons_of.
  assert (has_colon action = false) as Haction
    by (destruct Hbutton as [[_ ->]|[[_ ->]|[[_ ->]|[_ ->]]]]; done).
  split_and!.
  - done.
  - intros Hid. unfold on_order_action.
    rewrite callback_parts, split_colon_plain by done.
    destruct Hbutton as [[-> ->]|[[-> ->]|[[-> ->]|[-> ->]]]]; done.
  - intros Hid. unfold on_order_action. rewrite callback_parts by done.
    by destruct (split_colon_more order_id Hid) as (p1 & p2 & ps & ->).
Qed.

Lemma keyboard_round_trip_witness :
  (("Cancel", "order:cancel:724081")%string ∈ concat (_order_keyboard "724081")
   ∧ has_colon "724081" = false)
  ∧ on_order_action "order:cancel:724081" = OrderCall "/v1/user/cancel/724081".
Proof.
  assert (("Cancel", "order:cancel:724081")%string
            ∈ concat (_order_keyboard "724081")) as Hin.
  { simpl. rewrite !elem_of_cons. tauto. }
  split; [by split|].
  destruct (keyboard_round_trip "724081" "Cancel" "order:cancel:724081" Hin)
    as (_ & Hroute & _).
  apply Hroute. reflexivity.
Defined.

Lemma code_items_strings l :
  Forall (λ s, truthy (sms_code s) = true → ∃ c, sms_code s = PyStr c) l →
  code_items l
    = Some (py_str ∘ sms_code
              <$> List.filter (λ s, truthy (sms_code s)) l).
Proof.
  induction l as [|s l IH]; [done|].
  intros [Hs Hl]%Forall_cons. simpl. rewrite (IH Hl).
  destruct (truthy (sms_code s)) eqn:Ht; [|done].
  destruct (Hs eq_refl) as [c Hc]. rewrite Hc, fmap_cons. simpl.
  by rewrite Hc.
Qed.

Lemma code_items_not_string l s :
  s ∈ l → truthy (sms_code s) = true → (∀ c, sms_code s ≠ PyStr c) →
  code_items l = None.
Proof.
  intros Hin Ht Hns. induction l as [|s0 l IH]; [by apply elem_of_nil in Hin|].
  apply elem_of_cons in Hin as [<-|Hin]; simpl.
  - rewrite Ht. destruct (sms_code s) as [| | |c]; try done. by destruct (Hns c).
  - rewrite (IH Hin). destruct (truthy (sms_code s0)); [|done].
    by destruct (sms_code s0).
Qed.

(** X19 (codes of the check action).  With no SMS the codes line is "-".
    With SMS whose codes are strings it is those codes joined, in order and
    without dedup, empty when no entry has a code. A code that is not empty
    and not a string, such as a number, makes [join] raise, and the user is
    told of a network error, although the watcher would notify that code. *)
Theorem check_action_codes (status phone : pyval) :
  (∀ sms, default [] sms = [] → check_codes sms = Some "-"%string)
  ∧ (∀ l, l ≠ [] →
       Forall (λ s, truthy (sms_code s) = true → ∃ c, sms_code s = PyStr c) l →
       check_codes (Some l)
         = Some (join ", " (py_str ∘ sms_code
                              <$> List.filter (λ s, truthy (sms_code s)) l)))
  ∧ (∀ l s, s ∈ l → truthy (sms_code s) = true →
       (∀ c, sms_code s ≠ PyStr c) →
       check_answer status phone (Some l)
         = "Network error. Please try again later."%string).
Proof.
  split_and!.
  - intros sms Hsms. unfold check_codes. by rewrite Hsms.
  - intros l Hl Hstr. destruct l as [|s l]; [done|].
    change (check_codes (Some (s :: l)))
      with (join ", " <$> code_items (s :: l)).
    by rewrite code_items_strings.
  - intros l s Hin Ht Hns. unfold check_answer.
    destruct l as [|s0 l]; [by apply elem_of_nil in Hin|].
    change (check_codes (Some (s0 :: l)))
      with (join ", " <$> code_items (s0 :: l)).
    by rewrite (code_items_not_string _ s).
Qed.

Lemma check_action_codes_witness :
  let numeric := {| sms_id := PyInt 1; sms_code := PyInt 4821;
                    sms_text := PyNone; sms_date := PyNone |} in
  (truthy (sms_code numeric) = true
   ∧ check_answer (PyStr "RECEIVED") (PyStr "+79001234567") (Some [numeric])
       = "Network error. Please try again later."%string)
  ∧ check_codes (Some [sms_with 1 "123"; sms_with 1 "123"])
      = Some "123, 123"%string.
Proof.
  intros numeric.
  destruct (check_action_codes (PyStr "RECEIVED") (PyStr "+79001234567"))
    as (_ & Hjoin & Hraise).
  split; [split; [reflexivity|]|].
  - apply (Hraise [numeric] numeric); [apply list_elem_of_here|reflexivity|done].
  - apply (Hjoin [sms_with 1 "123"; sms_with 1 "123"]); [done|].
    repeat constructor; intros _; by eexists.
Defined.

End OrderButtonsProofs.

(** ** The purchase conversation *)

Module BuyFlowProofs.
Import FiveSim BuyFlow.

Section Conversation.

Context {J F : Type}.
Variable lower : string → string.
Variable normalize : option string → string.
Variable float_str : F → string.
Variable parse_float : string → option F.
Variable token : option string.
Variable c : Client.
Variable net : nat → @outcome J.

Local Abbreviation step := (dispatch lower normalize float_str parse_float token c net).
Local Abbreviation talk := (converse lower normalize float_str parse_float token c net).

(** The local data of [on_buy] fill up in the order product, country,
    operator. *)
Lemma buy_args_order args :
  let d := buy_args lower args in
  (is_Some (d !! "operator") → is_Some (d !! "country"))
  ∧ (is_Some (d !! "country") → is_Some (d !! "product")).
Proof.
  unfold buy_args. destruct args as [|a0 [|a1 [|a2 args]]]; simpl;
    split; intros [x Hx]; simplify_map_eq; by eexists.
Qed.

Lemma on_buy_ready args ctx : ready ctx → ready (on_buy lower token args ctx).2.
Proof.
  intros Hctx. unfold on_buy. case_match; [done|].
  pose proof (buy_args_order args) as [Hoc Hcp]. cbv zeta in Hoc, Hcp.
  assert (∀ k, buy_args lower args !! k ≠ None →
               is_Some ((buy_args lower args ∪ data ctx) !! k)) as Hstored.
  { intros k Hk. destruct (buy_args lower args !! k) as [x|] eqn:Hx; [|done].
    exists x. by apply lookup_union_Some_l. }
  repeat case_bool_decide; unfold ready; cbn [snd state data]; auto.
Qed.

Lemma dispatch_ready u ctx : ready ctx → ready (step u ctx).2.
Proof.
  intros Hctx. destruct u as [args| |text]; cbn [dispatch snd]; [|done|].
  - by apply on_buy_ready.
  - unfold ready in Hctx.
    destruct (state ctx) as [[]|] eqn:Hst; cbn [snd]; try done.
    + unfold ready. simpl. by rewrite lookup_insert_eq.
    + unfold ready. simpl. rewrite lookup_insert_eq, lookup_insert_ne by done.
      split; [done|by eexists].
    + unfold ready. simpl.
      rewrite lookup_insert_eq, !lookup_insert_ne by done.
      destruct Hctx. split_and!; [done..|by eexists].
    + unfold buy_maxprice. case_match; cbn [snd]; [done|].
      unfold ready. by rewrite Hst.
    + unfold ready. by rewrite Hst.
Qed.

Lemma dispatch_well_addressed u ctx :
  ready ctx → well_addressed (step u ctx).1.
Proof.
  intros Hctx. destruct u as [args| |text]; cbn [dispatch fst]; [done..|].
  unfold ready in Hctx. destruct (state ctx) as [[]|]; try done.
  destruct Hctx as ([p Hp] & [co Hco] & [o Ho]).
  unfold buy_maxprice, FiveSim.buy_maxprice.
  destruct (if bool_decide _ then _ else _) as [max_price|]; [|done].
  cbn [fst well_addressed]. exists co, o, p. split_and!; [done..|].
  rewrite Hp, Hco, Ho. unfold buy_activation, _request.
  eapply Forall_impl; [apply FiveSimProofs.loop_requests|]. by intros r ->.
Qed.

Lemma converse_ready us ctx :
  ready ctx → ready (talk us ctx).2 ∧ Forall well_addressed (talk us ctx).1.
Proof.
  revert ctx. induction us as [|u us IH]; intros ctx Hctx; [by split|].
  simpl. pose proof (dispatch_ready u ctx Hctx) as Hnext.
  pose proof (dispatch_well_addressed u ctx Hctx) as Hhead.
  destruct (step u ctx) as [e ctx']. cbn [fst snd] in *.
  destruct (IH ctx' Hnext) as [Hend Htail].
  destruct (talk us ctx') as [es ctx'']. cbn [fst snd] in *.
  split; [done|by constructor].
Qed.

End Conversation.

(** X20 (the conversation keeps its data complete).  Whatever messages
    a chat sends, in whatever order, starting from an empty context: the
    state [wait_country] is only held with a product stored,
    [wait_operator] with product and country, [wait_maxprice] with all
    three; so every purchase is made from data holding product, country
    and operator, and each of its requests goes to
    [/v1/user/buy/activation/<country>/<operator>/<product>]. *)
Theorem conversation_keeps_choices (J F : Type) (lower : string → string)
    (normalize : option string → string) (float_str : F → string)
    (parse_float : string → option F) (token : option string) (c : Client)
    (net : nat → @outcome J) (us : list update) :
  let out := converse lower normalize float_str parse_float token c net us
               fresh in
  ready out.2 ∧ Forall well_addressed out.1.
Proof. by apply converse_ready. Qed.

(** X21 ([buy_maxprice] and the context).  A text that is neither empty,
    "skip" or "none" nor a number makes no call and leaves state and data
    as they are, so the user can answer again. Any other text clears state
    and data and makes the purchase from the data as they were; with a
    skip word no request carries [maxPrice], and with a number and the
    operator "any" every request carries it, printed by [str]. *)
Theorem buy_maxprice_outcomes (J F : Type)
    (normalize : option string → string) (float_str : F → string)
    (parse_float : string → option F) (token : option string) (retries : Z)
    (net : nat → @outcome J) (text : option string) (ctx : FSMContext) :
  let c := new_client token retries in
  let txt := normalize text in
  let skip := txt ∈ ([EmptyString; "skip"; "none"]%string : list string) in
  let did := BuyFlow.buy_maxprice normalize float_str parse_float c net text
               ctx in
  (¬ skip → parse_float txt = None → did = (NoCall, ctx))
  ∧ (skip →
     ∃ out, did = (Purchase (data ctx) out, fresh)
            ∧ Forall (λ r, has_param "maxPrice" r = false) (requests out.2))
  ∧ (∀ f, ¬ skip → parse_float txt = Some f →
       ∃ out, did = (Purchase (data ctx) out, fresh)
              ∧ (data ctx !! "operator" = Some "any"%string →
                 requests out.2 ≠ []
                 ∧ Forall (λ r, ∃ d, req_params r = Some d
                                     ∧ d !! "maxPrice" = Some (float_str f))
                     (requests out.2))).
Proof.
  cbv zeta. unfold BuyFlow.buy_maxprice, FiveSim.buy_maxprice. split_and!.
  - intros Hskip Hparse. rewrite bool_decide_false by done.
    by rewrite Hparse.
  - intros Hskip. rewrite bool_decide_true by done. eexists. split; [done|].
    replace (if bool_decide (data ctx !! "operator" = Some "any"%string)
             then None else None) with (@None (pynum F))
      by (by case_bool_decide).
    eapply Forall_impl;
      [apply (FiveSimProofs.buy_activation_requests float_str)|].
    by intros r ->.
  - intros f Hskip Hparse. rewrite bool_decide_false by done.
    rewrite Hparse. cbn [fmap option_fmap option_map].
    eexists. split; [done|]. intros Hany. rewrite bool_decide_true by done.
    split; [apply FiveSimProofs.buy_activation_sends|].
    unfold buy_activation, _request.
    eapply Forall_impl; [apply FiveSimProofs.loop_requests|].
    intros r ->. eexists. split; [done|].
    by rewrite FiveSimProofs.buy_activation_params_maxPrice.
Qed.

Lemma buy_maxprice_outcomes_witness :
  let ctx := {| state := Some wait_maxprice;
                data := {[ "product" := "telegram"; "country" := "russia";
                           "operator" := "any" ]}%string |} in
  let c := new_client (Some "token"%string) default_retries in
  let norm : option string → string := default EmptyString in
  (BuyFlow.buy_maxprice norm example_float_str example_parse_float c
     always_ok (Some "cheap"%string) ctx = (NoCall, ctx))
  ∧ (∃ out, BuyFlow.buy_maxprice norm example_float_str example_parse_float
              c always_ok (Some "skip"%string) ctx
              = (Purchase (data ctx) out, fresh)
            ∧ Forall (λ r, has_param "maxPrice" r = false) (requests out.2))
  ∧ (∃ out, BuyFlow.buy_maxprice norm example_float_str example_parse_float
              c always_ok (Some "5"%string) ctx
              = (Purchase (data ctx) out, fresh)
            ∧ requests out.2 ≠ []
            ∧ Forall (λ r, ∃ d, req_params r = Some d
                                ∧ d !! "maxPrice" = Some "5.0"%string)
                (requests out.2)).
Proof.
  intros ctx c norm.
  assert (∀ txt : string,
            txt ∈ ([EmptyString; "skip"; "none"]%string : list string)
            ↔ txt = EmptyString ∨ txt = "skip"%string ∨ txt = "none"%string)
    as Hwords by (intros txt; rewrite !elem_of_cons, elem_of_nil; tauto).
  split; [|split].
  - destruct (buy_maxprice_outcomes unit unit norm example_float_str
                example_parse_float (Some "token"%string) default_retries
                always_ok (Some "cheap"%string) ctx) as (Hbad & _).
    apply Hbad; [|reflexivity].
    rewrite Hwords. intros [?|[?|?]]; discriminate.
  - destruct (buy_maxprice_outcomes unit unit norm example_float_str
                example_parse_float (Some "token"%string) default_retries
                always_ok (Some "skip"%string) ctx) as (_ & Hskip & _).
    apply Hskip. rewrite Hwords. tauto.
  - destruct (buy_maxprice_outcomes unit unit norm example_float_str
                example_parse_float (Some "token"%string) default_retries
                always_ok (Some "5"%string) ctx) as (_ & _ & Hnum).
    destruct (Hnum tt) as (out & Hout & Hany); [|reflexivity|].
    { rewrite Hwords. intros [?|[?|?]]; discriminate. }
    exists out. split; [exact Hout|]. apply Hany. reflexivity.
Defined.

End BuyFlowProofs.

(** ** The client's transport *)

Module ClientLifetimeProofs.
Import ClientLifetime.

Lemma injected_stays h ops :
  life ops {| _client := Some h; _owns_client := false |}
    = ({| _client := Some h; _owns_client := false |}, []).
Proof.
  induction ops as [|[new|new|] ops IH]; simpl; [done|..]; by rewrite IH.
Qed.

Lemma open_after_app cur evs1 evs2 :
  open_after cur (evs1 ++ evs2)
    = open_after cur evs1 ≫= λ cur', open_after cur' evs2.
Proof.
  revert cur. induction evs1 as [|[h|h] evs1 IH]; intros cur; simpl; [done|..].
  - destruct cur; [done|apply IH].
  - case_bool_decide; [apply IH|done].
Qed.

(** While the client owns its transport, it creates one only when it has
    none and closes only the one it has. *)
Lemma owned_life ops t :
  _owns_client t = true →
  _owns_client (life ops t).1 = true
  ∧ open_after (_client t) (life ops t).2 = Some (_client (life ops t).1).
Proof.
  revert t. induction ops as [|o ops IH]; intros t Howns; [done|].
  simpl.
  assert (_owns_client (apply o t).1 = true
          ∧ open_after (_client t) (apply o t).2 = Some (_client (apply o t).1))
    as [Howns' Hstep].
  { destruct o as [new|new|]; simpl;
      unfold __aenter__, _request_client, aclose;
      destruct (_client t) as [h|] eqn:Hc; rewrite ?Howns; simpl;
      rewrite ?Hc, ?bool_decide_true by done; done. }
  destruct (apply o t) as [t' evs]. cbn [fst snd] in *.
  destruct (IH t' Howns') as [Hend Hrest].
  destruct (life ops t') as [t'' evs']. cbn [fst snd] in *.
  split; [done|]. by rewrite open_after_app, Hstep.
Qed.

(** X22 (who closes the HTTP client).  A client given to [FiveSimClient]
    from outside is never closed nor replaced by it, whatever calls are
    made, [aclose] included. A client built without one creates its own
    only when it has none, closes only the one it has, and after [aclose]
    holds none. *)
Theorem transport_ownership (ops : list op) :
  (∀ h, life ops (__init__ (Some h)) = (__init__ (Some h), []))
  ∧ (let own := life ops (__init__ None) in
     open_after None own.2 = Some (_client own.1)
     ∧ _client (aclose own.1).1 = None).
Proof.
  split.
  - intros h. apply injected_stays.
  - cbv zeta. destruct (owned_life ops (__init__ None) eq_refl) as [Howns Hopen].
    split; [done|]. unfold aclose.
    destruct (_client (life ops (__init__ None)).1) eqn:Hc; rewrite ?Howns; simpl;
      done.
Qed.

End ClientLifetimeProofs.

(** ** The price listing *)

Module ListingProofs.
Import Listing.

Lemma collect_app {X R : Type} (f : X → option (list R)) l1 l2 :
  collect f (l1 ++ l2) =
    match collect f l1, collect f l2 with
    | Some rows, Some rows' => Some (rows ++ rows')
    | _, _ => None
    end.
Proof.
  induction l1 as [|x l1 IH]; simpl.
  - by destruct (collect f l2).
  - rewrite IH. destruct (f x), (collect f l1), (collect f l2); try done.
    by rewrite app_assoc.
Qed.

Lemma collect_ext {X R : Type} (f g : X → option (list R)) l :
  Forall (λ x, f x = g x) l → collect f l = collect g l.
Proof.
  induction 1 as [|x l Hx _ IH]; simpl; [done|]. by rewrite Hx, IH.
Qed.

Lemma collect_fmap {X Y R : Type} (h : X → Y) (f : Y → option (list R)) l :
  collect f (h <$> l) = collect (f ∘ h) l.
Proof.
  induction l as [|x l IH]; [done|].
  rewrite fmap_cons. cbn [collect]. by rewrite IH.
Qed.

Lemma collect_concat {X R : Type} (f : X → option (list R)) ls :
  collect f (concat ls) = collect (collect f) ls.
Proof.
  induction ls as [|l ls IH]; simpl; [done|].
  by rewrite collect_app, IH.
Qed.

Lemma collect_raises {X R : Type} (f : X → option (list R)) l x :
  x ∈ l → f x = None → collect f l = None.
Proof.
  intros Hin Hx. induction l as [|y l IH]; [by apply elem_of_nil in Hin|].
  apply elem_of_cons in Hin as [<-|Hin]; simpl.
  - by rewrite Hx.
  - rewrite (IH Hin). by destruct (f y).
Qed.

Section Shapes.

Context {A C : Type}.
Variable zero : A.
Variable float_or_0 : json A → option C.
Variable int_or_0 : json A → option Z.

Local Abbreviation flatten := (_flatten_product_prices zero float_or_0 int_or_0).
Local Abbreviation op_rows := (operator_rows zero float_or_0 int_or_0).
Local Abbreviation rows_of := (country_rows zero float_or_0 int_or_0).
Local Abbreviation quote := (quoted float_or_0 int_or_0).
Local Abbreviation encode :=
  (λ '(operator, (cost, count, more)),
     (operator, offer cost count more)
   : string * json A).

Implicit Types (ops : @offers A) (cost count : json A).
Implicit Types (more : list (string * json A)).

Lemma offer_priced cost count more : priced (offer cost count more) = true.
Proof. done. Qed.

Lemma operator_rows_offer country operator cost count more :
  op_rows country (operator, offer cost count more) =
    match float_or_0 cost, int_or_0 count with
    | Some c, Some n => Some [(country, operator, c, n)]
    | _, _ => None
    end.
Proof. done. Qed.

Lemma operators_quoted country ops :
  collect (op_rows country) (encode <$> ops) = quote country ops.
Proof.
  unfold quoted. rewrite collect_fmap. apply collect_ext, Forall_forall.
  by intros [operator [[cost count] more]] _.
Qed.

Lemma get_encoded k ops : get k (encode <$> ops) = None ↔ k ∉ ops.*1.
Proof.
  induction ops as [|[operator [[cost count] more]] ops IH]; simpl.
  - split; [intros _; apply not_elem_of_nil|done].
  - rewrite not_elem_of_cons. destruct (String.eqb_spec k operator) as [->|Hne].
    + split; [done|]. by intros [? _].
    + rewrite IH. tauto.
Qed.

Lemma has_key_encoded k ops : has_key k (encode <$> ops) = false ↔ k ∉ ops.*1.
Proof.
  unfold has_key. rewrite <- get_encoded, bool_decide_eq_false.
  by rewrite <- eq_None_not_Some.
Qed.

(** Case A on a country of the flat shape. *)
Lemma flat_country country ops :
  rows_of (country, operators_object ops) = quote country ops.
Proof.
  unfold country_rows, operators_object. destruct ops as [|o ops].
  - done.
  - assert (existsb priced (encode <$> o :: ops).*2 = true) as ->
      by (by destruct o as [operator [[cost count] more]]).
    apply operators_quoted.
Qed.

(** Case B on a country of the nested shape, when no product object looks
    like an offer. *)
Lemma nested_country country (products : list (string * @offers A)) :
  Forall (λ p, "cost"%string ∉ p.2.*1 ∧ "count"%string ∉ p.2.*1) products →
  rows_of (country,
           JDict ((λ '(product, ops), (product, operators_object ops))
                    <$> products))
    = quote country (concat products.*2).
Proof.
  intros Hnames. unfold country_rows.
  assert (existsb priced
            ((λ '(product, ops), (product, operators_object ops))
               <$> products).*2 = false) as ->.
  { induction Hnames as [|[product ops] products [Hcost Hcount] _ IH];
      [done|].
    rewrite !fmap_cons. cbn [existsb snd]. rewrite IH, orb_false_r.
    unfold operators_object, priced.
    apply has_key_encoded in Hcost, Hcount. simpl in Hcost, Hcount.
    by rewrite Hcost, Hcount. }
  unfold quoted. rewrite collect_concat, !collect_fmap.
  apply collect_ext, Forall_forall.
  intros [product ops] _. simpl. apply operators_quoted.
Qed.

Lemma flat_listing (t : list (string * @offers A)) :
  flatten (flat_prices t) = collect (λ '(country, ops), quote country ops) t.
Proof.
  unfold _flatten_product_prices, flat_prices. rewrite collect_fmap.
  apply collect_ext, Forall_forall. intros [country ops] _.
  apply flat_country.
Qed.

Lemma nested_listing (t : list (string * list (string * @offers A))) :
  Forall (λ cp, Forall (λ p, "cost"%string ∉ p.2.*1 ∧ "count"%string ∉ p.2.*1)
                  cp.2) t →
  flatten (nested_prices t)
    = collect (λ '(country, products), quote country (concat products.*2)) t.
Proof.
  intros Hnames. unfold _flatten_product_prices, nested_prices.
  rewrite collect_fmap. apply collect_ext.
  eapply Forall_impl; [exact Hnames|].
  intros [country products] Hp. by apply nested_country.
Qed.

Lemma get_encoded_offer k ops :
  k ∈ ops.*1 → ∃ cost count more,
    get k (encode <$> ops) = Some (offer cost count more).
Proof.
  induction ops as [|[operator [[cost count] more]] ops IH]; simpl.
  - by intros ?%elem_of_nil.
  - destruct (String.eqb_spec k operator) as [->|Hne].
    + intros _. by eexists _, _, _.
    + intros [?|Hin]%elem_of_cons; [done|]. by apply IH.
Qed.

(** A product object that holds an operator named like a field of an
    offer is taken for an offer, and its field for a number. *)
Lemma misread_country country (products : list (string * @offers A))
    product ops :
  (∀ d, d ≠ [] → float_or_0 (JDict d) = None) →
  (∀ d, d ≠ [] → int_or_0 (JDict d) = None) →
  (product, ops) ∈ products →
  "cost"%string ∈ ops.*1 ∨ "count"%string ∈ ops.*1 →
  rows_of (country,
           JDict ((λ '(product, ops), (product, operators_object ops))
                    <$> products)) = None.
Proof.
  intros Hfloat Hint Hin Hname.
  set (level1 := (λ '(product, ops), (product, operators_object ops))
                   <$> products).
  assert (has_key "cost" (encode <$> ops) || has_key "count" (encode <$> ops)
          = true) as Hkeys.
  { apply orb_true_iff. unfold has_key.
    destruct Hname as [(? & ? & ? & Hget)%get_encoded_offer
                      |(? & ? & ? & Hget)%get_encoded_offer];
      [left|right]; rewrite Hget; by apply bool_decide_eq_true. }
  assert ((product, operators_object ops) ∈ level1) as Hentry.
  { apply list_elem_of_fmap. by exists (product, ops). }
  unfold country_rows.
  assert (existsb priced level1.*2 = true) as ->.
  { apply existsb_exists. exists (operators_object ops). split; [|done].
    apply list_elem_of_In, list_elem_of_fmap.
    by exists (product, operators_object ops). }
  apply (collect_raises _ _ _ Hentry).
  unfold operator_rows, operators_object. rewrite Hkeys.
  destruct Hname as [Hcost|Hcount].
  - destruct (get_encoded_offer _ _ Hcost) as (cost & count & more & ->).
    simpl. unfold offer. by rewrite Hfloat.
  - destruct (get_encoded_offer _ _ Hcount) as (cost & count & more & ->).
    simpl. unfold offer. rewrite Hint by done.
    by destruct (float_or_0 _).
Qed.

End Shapes.

(** X23 (flat price listing).  On an answer of the shape country ->
    operator -> offer the function returns one row per country and
    operator, in the order of the answer, with the cost and count of the
    offer converted; a country without operators gives no row; and one
    offer whose cost or count does not convert makes the whole call
    raise. *)
Theorem flat_prices_flatten (A C : Type) (zero : A)
    (float_or_0 : json A → option C) (int_or_0 : json A → option Z)
    (t : list (string * @offers A)) :
  _flatten_product_prices zero float_or_0 int_or_0 (flat_prices t)
    = collect (λ '(country, ops), quoted float_or_0 int_or_0 country ops) t
  ∧ (∀ country ops operator cost count more,
       (country, ops) ∈ t → (operator, (cost, count, more)) ∈ ops →
       float_or_0 cost = None ∨ int_or_0 count = None →
       _flatten_product_prices zero float_or_0 int_or_0 (flat_prices t)
         = None).
Proof.
  split; [apply flat_listing|].
  intros country ops operator cost count more Hc Ho Hbad.
  rewrite flat_listing.
  apply (collect_raises _ _ _ Hc). apply (collect_raises _ _ _ Ho).
  destruct Hbad as [->| ->]; [done|by destruct (float_or_0 cost)].
Qed.

Lemma flat_prices_flatten_witness :
  let good : @offers Z := [("beeline"%string, (JAtom 5, JAtom 120, []));
                           ("mts"%string, (JAtom 7, JAtom 0, []))] in
  let bad : @offers Z :=
    [("tele2"%string, (JDict [("rub"%string, JAtom 9)], JAtom 3, []))] in
  let t := [("russia"%string, good); ("kenya"%string, []);
            ("india"%string, bad)] in
  (("india"%string, bad) ∈ t
   ∧ int_value (JDict [("rub"%string, JAtom 9)]) = None)
  ∧ _flatten_product_prices 0 int_value int_value (flat_prices t) = None
  ∧ _flatten_product_prices 0 int_value int_value
      (flat_prices [("russia"%string, good); ("kenya"%string, [])])
    = Some [("russia", "beeline", 5, 120); ("russia", "mts", 7, 0)]%string.
Proof.
  intros good bad t.
  assert (("india"%string, bad) ∈ t) as Hin
    by (do 2 apply list_elem_of_further; apply list_elem_of_here).
  split; [by split|]. split; [|reflexivity].
  destruct (flat_prices_flatten Z Z 0 int_value int_value t) as [_ Hraise].
  apply (Hraise "india"%string bad "tele2"%string
           (JDict [("rub"%string, JAtom 9)]) (JAtom 3) []);
    [exact Hin|apply list_elem_of_here|by left].
Defined.

(** X24 (the two shapes agree).  On an answer of the shape country ->
    product -> operator -> offer in which no operator is named "cost" or
    "count", the function returns the rows it returns on the flat answer
    that lists, for each country, the operators of all its products one
    after another. *)
Theorem nested_prices_flatten (A C : Type) (zero : A)
    (float_or_0 : json A → option C) (int_or_0 : json A → option Z)
    (t : list (string * list (string * @offers A))) :
  Forall (λ cp, Forall (λ p, "cost"%string ∉ p.2.*1 ∧ "count"%string ∉ p.2.*1)
                  cp.2) t →
  _flatten_product_prices zero float_or_0 int_or_0 (nested_prices t)
    = _flatten_product_prices zero float_or_0 int_or_0
        (flat_prices ((λ '(country, products),
                         (country, concat products.*2)) <$> t)).
Proof.
  intros Hnames. rewrite nested_listing by done.
  rewrite flat_listing, collect_fmap.
  apply collect_ext, Forall_forall. by intros [country products] _.
Qed.

Lemma nested_prices_flatten_witness :
  let t : list (string * list (string * @offers Z)) :=
    [("russia"%string,
      [("telegram"%string, [("beeline"%string, (JAtom 5, JAtom 120, []))]);
       ("whatsapp"%string, [("mts"%string, (JAtom 7, JAtom 3, []))])])] in
  Forall (λ cp, Forall (λ p, "cost"%string ∉ p.2.*1 ∧ "count"%string ∉ p.2.*1)
                  cp.2) t
  ∧ _flatten_product_prices 0 int_value int_value (nested_prices t)
    = _flatten_product_prices 0 int_value int_value
        (flat_prices [("russia"%string,
                       [("beeline"%string, (JAtom 5, JAtom 120, []));
                        ("mts"%string, (JAtom 7, JAtom 3, []))])]).
Proof.
  intros t.
  assert (Forall (λ cp, Forall (λ p, "cost"%string ∉ p.2.*1
                                     ∧ "count"%string ∉ p.2.*1) cp.2) t)
    as Hnames.
  { repeat constructor; simpl; rewrite elem_of_cons, elem_of_nil;
      intros [?|[]]; discriminate. }
  split; [exact Hnames|].
  apply (nested_prices_flatten Z Z 0 int_value int_value t Hnames).
Defined.

(** X25 (an operator named like a field).  In the nested shape a product
    that has an operator named "cost" or "count" makes its country read as
    flat: the product is taken for an operator and the offer found under
    that name for a number, so that, [float] and [int] raising on an
    object that is not empty, the whole call raises. *)
Theorem nested_prices_misread (A C : Type) (zero : A)
    (float_or_0 : json A → option C) (int_or_0 : json A → option Z)
    (t : list (string * list (string * @offers A)))
    (country product : string) (products : list (string * @offers A))
    (ops : @offers A) :
  (∀ d, d ≠ [] → float_or_0 (JDict d) = None) →
  (∀ d, d ≠ [] → int_or_0 (JDict d) = None) →
  (country, products) ∈ t →
  (product, ops) ∈ products →
  "cost"%string ∈ ops.*1 ∨ "count"%string ∈ ops.*1 →
  _flatten_product_prices zero float_or_0 int_or_0 (nested_prices t) = None.
Proof.
  intros Hfloat Hint Hc Hp Hname. unfold _flatten_product_prices, nested_prices.
  assert ((country,
           JDict ((λ '(product, ops), (product, operators_object ops))
                    <$> products))
            ∈ (λ '(country, products),
                 (country,
                  JDict ((λ '(product, ops), (product, operators_object ops))
                           <$> products))) <$> t) as Hentry.
  { apply list_elem_of_fmap. by exists (country, products). }
  apply (collect_raises _ _ _ Hentry).
  by apply misread_country with product ops.
Qed.

Lemma nested_prices_misread_witness :
  let ops : @offers Z := [("count"%string, (JAtom 5, JAtom 120, []))] in
  let t := [("russia"%string, [("telegram"%string, ops)])] in
  ("count"%string ∈ ops.*1)
  ∧ _flatten_product_prices 0 int_value int_value (nested_prices t) = None.
Proof.
  intros ops t.
  assert ("count"%string ∈ ops.*1) as Hname by apply list_elem_of_here.
  split; [exact Hname|].
  apply (nested_prices_misread Z Z 0 int_value int_value t "russia" "telegram"
           [("telegram"%string, ops)] ops).
  - by intros [|??] ?.
  - by intros [|??] ?.
  - apply list_elem_of_here.
  - apply list_elem_of_here.
  - by right.
Defined.

End ListingProofs.
